(** * Paragraph: read filter, aligner selection policy and workflow scheduler

    A shallow embedding of four pieces of the Paragraph graph genotyper:

    - [paragraph::readfilters::BadAlign] (BadAlign.hh): the filter that
      rejects reads of which too small a part is aligned;
    - [grm::KlibAligner::alignRead] (KlibAligner.hh, declaration only):
      the choice between the forward and the reverse-complement alignment;
    - [paragraph::Workflow] (Workflow.cpp): the worker loop that claims
      (read source, graph) units under a mutex, processes them outside of
      it, and streams the results;
    - [statistics::basics] (basics.hh): median, mean, variance and the
      indices of the smallest elements of a container.

    Doubles are IEEE binary64 values ([spec_float] with 53 bits of
    precision), unsigned integers are [Z] with their wrap-around written
    out, strings are [string], the per-unit output files are a finite map
    from path to content, and the worker pool is an interleaving of the
    workers' steps chosen by a schedule. *)

From stdpp Require Import base list strings gmap sorting.
From Stdlib Require Import ZArith Lia SpecFloat Ascii.

Set Warnings "-register-all,-clear-no-such-hyp".

Local Open Scope Z_scope.

(** ** IEEE binary64 *)

Module Double.

Definition prec : Z := 53.
Definition emax : Z := 1024.

Definition double : Type := spec_float.

(** Conversion of an integer ([uint32_t] or [size_t]) to [double]:
    round to nearest, ties to even. *)
Definition of_Z (n : Z) : double := binary_normalize prec emax n 0 false.

Definition mul : double -> double -> double := SFmul prec emax.

Definition ltb : double -> double -> bool := SFltb.
Definition leb : double -> double -> bool := SFleb.

(** C's [round]: to the nearest integer, halfway cases away from zero.
    A finite value is [(-1)^s * m * 2^e]; with [0 <= e] it is an integer
    already.  Zeros, infinities and NaN are returned unchanged. *)
Definition round (x : double) : double :=
  match x with
  | S754_finite s m e =>
      if 0 <=? e then x
      else
        let q := (Z.pos m + 2 ^ (- e - 1)) / 2 ^ (- e) in
        if q =? 0 then S754_zero s
        else binary_normalize prec emax (if s then - q else q) 0 s
  | _ => x
  end.

(** The integer that [round] returns for the positive finite double
    [m * 2^e] with [e < 0]. *)
Definition round_half_away (m : positive) (e : Z) : Z :=
  (Z.pos m + 2 ^ (- e - 1)) / 2 ^ (- e).

(** The mantissa of a positive integer below [2^53], shifted to 53 bits. *)
Definition mantissa53 (p : positive) : positive :=
  match (53 - Z.pos (digits2_pos p))%Z with
  | Z.pos k => Pos.iter xO p k
  | _ => p
  end.

Definition zero : double := S754_zero false.
Definition one : double := of_Z 1.
(** The doubles nearest to 0.8 and 1.5. *)
Definition d0_8 : double := S754_finite false 7205759403792794 (-53).
Definition d1_5 : double := S754_finite false 6755399441055744 (-52).

End Double.

Abbreviation double := Double.double.

(** ** Unsigned arithmetic *)

Definition wrap64 (n : Z) : Z := n mod 2 ^ 64.
Definition wrap32 (n : Z) : Z := n mod 2 ^ 32.

(** ** Errors, streams, JSON values *)

(** [error(fmt, ...)] of common/Error.hh formats a message and throws; a
    call that can throw returns a [result]. *)
Inductive result (A : Type) : Type :=
| Ok (a : A)
| Error (msg : string).
Arguments Ok {A} a.
Arguments Error {A} msg.

(** A [std::ostream]: what has been written, and whether the stream is in
    an error state.  Writing to a stream in an error state does nothing. *)
Record ostream : Type := mkOstream {
  content : string;
  failed : bool
}.

Definition stream_write (os : ostream) (s : string) : ostream :=
  if failed os then os
  else {| content := content os +:+ s; failed := false |}.

(** [Json::Value], as far as [Workflow::processGraph] touches it. *)
Inductive JsonValue : Type :=
| JNull
| JString (s : string)
| JArray (l : list JsonValue)
| JObject (m : gmap string JsonValue).

(** [value[key] = v]: a null value becomes an object first; any other
    non-object value makes JsonCpp raise a logic error. *)
Definition json_set (key : string) (v : JsonValue) (j : JsonValue)
  : option JsonValue :=
  match j with
  | JNull => Some (JObject {[ key := v ]})
  | JObject m => Some (JObject (<[ key := v ]> m))
  | _ => None
  end.

(** [value.append(v)] on an array (or null) value. *)
Definition json_append (v : JsonValue) (j : JsonValue) : option JsonValue :=
  match j with
  | JNull => Some (JArray [v])
  | JArray l => Some (JArray (l ++ [v]))
  | _ => None
  end.

Definition json_get (key : string) (j : JsonValue) : option JsonValue :=
  match j with
  | JObject m => m !! key
  | _ => None
  end.

Definition is_object_or_null (j : JsonValue) : bool :=
  match j with
  | JNull | JObject _ => true
  | _ => false
  end.

(** ** Reads *)

(** [common::Read], with the fields written by the aligner optional. *)
Record Read : Type := mkRead {
  bases : string;
  quality : string;
  graph_pos : option Z;
  graph_cigar : option string;
  graph_alignment_score : option Z;
  is_graph_reverse_strand : bool;
  is_graph_alignment_unique : bool;
  graph_mapped : bool
}.

(** What [filterRead] uses of a [graphtools::Alignment] and of the
    [graphtools::GraphAlignment] it belongs to. *)
Record Alignment : Type := mkAlignment {
  numClipped : Z
}.

Record GraphAlignment : Type := mkGraphAlignment {
  alignments : list Alignment;
  queryLength : Z
}.

(** [graphtools::Graph const*]: a pointer is [None] when null. *)
Definition pointer (A : Type) : Type := option A.

(** Monadic left fold over [option], for loops whose body can throw. *)
Fixpoint foldlM {A B : Type} (f : B -> A -> option B) (b : B) (l : list A)
  : option B :=
  match l with
  | [] => Some b
  | x :: l' => match f b x with
               | Some b' => foldlM f b' l'
               | None => None
               end
  end.

(** One candidate alignment of a read sequence against a path. *)
Record Candidate : Type := mkCandidate {
  cand_score : Z;
  cand_pos : Z;
  cand_cigar : string
}.

(** [common::BamReader(bamPath, bamIndexPath, referencePath)]. *)
Record BamReader : Type := mkBamReader {
  bam_path : string;
  bam_index_path : string;
  bam_reference_path : string
}.

(** ** Collaborators

    What the modelled code calls and the sources do not contain: the
    graph library, the Klib aligner, the read-source reader, parameter
    loading, disambiguation, JSON output, Boost's paths and the file
    system.  A call that can throw returns an [option] or a [bool]. *)
Class Collaborators : Type := {
  Graph : Type;
  Path : Type;
  Parameters : Type;
  (** [graphtools::decodeGraphAlignment(pos, cigar, graph)] *)
  decodeGraphAlignment : Z -> string -> Graph -> GraphAlignment;
  (** Klib local alignment of a sequence against one path; [None] when
      no alignment clears the local-alignment threshold *)
  klibAlign : Path -> string -> option Candidate;
  reverseComplement : string -> string;
  (** whether constructing the reader succeeds *)
  BamReader_opens : string -> string -> string -> bool;
  (** [Parameters::load(graphSpecPath, referencePath, targetRegions)] *)
  Parameters_load : Parameters -> string -> string -> string -> option Parameters;
  Parameters_threads : Parameters -> nat;
  (** [common::extractReads(reader, ..., allReads)] appends to the buffer *)
  extractReads : BamReader -> Parameters -> list Read -> option (list Read);
  (** alignment, filtering and disambiguation of one unit *)
  alignAndDisambiguate : Parameters -> list Read -> option JsonValue;
  writeJson : JsonValue -> string;
  (** [boost::filesystem::path::filename()] and [operator/] *)
  path_filename : string -> string;
  path_append : string -> string -> string;
  (** whether a [basic_file_sink] on a path opens, the text of
      [std::strerror(errno)] after a failure, and the gzip compressor *)
  file_opens : string -> bool;
  strerror_errno : string;
  gzip_compress : string -> string
}.

Section Model.

Context `{Collaborators}.

(** ** The bad-alignment filter (BadAlign.hh) *)

Record BadAlign : Type := mkBadAlign {
  graph_ : Graph;
  bad_align_frac_ : double
}.

(** The constructor: [assert(graph_ != nullptr)] is its only check.
    [None] is the failed assertion. *)
Definition BadAlign_new (graph : pointer Graph) (bad_align_frac : double)
  : option BadAlign :=
  match graph with
  | None => None
  | Some g => Some {| graph_ := g; bad_align_frac_ := bad_align_frac |}
  end.

(** The loop [for (aln : mapping) query_clipped += aln.numClipped()] on a
    [size_t] accumulator. *)
Definition query_clipped_of (mapping : GraphAlignment) : Z :=
  fold_left (fun acc aln => wrap64 (acc + numClipped aln))
            (alignments mapping) 0.

Definition filterRead (self : BadAlign) (r : Read) : bool * string :=
  let mapping :=
    decodeGraphAlignment (default 0 (graph_pos r))
                         (default ""%string (graph_cigar r)) (graph_ self) in
  let query_clipped := query_clipped_of mapping in
  let query_aligned := wrap64 (queryLength mapping - query_clipped) in
  let is_bad :=
    Double.ltb (Double.of_Z query_aligned)
               (Double.round (Double.mul (bad_align_frac_ self)
                                         (Double.of_Z (queryLength mapping)))) in
  (is_bad, if is_bad then "bad_align"%string else ""%string).

(** The threshold as a base count, as the specification names it. *)
Definition threshold_count (frac : double) (query_length : Z) : double :=
  Double.round (Double.mul frac (Double.of_Z query_length)).

(** A threshold fraction in the half-open interval (0, 1]. *)
Definition threshold_in_range (frac : double) : bool :=
  Double.ltb Double.zero frac && Double.leb frac Double.one.

(** ** The aligner's selection policy (KlibAligner.hh) *)

Record KlibAligner : Type := mkKlibAligner {
  attempted_ : Z;
  mapped_ : Z;
  impl_ : option (Graph * list Path)
}.

Definition KlibAligner_new : KlibAligner :=
  {| attempted_ := 0; mapped_ := 0; impl_ := None |}.

(** Modelled from the spec: [KlibAligner::setGraph] (KlibAligner.cpp is
    not among the sources).  It binds the alignment target set and fails
    fast when the graph handle is null. *)
Definition setGraph (self : KlibAligner) (g : pointer Graph)
  (paths : list Path) : option KlibAligner :=
  match g with
  | None => None
  | Some gr => Some {| attempted_ := attempted_ self;
                       mapped_ := mapped_ self;
                       impl_ := Some (gr, paths) |}
  end.

(** Modelled from the spec: the better of two candidates of one
    orientation, the earlier path winning a tie. *)
Definition betterCandidate (earlier later : option Candidate)
  : option Candidate :=
  match earlier, later with
  | Some a, Some b => if cand_score a <? cand_score b then Some b else Some a
  | Some a, None => Some a
  | None, b => b
  end.

(** Modelled from the spec: local alignment of one orientation against
    every path of the configured set, keeping the best-scoring path. *)
Fixpoint bestOverPaths (paths : list Path) (sequence : string)
  : option Candidate :=
  match paths with
  | [] => None
  | p :: ps => betterCandidate (klibAlign p sequence) (bestOverPaths ps sequence)
  end.

(** Which orientation a selected candidate comes from. *)
Inductive Strand : Type := Forward | Reverse.

(** Modelled from the spec: the selection between the two orientation
    candidates.  The result carries the strand and whether the choice
    was forced by only one orientation mapping. *)
Definition selectOrientation (fwd rev : option Candidate)
  : option (Strand * Candidate * bool) :=
  match fwd, rev with
  | Some f, None => Some (Forward, f, true)
  | None, Some r => Some (Reverse, r, true)
  | Some f, Some r =>
      if cand_score f <? cand_score r then Some (Reverse, r, false)
      else Some (Forward, f, false)
  | None, None => None
  end.

(** Modelled from the spec: [KlibAligner::alignRead] (KlibAligner.cpp is
    not among the sources; KlibAligner.hh declares it and documents the
    policy).  Both orientations are aligned against every path, the
    selection is written onto the read, and the counters are advanced;
    they are [unsigned] and wrap at [2^32]. *)
Definition alignRead (self : KlibAligner) (read : Read)
  : KlibAligner * Read :=
  let paths := match impl_ self with Some (_, ps) => ps | None => [] end in
  let fwd := bestOverPaths paths (bases read) in
  let rev := bestOverPaths paths (reverseComplement (bases read)) in
  match selectOrientation fwd rev with
  | Some (strand, c, unique) =>
      ({| attempted_ := wrap32 (attempted_ self + 1);
          mapped_ := wrap32 (mapped_ self + 1);
          impl_ := impl_ self |},
       {| bases := bases read;
          quality := quality read;
          graph_pos := Some (cand_pos c);
          graph_cigar := Some (cand_cigar c);
          graph_alignment_score := Some (cand_score c);
          is_graph_reverse_strand :=
            match strand with Forward => false | Reverse => true end;
          is_graph_alignment_unique := unique;
          graph_mapped := true |})
  | None =>
      ({| attempted_ := wrap32 (attempted_ self + 1);
          mapped_ := mapped_ self;
          impl_ := impl_ self |},
       {| bases := bases read;
          quality := quality read;
          graph_pos := None;
          graph_cigar := None;
          graph_alignment_score := None;
          is_graph_reverse_strand := false;
          is_graph_alignment_unique := false;
          graph_mapped := false |})
  end.

(** ** The workflow (Workflow.cpp) *)

(** *** Data *)

(** [Workflow::Input]: a read-source group and its cursor into the shared
    list of graph-specification paths (an iterator, here an index). *)
Record Input : Type := mkInput {
  inputPaths_ : list string;
  inputIndexPaths_ : list string;
  unprocessedGraphs_ : nat
}.

Record Workflow : Type := mkWorkflow {
  graphSpecPaths_ : list string;
  outputFilePath_ : string;
  outputFolderPath_ : string;
  gzipOutput_ : bool;
  parameters_ : Parameters;
  referencePath_ : string;
  targetRegions_ : string;
  unprocessedInputs_ : list Input;
  mutex_ : option nat;
  firstPrinted_ : bool;
  terminate_ : bool
}.

Definition set_unprocessedInputs (v : list Input) (W : Workflow) : Workflow :=
  mkWorkflow (graphSpecPaths_ W) (outputFilePath_ W) (outputFolderPath_ W)
    (gzipOutput_ W) (parameters_ W) (referencePath_ W) (targetRegions_ W)
    v (mutex_ W) (firstPrinted_ W) (terminate_ W).

Definition set_mutex (v : option nat) (W : Workflow) : Workflow :=
  mkWorkflow (graphSpecPaths_ W) (outputFilePath_ W) (outputFolderPath_ W)
    (gzipOutput_ W) (parameters_ W) (referencePath_ W) (targetRegions_ W)
    (unprocessedInputs_ W) v (firstPrinted_ W) (terminate_ W).

Definition set_firstPrinted (v : bool) (W : Workflow) : Workflow :=
  mkWorkflow (graphSpecPaths_ W) (outputFilePath_ W) (outputFolderPath_ W)
    (gzipOutput_ W) (parameters_ W) (referencePath_ W) (targetRegions_ W)
    (unprocessedInputs_ W) (mutex_ W) v (terminate_ W).

Definition set_terminate (v : bool) (W : Workflow) : Workflow :=
  mkWorkflow (graphSpecPaths_ W) (outputFilePath_ W) (outputFolderPath_ W)
    (gzipOutput_ W) (parameters_ W) (referencePath_ W) (targetRegions_ W)
    (unprocessedInputs_ W) (mutex_ W) (firstPrinted_ W) v.

Definition is_empty (s : string) : bool := bool_decide (s = ""%string).

(** The groups of the non-joint case: one [Input] per read source, its
    index path fetched with [at(i)], which throws out of range. *)
Fixpoint separateInputs (inputPaths inputIndexPaths : list string) (i : nat)
  : option (list Input) :=
  match inputPaths with
  | [] => Some []
  | inputPath :: rest =>
      match inputIndexPaths !! i with
      | None => None
      | Some inputIndexPath =>
          match separateInputs rest inputIndexPaths (S i) with
          | None => None
          | Some l => Some (mkInput [inputPath] [inputIndexPath] 0%nat :: l)
          end
      end
  end.

(** The constructor.  The mutex starts free and the two flags start
    false (their initialisers are in Workflow.hh). *)
Definition Workflow_new (jointInputs : bool)
  (inputPaths inputIndexPaths graph_spec_paths : list string)
  (output_file_path output_folder_path : string) (gzipOutput : bool)
  (parameters : Parameters) (reference_path target_regions : string)
  : option Workflow :=
  let make inputs :=
    mkWorkflow graph_spec_paths output_file_path output_folder_path gzipOutput
      parameters reference_path target_regions inputs None false false in
  if jointInputs then Some (make [mkInput inputPaths inputIndexPaths 0%nat])
  else make <$> separateInputs inputPaths inputIndexPaths 0.

(** *** dumpOutput, processGraph, makeOutputFile *)

Definition dumpOutput (output : string) (os : ostream) (file : string)
  : result ostream :=
  let os' := stream_write os output in
  if failed os' then
    Error ("ERROR: Failed to write output to '" +:+ file +:+ "' error: '"
           +:+ strerror_errno +:+ "'")
  else Ok os'.

(** The [else] branch of [processGraph]: the "bam" member is set to an
    empty array and every read-source path appended to it in turn. *)
Definition appendBam (outputJson : JsonValue) (inputPath : string)
  : option JsonValue :=
  match json_get "bam" outputJson with
  | Some cur =>
      match json_append (JString inputPath) cur with
      | Some cur' => json_set "bam" cur' outputJson
      | None => None
      end
  | None => None
  end.

Definition setBam (inputPaths : list string) (outputJson : JsonValue)
  : option JsonValue :=
  if bool_decide (length inputPaths = 1%nat) then
    json_set "bam" (JString (default ""%string (head inputPaths))) outputJson
  else
    match json_set "bam" (JArray []) outputJson with
    | Some j => foldlM appendBam j inputPaths
    | None => None
    end.

(** [None] when a collaborator throws. *)
Definition processGraph (graphSpecPath : string) (parameters : Parameters)
  (inputPaths : list string) (readers : list BamReader) : option string :=
  match foldlM (fun allReads reader => extractReads reader parameters allReads)
               [] readers with
  | None => None
  | Some allReads =>
      match alignAndDisambiguate parameters allReads with
      | None => None
      | Some outputJson => writeJson <$> setBam inputPaths outputJson
      end
  end.

Definition outputPathFor (W : Workflow) (graphSpecPath : string) : string :=
  let outputPath :=
    path_append (outputFolderPath_ W) (path_filename graphSpecPath) in
  if gzipOutput_ W then outputPath +:+ ".gz" else outputPath.

(** The per-unit output files are a map from path to content; opening a
    file sink creates or truncates the file. *)
Definition makeOutputFile (W : Workflow) (output graphSpecPath : string)
  (fs : gmap string string) : result (gmap string string) :=
  let outputPath := outputPathFor W graphSpecPath in
  if negb (file_opens outputPath) then
    Error ("ERROR: Failed to open output file '" +:+ outputPath
           +:+ "'. Error: '" +:+ strerror_errno +:+ "'")
  else
    match dumpOutput output {| content := ""; failed := false |} outputPath with
    | Error msg => Error msg
    | Ok fos =>
        Ok (<[ outputPath :=
                 if gzipOutput_ W then gzip_compress (content fos)
                 else content fos ]> fs)
    end.

(** *** The worker loop: Workflow::processGraphs *)

(** The loop over [input.inputPaths_] that opens one reader per read
    source, the index path taken with [operator[]] (here the empty string
    when out of range).  [None] when a reader fails to open. *)
Definition openReaders (W : Workflow) (input : Input)
  : option (list BamReader) :=
  mapM (fun i : nat =>
          let bamPath := inputPaths_ input !!! i in
          let bamIndexPath := inputIndexPaths_ input !!! i in
          if BamReader_opens bamPath bamIndexPath (referencePath_ W)
          then Some (mkBamReader bamPath bamIndexPath (referencePath_ W))
          else None)
       (seq 0 (length (inputPaths_ input))).

(** The part of the block that runs with the mutex released, up to the
    serialized result: [None] when it throws. *)
Definition unitStage (W : Workflow) (input : Input) (graphSpecPath : string)
  (readers : list BamReader) : option string :=
  match Parameters_load (parameters_ W) graphSpecPath (referencePath_ W)
                        (targetRegions_ W) with
  | None => None
  | Some parameters =>
      processGraph graphSpecPath parameters (inputPaths_ input) readers
  end.

(** Modelled from the spec: the macro [ASYNC_BLOCK_WITH_CLEANUP] of
    common/Threads.hh, which is not among the sources.  A failure inside
    the block is caught at the block's end, the cleanup
    [terminate_ |= failure] runs after the [unlock_guard] has taken the
    mutex again, and control continues after the block.  The macro is
    taken to introduce no loop of its own, so that the [break] inside the
    block leaves the [while] loop. *)
Definition asyncBlockCleanup (failure : bool) (W : Workflow) : Workflow :=
  set_terminate (terminate_ W || failure) W.

(** Where a worker is in [processGraphs].  [k] is the index of the read
    source group in [unprocessedInputs_], [i] the index of the claimed
    graph-specification path. *)
Inductive pc : Type :=
| PFor (k : nat)
| PWhile (k : nat)
| POpen (k i : nat)
| PHeavy (k i : nat) (readers : list BamReader)
| PFile (k i : nat) (output : string)
| PRelock (k i : nat) (output : string) (failure : bool)
| PEmit (k i : nat) (output : string)
| PDone.

Inductive event : Type :=
| EvLock (k : nat)
| EvExit
| EvClaim (k i : nat)
| EvLeave (k : nat)
| EvOpenFailed (k i : nat)
| EvAbandon (k i : nat)
| EvStart (k i : nat)
| EvStage (k i : nat) (outcome : option string)
| EvFile (k i : nat) (path : string) (ok : bool)
| EvNoFile (k i : nat)
| EvRelock (k i : nat) (failure : bool)
| EvEmit (k i : nat) (output : string)
| EvNoEmit (k i : nat)
| EvStreamError (k i : nat).

(** A step of the history: who acted, who held the mutex when the step
    began, and what was done. *)
Record entry : Type := mkEntry {
  actor : nat;
  holder : option nat;
  what : event
}.

Record system : Type := mkSystem {
  wf : Workflow;
  aggregate : ostream;
  files : gmap string string;
  workers : list pc;
  trace : list entry
}.

Definition goto (s : system) (w : nat) (W' : Workflow) (os' : ostream)
  (fs' : gmap string string) (p' : pc) (e : event) : system :=
  {| wf := W'; aggregate := os'; files := fs';
     workers := <[ w := p' ]> (workers s);
     trace := trace s ++ [mkEntry w (mutex_ (wf s)) e] |}.

Definition advance (input : Input) : Input :=
  mkInput (inputPaths_ input) (inputIndexPaths_ input)
          (S (unprocessedGraphs_ input)).

(** One step of worker [w]; [None] when the worker has finished or waits
    for the mutex. *)
Definition step (w : nat) (s : system) : option system :=
  let W := wf s in
  match workers s !! w with
  | None => None
  | Some PDone => None
  | Some (PFor k) =>
      (* for (Input& input : unprocessedInputs_) { lock_guard lock(mutex_); *)
      match unprocessedInputs_ W !! k with
      | None => Some (goto s w W (aggregate s) (files s) PDone EvExit)
      | Some _ =>
          match mutex_ W with
          | Some _ => None
          | None => Some (goto s w (set_mutex (Some w) W) (aggregate s)
                               (files s) (PWhile k) (EvLock k))
          end
      end
  | Some (PWhile k) =>
      (* while (graphSpecPaths_.end() != input.unprocessedGraphs_)
           graphSpecPath = *(input.unprocessedGraphs_++); *)
      match unprocessedInputs_ W !! k with
      | None => None
      | Some input =>
          let i := unprocessedGraphs_ input in
          if bool_decide (length (graphSpecPaths_ W) ≠ i) then
            match graphSpecPaths_ W !! i with
            | None => None
            | Some _ =>
                Some (goto s w
                        (set_unprocessedInputs
                           (<[ k := advance input ]> (unprocessedInputs_ W)) W)
                        (aggregate s) (files s) (POpen k i) (EvClaim k i))
            end
          else Some (goto s w (set_mutex None W) (aggregate s) (files s)
                          (PFor (S k)) (EvLeave k))
      end
  | Some (POpen k i) =>
      (* readers.emplace_back(...); if (terminate_) break;
         unlock_guard unlock(mutex_); *)
      match unprocessedInputs_ W !! k with
      | None => None
      | Some input =>
          match openReaders W input with
          | None =>
              Some (goto s w (asyncBlockCleanup true W) (aggregate s)
                         (files s) (PEmit k i "") (EvOpenFailed k i))
          | Some readers =>
              if terminate_ W then
                Some (goto s w (set_mutex None (asyncBlockCleanup false W))
                           (aggregate s) (files s) (PFor (S k))
                           (EvAbandon k i))
              else
                Some (goto s w (set_mutex None W) (aggregate s) (files s)
                           (PHeavy k i readers) (EvStart k i))
          end
      end
  | Some (PHeavy k i readers) =>
      (* parameters.load(...); output = processGraph(...); *)
      match unprocessedInputs_ W !! k, graphSpecPaths_ W !! i with
      | Some input, Some graphSpecPath =>
          match unitStage W input graphSpecPath readers with
          | Some output =>
              Some (goto s w W (aggregate s) (files s) (PFile k i output)
                         (EvStage k i (Some output)))
          | None =>
              Some (goto s w W (aggregate s) (files s) (PRelock k i "" true)
                         (EvStage k i None))
          end
      | _, _ => None
      end
  | Some (PFile k i output) =>
      (* if (!outputFolderPath_.empty()) makeOutputFile(output, graphSpecPath); *)
      match graphSpecPaths_ W !! i with
      | None => None
      | Some graphSpecPath =>
          if is_empty (outputFolderPath_ W) then
            Some (goto s w W (aggregate s) (files s)
                       (PRelock k i output false) (EvNoFile k i))
          else
            match makeOutputFile W output graphSpecPath (files s) with
            | Ok fs' =>
                Some (goto s w W (aggregate s) fs' (PRelock k i output false)
                           (EvFile k i (outputPathFor W graphSpecPath) true))
            | Error _ =>
                Some (goto s w W (aggregate s) (files s)
                           (PRelock k i output true)
                           (EvFile k i (outputPathFor W graphSpecPath) false))
            end
      end
  | Some (PRelock k i output failure) =>
      (* the end of the block: ~unlock_guard locks, then the cleanup *)
      match mutex_ W with
      | Some _ => None
      | None =>
          Some (goto s w (asyncBlockCleanup failure (set_mutex (Some w) W))
                     (aggregate s) (files s) (PEmit k i output)
                     (EvRelock k i failure))
      end
  | Some (PEmit k i output) =>
      (* if (!outputFilePath_.empty()) { if (firstPrinted_) os << ',';
           dumpOutput(output, os, outputFilePath_); firstPrinted_ = true; } *)
      if is_empty (outputFilePath_ W) then
        Some (goto s w W (aggregate s) (files s) (PWhile k) (EvNoEmit k i))
      else
        let os := if firstPrinted_ W then stream_write (aggregate s) ","
                  else aggregate s in
        match dumpOutput output os (outputFilePath_ W) with
        | Ok os' =>
            Some (goto s w (set_firstPrinted true W) os' (files s) (PWhile k)
                       (EvEmit k i output))
        | Error _ =>
            (* thrown outside of the block: the worker leaves processGraphs
               and its lock_guard releases the mutex *)
            Some (goto s w (set_mutex None W) (stream_write os output)
                       (files s) PDone (EvStreamError k i))
        end
  end.

(** A schedule names the worker that moves next; a worker that cannot
    move leaves the system as it is. *)
Definition sched_step (s : system) (w : nat) : system :=
  default s (step w s).

Definition exec (sched : list nat) (s : system) : system :=
  fold_left sched_step sched s.

Definition is_done (p : pc) : bool :=
  match p with PDone => true | _ => false end.

Definition all_done (s : system) : bool := forallb is_done (workers s).

(** *** The driver: Workflow::run *)

Definition opening_token : string := "[".
Definition closing_token : string :=
  String "]"%char (String "010"%char EmptyString).

Definition framed (W : Workflow) : bool :=
  negb (is_empty (outputFilePath_ W))
  && bool_decide (1 < length (graphSpecPaths_ W))%nat.

Definition good_stream : ostream := {| content := ""; failed := false |}.

Definition openAggregate (W : Workflow) : result ostream :=
  if is_empty (outputFilePath_ W) then Ok good_stream
  else if bool_decide (outputFilePath_ W = "-"%string) then Ok good_stream
  else if file_opens (outputFilePath_ W) then Ok good_stream
  else Error ("ERROR: Failed to open output file '" +:+ outputFilePath_ W
              +:+ "'. Error: '" +:+ strerror_errno +:+ "'").

(** The state in which the worker pool is launched.
    Modelled from the spec: [common::CPU_THREADS(n).execute(f)] of
    common/Threads.hh, which is not among the sources, runs [f] on a
    fixed-size pool of [n] worker threads and returns when all of them
    have returned. *)
Definition run_start (W : Workflow) (fs : gmap string string)
  : result system :=
  match openAggregate W with
  | Error msg => Error msg
  | Ok os =>
      Ok {| wf := W;
            aggregate := if framed W then stream_write os opening_token
                         else os;
            files := fs;
            workers := replicate (Parameters_threads (parameters_ W))
                                 (PFor 0);
            trace := [] |}
  end.

Definition run_finish (s : system) : system :=
  {| wf := wf s;
     aggregate := if framed (wf s)
                  then stream_write (aggregate s) closing_token
                  else aggregate s;
     files := files s; workers := workers s; trace := trace s |}.

(** A run under a schedule: [None] when the aggregated sink cannot be
    opened or the schedule ends before every worker has returned. *)
Definition run (W : Workflow) (fs : gmap string string) (sched : list nat)
  : option system :=
  match run_start W fs with
  | Error _ => None
  | Ok s0 =>
      let s1 := exec sched s0 in
      if all_done s1 then Some (run_finish s1) else None
  end.


(** *** Views of a state and of its history *)

(** A workflow as its constructor leaves it. *)
Definition is_fresh (W : Workflow) : bool :=
  bool_decide (mutex_ W = None) && negb (firstPrinted_ W)
  && negb (terminate_ W)
  && forallb (fun input => Nat.eqb (unprocessedGraphs_ input) 0)
             (unprocessedInputs_ W).

(** The positions at which a worker holds the mutex. *)
Definition holding (p : pc) : bool :=
  match p with
  | PWhile _ | POpen _ _ | PEmit _ _ _ => true
  | _ => false
  end.

(** The unit a worker has claimed and not finished. *)
Definition unit_of (p : pc) : option (nat * nat) :=
  match p with
  | POpen k i | PHeavy k i _ | PFile k i _ | PRelock k i _ _ | PEmit k i _ =>
      Some (k, i)
  | _ => None
  end.

Definition inflight (s : system) : list (nat * nat) :=
  omap unit_of (workers s).

(** The unit of a worker that has claimed it and not yet started, failed
    or abandoned it. *)
Definition unit_at_open (p : pc) : option (nat * nat) :=
  match p with
  | POpen k i => Some (k, i)
  | _ => None
  end.

Definition at_open (s : system) : list (nat * nat) :=
  omap unit_at_open (workers s).

Definition claimed (t : list entry) : list (nat * nat) :=
  omap (fun e => match what e with
                 | EvClaim k i => Some (k, i)
                 | _ => None
                 end) t.

(** The graph-specification indices claimed for group [k], in order. *)
Definition claims_of (k : nat) (t : list entry) : list nat :=
  omap (fun u : nat * nat => if bool_decide (u.1 = k) then Some u.2 else None)
       (claimed t).

Definition started (t : list entry) : list (nat * nat) :=
  omap (fun e => match what e with
                 | EvStart k i => Some (k, i)
                 | _ => None
                 end) t.

Definition abandoned (t : list entry) : list (nat * nat) :=
  omap (fun e => match what e with
                 | EvAbandon k i => Some (k, i)
                 | _ => None
                 end) t.

Definition open_failed (t : list entry) : list (nat * nat) :=
  omap (fun e => match what e with
                 | EvOpenFailed k i => Some (k, i)
                 | _ => None
                 end) t.

(** The units whose loop iteration has ended. *)
Definition finished (t : list entry) : list (nat * nat) :=
  omap (fun e => match what e with
                 | EvEmit k i _ | EvNoEmit k i | EvStreamError k i =>
                     Some (k, i)
                 | _ => None
                 end) t.

(** The items appended to the aggregated stream, in the order written. *)
Definition emitted (t : list entry) : list (nat * nat * string) :=
  omap (fun e => match what e with
                 | EvEmit k i output => Some (k, i, output)
                 | _ => None
                 end) t.

Definition emitted_units (t : list entry) : list (nat * nat) :=
  (fun x : nat * nat * string => x.1) <$> emitted t.

Definition emitted_outputs (t : list entry) : list string :=
  (fun x : nat * nat * string => x.2) <$> emitted t.

(** A failure that reached the cleanup of a block. *)
Definition records_failure (e : entry) : bool :=
  match what e with
  | EvOpenFailed _ _ | EvRelock _ _ true => true
  | _ => false
  end.

(** The lock discipline of the source, per step: bookkeeping under the
    mutex, the released stage and the per-unit file without it, and the
    mutex free when it is taken. *)
Definition lock_ok (e : entry) : Prop :=
  match what e with
  | EvClaim _ _ | EvLeave _ | EvOpenFailed _ _ | EvAbandon _ _
  | EvStart _ _ | EvEmit _ _ _ | EvNoEmit _ _ | EvStreamError _ _ =>
      holder e = Some (actor e)
  | EvStage _ _ _ | EvFile _ _ _ _ | EvNoFile _ _ | EvExit =>
      holder e <> Some (actor e)
  | EvLock _ | EvRelock _ _ _ => holder e = None
  end.

(** The lock discipline as the specification has it: the per-unit file
    is written after the mutex has been taken again. *)
Definition lock_ok_spec (e : entry) : Prop :=
  match what e with
  | EvFile _ _ _ _ => holder e = Some (actor e)
  | _ => lock_ok e
  end.

(** All units of a workflow: every group with every graph-specification
    path. *)
Definition all_units (W : Workflow) : list (nat * nat) :=
  k ← seq 0 (length (unprocessedInputs_ W));
  (fun i => (k, i)) <$> seq 0 (length (graphSpecPaths_ W)).

Definition cursor_of (W : Workflow) (k : nat) : nat :=
  from_option unprocessedGraphs_ 0%nat (unprocessedInputs_ W !! k).

(** The readers of a group and the outcome of the released stage of a
    unit, [None] when something throws. *)
Definition unit_readers (W : Workflow) (k : nat)
  : option (list BamReader) :=
  match unprocessedInputs_ W !! k with
  | Some input => openReaders W input
  | None => None
  end.

Definition unit_stage (W : Workflow) (k i : nat) : option string :=
  match unprocessedInputs_ W !! k, graphSpecPaths_ W !! i with
  | Some input, Some graphSpecPath =>
      match openReaders W input with
      | Some readers => unitStage W input graphSpecPath readers
      | None => None
      end
  | _, _ => None
  end.

(** The serialized output of a unit, as the worker that processes it
    ends up holding it: empty when a reader fails to open or the released
    stage throws. *)
Definition unit_output (W : Workflow) (k i : nat) : string :=
  default ""%string (unit_stage W k i).

(** The per-unit file of a unit is wanted and does not open. *)
Definition unit_file_fails (W : Workflow) (i : nat) : bool :=
  match graphSpecPaths_ W !! i with
  | Some graphSpecPath =>
      negb (is_empty (outputFolderPath_ W))
      && negb (file_opens (outputPathFor W graphSpecPath))
  | None => false
  end.

(** A unit fails when a reader does not open, the released stage throws,
    or its per-unit file is wanted and does not open. *)
Definition unit_fails (W : Workflow) (k i : nat) : bool :=
  match unit_stage W k i with
  | Some _ => unit_file_fails W i
  | None => true
  end.

(** The framing of the aggregated stream. *)
Definition frame (framing : bool) (body : string) : string :=
  if framing then opening_token +:+ body +:+ closing_token else body.

(** *** Invariants of the worker pool *)

(** What no step changes: the configuration and the read sources of
    every group. *)
Definition static (W : Workflow) :=
  (graphSpecPaths_ W, outputFilePath_ W, outputFolderPath_ W, gzipOutput_ W,
   parameters_ W, referencePath_ W, targetRegions_ W,
   (fun input => (inputPaths_ input, inputIndexPaths_ input))
     <$> unprocessedInputs_ W).

(** The mutex is held by exactly the worker, if any, that is at a
    position inside a critical section. *)
Definition mutex_inv (s : system) : Prop :=
  forall w, mutex_ (wf s) = Some w <->
            exists p, workers s !! w = Some p /\ holding p = true.

(** A worker's unit has been claimed: it lies before its group's cursor. *)
Definition pc_ok (W : Workflow) (p : pc) : Prop :=
  match p with
  | PFor _ | PDone => True
  | PWhile k => (k < length (unprocessedInputs_ W))%nat
  | POpen k i | PHeavy k i _ | PFile k i _ | PRelock k i _ _ | PEmit k i _ =>
      (k < length (unprocessedInputs_ W))%nat /\ (i < cursor_of W k)%nat
  end.

(** What a worker carries is what its unit computes. *)
Definition pc_val (W0 : Workflow) (p : pc) : Prop :=
  match p with
  | PHeavy k i readers => unit_readers W0 k = Some readers
  | PFile k i output => unit_stage W0 k i = Some output
  | PRelock k i output failure =>
      output = unit_output W0 k i /\ failure = unit_fails W0 k i
  | PEmit k i output => output = unit_output W0 k i
  | _ => True
  end.

(** The group a worker is at; past the last group when it has returned. *)
Definition group_of (W : Workflow) (p : pc) : nat :=
  match p with
  | PFor k | PWhile k | POpen k _ | PHeavy k _ _ | PFile k _ _
  | PRelock k _ _ _ | PEmit k _ _ => k
  | PDone => length (unprocessedInputs_ W)
  end.

(** A started unit whose failure has not reached the cleanup yet. *)
Definition before_cleanup (p : pc) : option (nat * nat) :=
  match p with
  | PHeavy k i _ | PFile k i _ | PRelock k i _ _ => Some (k, i)
  | _ => None
  end.

(** A failure that reached the cleanup is that of a unit that fails. *)
Definition failure_justified (W0 : Workflow) (e : entry) : Prop :=
  match what e with
  | EvOpenFailed k i | EvRelock k i true =>
      unit_fails W0 k i = true
      /\ (k < length (unprocessedInputs_ W0))%nat
      /\ (i < length (graphSpecPaths_ W0))%nat
  | _ => True
  end.

Record Inv (W0 : Workflow) (s : system) : Prop := mkInv {
  inv_static : static (wf s) = static W0;
  inv_mutex : mutex_inv s;
  inv_good : failed (aggregate s) = false;
  inv_cursor : forall k,
    (cursor_of (wf s) k <= length (graphSpecPaths_ W0))%nat;
  inv_pc : forall w p, workers s !! w = Some p ->
                       pc_ok (wf s) p /\ pc_val W0 p;
  inv_claims : forall k,
    claims_of k (trace s) = seq 0 (cursor_of (wf s) k);
  inv_units :
    claimed (trace s)
    ≡ₚ finished (trace s) ++ abandoned (trace s) ++ inflight s;
  inv_open :
    claimed (trace s)
    ≡ₚ started (trace s) ++ abandoned (trace s) ++ open_failed (trace s)
       ++ at_open s;
  inv_stream :
    content (aggregate s)
    = ((if framed W0 then opening_token else "")
       +:+ String.concat "," (emitted_outputs (trace s)))%string;
  inv_first :
    firstPrinted_ (wf s) = negb (bool_decide (emitted (trace s) = []));
  inv_emit : is_empty (outputFilePath_ W0) = false ->
             finished (trace s) = emitted_units (trace s);
  inv_values : forall k i output,
    (k, i, output) ∈ emitted (trace s) -> output = unit_output W0 k i;
  inv_term : terminate_ (wf s) = existsb records_failure (trace s);
  inv_justified : Forall (failure_justified W0) (trace s);
  inv_pending : forall k i,
    (k, i) ∈ started (trace s) -> unit_fails W0 k i = true ->
    terminate_ (wf s) = true
    \/ exists w p, workers s !! w = Some p /\ before_cleanup p = Some (k, i);
  inv_abandoned : abandoned (trace s) <> [] -> terminate_ (wf s) = true;
  inv_lock : Forall lock_ok (trace s);
  inv_groups : forall w p k,
    workers s !! w = Some p -> (k < group_of (wf s) p)%nat ->
    (k < length (unprocessedInputs_ W0))%nat ->
    cursor_of (wf s) k = length (graphSpecPaths_ W0)
    \/ terminate_ (wf s) = true
}.

(** The work that remains, for termination: each claim uses up one path
    of one group, and between claims a worker only moves forward.  [K] is
    the number of groups. *)
Definition rank (K : nat) (p : pc) : nat :=
  match p with
  | PDone => 0
  | PFor k => 8 * (S K - k) + 2
  | PWhile k => 8 * (S K - k) + 1
  | POpen k _ => 8 * (S K - k) + 7
  | PHeavy k _ _ => 8 * (S K - k) + 6
  | PFile k _ _ => 8 * (S K - k) + 5
  | PRelock k _ _ _ => 8 * (S K - k) + 4
  | PEmit k _ _ => 8 * (S K - k) + 3
  end.

Definition remaining (W : Workflow) : nat :=
  sum_list ((fun input =>
               length (graphSpecPaths_ W) - unprocessedGraphs_ input)%nat
              <$> unprocessedInputs_ W).

Definition measure (s : system) : nat :=
  (8 * remaining (wf s)
   + sum_list (rank (length (unprocessedInputs_ (wf s))) <$> workers s))%nat.

(** *** Notions used in the statements *)

(** The clipped length summed over the segments of a mapping. *)
Definition sum_clipped (l : list Alignment) : Z :=
  foldr (fun aln acc => numClipped aln + acc) 0 l.

(** The mapping a filter decodes from a read. *)
Definition mapping_of (self : BadAlign) (r : Read) : GraphAlignment :=
  decodeGraphAlignment (default 0 (graph_pos r))
                       (default ""%string (graph_cigar r)) (graph_ self).

(** Aligned length: query length minus the clipped length summed over
    the decoded segments. *)
Definition aligned_length (mapping : GraphAlignment) : Z :=
  queryLength mapping - sum_clipped (alignments mapping).

(** A decoded mapping is well formed when its clipped bases are part of
    its query, and the query length is that of a [uint32_t]. *)
Definition mapping_wf (mapping : GraphAlignment) : Prop :=
  Forall (fun aln => 0 <= numClipped aln) (alignments mapping)
  /\ sum_clipped (alignments mapping) <= queryLength mapping
  /\ queryLength mapping < 2 ^ 32.

(** The paths an aligner is configured with. *)
Definition configured_paths (self : KlibAligner) : list Path :=
  match impl_ self with Some (_, ps) => ps | None => [] end.

(** The read after a mapped selection. *)
Definition read_mapped_to (read : Read) (strand : Strand) (c : Candidate)
  (unique : bool) : Read :=
  {| bases := bases read; quality := quality read;
     graph_pos := Some (cand_pos c); graph_cigar := Some (cand_cigar c);
     graph_alignment_score := Some (cand_score c);
     is_graph_reverse_strand :=
       match strand with Forward => false | Reverse => true end;
     is_graph_alignment_unique := unique;
     graph_mapped := true |}.

(** The value [processGraph] stores under "bam". *)
Definition bam_member (inputPaths : list string) : JsonValue :=
  match inputPaths with
  | [inputPath] => JString inputPath
  | _ => JArray (JString <$> inputPaths)
  end.

(** What ends up in a per-unit file. *)
Definition file_content (W : Workflow) (output : string) : string :=
  if gzipOutput_ W then gzip_compress output else output.



(** The lock discipline as the specification has it. *)
Definition lock_discipline_spec : Prop :=
  forall (W : Workflow) (fs : gmap string string) (s0 : system)
         (sched : list nat),
    is_fresh W = true -> run_start W fs = Ok s0 ->
    Forall lock_ok_spec (trace (exec sched s0)).

(** *** Notions used in the further properties *)

(** The sign of a double, as far as comparisons see it: [sign_clear]
    holds of NaN, the zeros and what is positive, [sign_set] of NaN, the
    zeros and what is negative. *)
Definition sign_clear (x : double) : bool :=
  match x with
  | S754_finite s _ _ | S754_infinity s => negb s
  | _ => true
  end.

Definition sign_set (x : double) : bool :=
  match x with
  | S754_finite s _ _ | S754_infinity s => s
  | _ => true
  end.

(** The groups that the constructor makes of separately processed read
    sources. *)
Definition separate_groups (inputPaths inputIndexPaths : list string)
  : list Input :=
  zip_with (fun inputPath inputIndexPath =>
              mkInput [inputPath] [inputIndexPath] 0%nat)
           inputPaths inputIndexPaths.

(** The number of steps that a schedule makes the workers take: a worker
    that is scheduled while it waits for the mutex, or after it has
    returned, takes none. *)
Fixpoint moves (sched : list nat) (s : system) : nat :=
  match sched with
  | [] => 0
  | w :: sched' =>
      match step w s with
      | Some s' => S (moves sched' s')
      | None => moves sched' s
      end
  end.





(** The units in the order in which a single worker claims them: the
    groups before group [k] with every graph-specification path, then
    the first [c] paths of group [k]. *)
Definition units_before (W : Workflow) (k c : nat) : list (nat * nat) :=
  (k' ← seq 0 k;
   (fun i => (k', i)) <$> seq 0 (length (graphSpecPaths_ W)))
  ++ ((fun i => (k, i)) <$> seq 0 c).

(** A pool of one worker, as long as the flag is not set: the units are
    claimed in order and each is finished before the next is claimed. *)
Definition single_inv (W : Workflow) (s : system) : Prop :=
  terminate_ (wf s) = false ->
  exists p,
    workers s = [p]
    /\ (group_of (wf s) p <= length (unprocessedInputs_ W))%nat
    /\ claimed (trace s)
       = units_before W (group_of (wf s) p)
           (cursor_of (wf s) (group_of (wf s) p))
    /\ (forall k, (group_of (wf s) p < k)%nat -> cursor_of (wf s) k = 0%nat)
    /\ claimed (trace s) = finished (trace s) ++ option_list (unit_of p).

End Model.

(** * Basic statistics (basics.hh)

    The function templates of [statistics::basics], instantiated for
    containers of a signed integer type: the values are [Z],
    [static_cast<double>] is the conversion to [double], and [std::sort]
    is the sorted rearrangement, which for integers does not depend on
    the sorting algorithm.  A call whose behaviour is undefined or whose
    assertion fails returns [None]. *)

Module DoubleOps.

Definition add : double -> double -> double :=
  SFadd Double.prec Double.emax.
Definition sub : double -> double -> double :=
  SFsub Double.prec Double.emax.
Definition div : double -> double -> double :=
  SFdiv Double.prec Double.emax.

(** A number: neither an infinity nor NaN. *)
Definition is_number (x : double) : bool :=
  match x with
  | S754_zero _ | S754_finite _ _ _ => true
  | _ => false
  end.

End DoubleOps.

Section Basics.

(** [pow] of <cmath>: the C++ standard does not fix its rounding. *)
Variable pow : double -> double -> double.

Definition sort (nums : list Z) : list Z := merge_sort Z.le nums.

(** [median]: [std::next(cbegin, size / 2 - 1)] on an empty container
    steps out of the range, [size] being unsigned. *)
Definition median (nums : list Z) : option double :=
  if bool_decide (length nums = 1%nat) then Double.of_Z <$> head nums
  else
    let nums_copy := sort nums in
    let size := length nums_copy in
    if bool_decide (size `mod` 2 ≠ 0)%nat then
      Double.of_Z <$> nums_copy !! (size / 2)%nat
    else if bool_decide (size = 0%nat) then None
    else
      match nums_copy !! (size / 2 - 1)%nat, nums_copy !! (size / 2)%nat with
      | Some lower, Some upper =>
          let m := Double.of_Z lower in
          let m := DoubleOps.add m (Double.of_Z upper) in
          Some (DoubleOps.div m (Double.of_Z 2))
      | _, _ => None
      end.

(** [mean]: [std::accumulate] from [0.0], divided by the size. *)
Definition mean (nums : list Z) : double :=
  DoubleOps.div
    (fold_left (fun acc x => DoubleOps.add acc (Double.of_Z x)) nums
               Double.zero)
    (Double.of_Z (Z.of_nat (length nums))).

(** [var]: the divisor [nums.size() - 1] is computed in [size_t]. *)
Definition var (nums : list Z) : double :=
  let n_mean := mean nums in
  let var :=
    fold_left
      (fun var x =>
         DoubleOps.add var
           (pow (DoubleOps.sub (Double.of_Z x) n_mean) (Double.of_Z 2)))
      nums Double.zero in
  DoubleOps.div var (Double.of_Z (wrap64 (Z.of_nat (length nums) - 1))).

(** The sum of the elements, as an integer. *)
Definition total (nums : list Z) : Z := foldr Z.add 0 nums.

(** [*std::min_element(cbegin, cend)]: the first smallest element;
    dereferencing the end iterator of an empty container is undefined. *)
Definition min_element (nums : list Z) : option Z :=
  match nums with
  | [] => None
  | first :: rest =>
      Some (fold_left (fun smallest x => if x <? smallest then x else smallest)
                      rest first)
  end.

(** [std::find(it, end, value) - it]: the distance to the first element
    equal to [value], or to the end. *)
Fixpoint find (range : list Z) (value : Z) : nat :=
  match range with
  | [] => 0%nat
  | x :: rest => if x =? value then 0%nat else S (find rest value)
  end.

(** The loop [while ((it = std::find(it, nums.end(), min)) != nums.end())]
    of [min_element_indices], the iterator [it] being an index into
    [nums]; every turn moves [it] forward, so [fuel] turns are enough
    when [fuel] exceeds the size.  The index is cast to [unsigned]. *)
Fixpoint find_all (fuel : nat) (nums : list Z) (min : Z) (it : nat)
  (indices : list Z) : list Z :=
  match fuel with
  | O => indices
  | S fuel' =>
      let it := (it + find (drop it nums) min)%nat in
      if bool_decide (it = length nums) then indices
      else find_all fuel' nums min (S it)
                    (indices ++ [wrap32 (Z.of_nat it)])
  end.

(** [min_element_indices]; the assertion is that the result is not
    empty. *)
Definition min_element_indices (nums : list Z) : option (list Z) :=
  match min_element nums with
  | None => None
  | Some min =>
      let indices := find_all (S (length nums)) nums min 0 [] in
      if bool_decide (indices = []) then None else Some indices
  end.

End Basics.

(** * An example configuration

    Small stand-ins for the collaborators, to run the model on concrete
    inputs: a graph-CIGAR of one letter per read base, [S] for a clipped
    base; an aligner that maps a sequence to the path that spells it; a
    parameter file that fails to load when it is called bad.json; POSIX
    paths; and a file system in which nothing below /ro can be opened. *)

Fixpoint demo_clipped (cigar : string) : Z :=
  match cigar with
  | EmptyString => 0
  | String c rest =>
      (if bool_decide (c = "S"%char) then 1 else 0) + demo_clipped rest
  end.

Definition demo_decode (pos : Z) (cigar : string) (g : unit)
  : GraphAlignment :=
  {| alignments := [mkAlignment (demo_clipped cigar)];
     queryLength := Z.of_nat (String.length cigar) |}.

Definition demo_klibAlign (path sequence : string) : option Candidate :=
  if bool_decide (path = sequence) then
    Some {| cand_score := Z.of_nat (String.length sequence);
            cand_pos := 0; cand_cigar := sequence |}
  else None.

(** The part of a path after its last slash. *)
Fixpoint demo_filename_from (path acc : string) : string :=
  match path with
  | EmptyString => acc
  | String c rest =>
      if bool_decide (c = "/"%char) then demo_filename_from rest ""
      else demo_filename_from rest (acc +:+ String c "")
  end.

Definition demo_writeJson (j : JsonValue) : string :=
  match json_get "bam" j with
  | Some (JString p) => "{bam:" +:+ p +:+ "}"
  | Some (JArray l) =>
      "{bam:["
      +:+ String.concat ","
            ((fun v => match v with JString p => p | _ => ""%string end)
               <$> l)
      +:+ "]}"
  | _ => "{}"
  end.

Definition demo : Collaborators := {|
  Graph := unit;
  Path := string;
  Parameters := nat;
  decodeGraphAlignment := demo_decode;
  klibAlign := demo_klibAlign;
  reverseComplement := String.rev;
  BamReader_opens := fun bamPath _ _ => negb (is_empty bamPath);
  Parameters_load := fun parameters graphSpecPath _ _ =>
    if bool_decide (graphSpecPath = "bad.json"%string) then None
    else Some parameters;
  Parameters_threads := fun parameters => parameters;
  extractReads := fun _ _ allReads => Some allReads;
  alignAndDisambiguate := fun _ _ => Some (JObject ∅);
  writeJson := demo_writeJson;
  path_filename := fun path => demo_filename_from path "";
  path_append := fun folder name => folder +:+ "/" +:+ name;
  file_opens := fun path => negb (String.prefix "/ro/" path);
  strerror_errno := "Read-only file system";
  gzip_compress := fun data => "gzip(" +:+ data +:+ ")"
|}.

(** A filter with the threshold 0.8, and reads of five bases of which
    one and two are clipped. *)
Definition demo_filter : @BadAlign demo :=
  {| graph_ := (tt : @Graph demo); bad_align_frac_ := Double.d0_8 |}.

Definition demo_read (cigar : string) : Read :=
  {| bases := "ACGTA"; quality := "IIIII"; graph_pos := Some 0;
     graph_cigar := Some cigar; graph_alignment_score := None;
     is_graph_reverse_strand := false; is_graph_alignment_unique := false;
     graph_mapped := true |}.

(** An aligner on two paths; the read below maps to the second path in
    reverse orientation only. *)
Definition demo_aligner : @KlibAligner demo :=
  {| attempted_ := 0; mapped_ := 0;
     impl_ := Some ((tt, ["ACGTA"%string; "TTGCA"%string])
                    : @Graph demo * list (@Path demo)) |}.

Definition demo_reverse_read : Read :=
  {| bases := "ACGTT"; quality := "IIIII"; graph_pos := None;
     graph_cigar := None; graph_alignment_score := None;
     is_graph_reverse_strand := false; is_graph_alignment_unique := false;
     graph_mapped := false |}.

(** Workflows: one group with two graphs; two read sources processed
    separately against one graph; one graph with a per-unit output folder;
    three graphs of which the first fails to load; and a per-unit output
    folder that cannot be written. *)
Definition demo_workflow (jointInputs : bool)
  (inputPaths graph_spec_paths : list string) (output_folder_path : string)
  (threads : nat) : option (@Workflow demo) :=
  Workflow_new (H := demo) jointInputs inputPaths
    ((fun p => p +:+ ".bai") <$> inputPaths) graph_spec_paths "-"
    output_folder_path false (threads : @Parameters demo) "ref.fa" "".

Definition demo_joint : @Workflow demo :=
  {| graphSpecPaths_ := ["g1.json"; "g2.json"]%string;
     outputFilePath_ := "-"; outputFolderPath_ := ""; gzipOutput_ := false;
     parameters_ := (2%nat : @Parameters demo); referencePath_ := "ref.fa"; targetRegions_ := "";
     unprocessedInputs_ := [mkInput ["a.bam"%string] ["a.bam.bai"%string] 0];
     mutex_ := None; firstPrinted_ := false; terminate_ := false |}.

Definition demo_separate : @Workflow demo :=
  {| graphSpecPaths_ := ["g1.json"%string];
     outputFilePath_ := "-"; outputFolderPath_ := ""; gzipOutput_ := false;
     parameters_ := (1%nat : @Parameters demo); referencePath_ := "ref.fa"; targetRegions_ := "";
     unprocessedInputs_ := [mkInput ["a.bam"%string] ["a.bam.bai"%string] 0;
                            mkInput ["b.bam"%string] ["b.bam.bai"%string] 0];
     mutex_ := None; firstPrinted_ := false; terminate_ := false |}.

Definition demo_folder : @Workflow demo :=
  {| graphSpecPaths_ := ["graphs/g1.json"%string];
     outputFilePath_ := "-"; outputFolderPath_ := "out";
     gzipOutput_ := false;
     parameters_ := (1%nat : @Parameters demo); referencePath_ := "ref.fa"; targetRegions_ := "";
     unprocessedInputs_ := [mkInput ["a.bam"%string] ["a.bam.bai"%string] 0];
     mutex_ := None; firstPrinted_ := false; terminate_ := false |}.


Definition demo_readonly : @Workflow demo :=
  {| graphSpecPaths_ := ["graphs/g1.json"%string];
     outputFilePath_ := "-"; outputFolderPath_ := "/ro";
     gzipOutput_ := true;
     parameters_ := (1%nat : @Parameters demo); referencePath_ := "ref.fa";
     targetRegions_ := "";
     unprocessedInputs_ := [mkInput ["a.bam"%string] ["a.bam.bai"%string] 0];
     mutex_ := None; firstPrinted_ := false; terminate_ := false |}.

(** The state in which the pool of a workflow is launched. *)
Definition demo_start (W : @Workflow demo) : @system demo :=
  match run_start W ∅ with
  | Ok s0 => s0
  | Error _ => mkSystem W good_stream ∅ [] []
  end.

(** Worker 0 alone, then worker 1 alone. *)
Definition demo_sequential : list nat := replicate 30 0%nat ++ replicate 30 1%nat.

(** Worker 0 claims the first graph and starts on it, worker 1 claims
    and finishes the second, then worker 0 goes on. *)
Definition demo_interleaved : list nat :=
  [0; 0; 0; 1; 1; 1; 1; 1; 1; 1]%nat ++ replicate 30 1%nat
  ++ replicate 30 0%nat.

(** Filters whose threshold is NaN and one. *)
Definition demo_nan_filter : @BadAlign demo :=
  {| graph_ := (tt : @Graph demo); bad_align_frac_ := S754_nan |}.

Definition demo_strict_filter : @BadAlign demo :=
  {| graph_ := (tt : @Graph demo); bad_align_frac_ := Double.one |}.

(** A workflow without an aggregated output, and two read sources
    processed separately by one worker against two graphs. *)
Definition demo_quiet : @Workflow demo :=
  {| graphSpecPaths_ := ["graphs/g1.json"; "graphs/g2.json"]%string;
     outputFilePath_ := ""; outputFolderPath_ := "out";
     gzipOutput_ := true;
     parameters_ := (2%nat : @Parameters demo); referencePath_ := "ref.fa";
     targetRegions_ := "";
     unprocessedInputs_ := [mkInput ["a.bam"%string] ["a.bam.bai"%string] 0];
     mutex_ := None; firstPrinted_ := false; terminate_ := false |}.

Definition demo_grid : @Workflow demo :=
  {| graphSpecPaths_ := ["g1.json"; "g2.json"]%string;
     outputFilePath_ := "-"; outputFolderPath_ := ""; gzipOutput_ := false;
     parameters_ := (1%nat : @Parameters demo); referencePath_ := "ref.fa";
     targetRegions_ := "";
     unprocessedInputs_ := [mkInput ["a.bam"%string] ["a.bam.bai"%string] 0;
                            mkInput ["b.bam"%string] ["b.bam.bai"%string] 0];
     mutex_ := None; firstPrinted_ := false; terminate_ := false |}.

(** * Properties *)

Section Properties.

Context `{Collaborators}.

Lemma string_app_empty_r (s : string) : (s +:+ "")%string = s.
Proof.
  induction s as [|a s IH]; [reflexivity|].
  change (String a (s +:+ "") = String a s). by rewrite IH.
Qed.

Lemma string_app_assoc (s1 s2 s3 : string) :
  (s1 +:+ (s2 +:+ s3))%string = ((s1 +:+ s2) +:+ s3)%string.
Proof.
  induction s1 as [|a s1 IH]; [reflexivity|].
  change (String a (s1 +:+ (s2 +:+ s3)) = String a ((s1 +:+ s2) +:+ s3)).
  by rewrite IH.
Qed.

(** ** Doubles that hold integers *)

Lemma digits2_iter (p k : positive) :
  digits2_pos (Pos.iter xO p k) = (digits2_pos p + k)%positive.
Proof.
  induction k as [|k IH] using Pos.peano_ind.
  - simpl. lia.
  - rewrite Pos.iter_succ. simpl. rewrite IH. lia.
Qed.

Lemma digits2_bounds (p : positive) :
  2 ^ (Z.pos (digits2_pos p) - 1) <= Z.pos p < 2 ^ Z.pos (digits2_pos p).
Proof.
  induction p as [p IH|p IH|]; simpl digits2_pos.
  - rewrite Pos2Z.inj_succ.
    replace (Z.succ (Z.pos (digits2_pos p)) - 1)
      with (Z.succ (Z.pos (digits2_pos p) - 1)) by lia.
    rewrite !Z.pow_succ_r by lia. lia.
  - rewrite Pos2Z.inj_succ.
    replace (Z.succ (Z.pos (digits2_pos p)) - 1)
      with (Z.succ (Z.pos (digits2_pos p) - 1)) by lia.
    rewrite !Z.pow_succ_r by lia. lia.
  - simpl. lia.
Qed.

Lemma iter_xO_value (p k : positive) :
  Z.pos (Pos.iter xO p k) = Z.pos p * 2 ^ Z.pos k.
Proof.
  induction k as [|k IH] using Pos.peano_ind.
  - simpl. lia.
  - rewrite Pos.iter_succ, Pos2Z.inj_xO, IH, Pos2Z.inj_succ.
    rewrite Z.pow_succ_r by lia. lia.
Qed.

Lemma mantissa53_digits (p : positive) :
  Z.pos p < 2 ^ 53 -> digits2_pos (Double.mantissa53 p) = 53%positive.
Proof.
  intros Hp. pose proof (digits2_bounds p) as [Hlo _].
  assert (Hd : Z.pos (digits2_pos p) <= 53).
  { destruct (Z_le_gt_dec (Z.pos (digits2_pos p)) 53) as [|Hgt]; [done|].
    assert (2 ^ 53 <= 2 ^ (Z.pos (digits2_pos p) - 1))
      by (apply Z.pow_le_mono_r; lia). lia. }
  unfold Double.mantissa53.
  destruct (53 - Z.pos (digits2_pos p)) as [|k|k] eqn:E; try lia.
  rewrite digits2_iter. lia.
Qed.

Lemma mantissa53_value (p : positive) :
  Z.pos (digits2_pos p) <= 53 ->
  Z.pos (Double.mantissa53 p) = Z.pos p * 2 ^ (53 - Z.pos (digits2_pos p)).
Proof.
  intros Hd. unfold Double.mantissa53.
  destruct (53 - Z.pos (digits2_pos p)) as [|k|k] eqn:E; try lia.
  apply iter_xO_value.
Qed.

Lemma of_Z_pos (p : positive) :
  Z.pos p < 2 ^ 53 ->
  Double.of_Z (Z.pos p)
  = S754_finite false (Double.mantissa53 p) (Z.pos (digits2_pos p) - 53).
Proof.
  intros Hp. pose proof (mantissa53_digits p Hp) as Hm.
  pose proof (digits2_bounds p) as [Hlo _].
  assert (Hd : Z.pos (digits2_pos p) <= 53).
  { destruct (Z_le_gt_dec (Z.pos (digits2_pos p)) 53) as [|Hgt]; [done|].
    assert (2 ^ 53 <= 2 ^ (Z.pos (digits2_pos p) - 1))
      by (apply Z.pow_le_mono_r; lia). lia. }
  unfold Double.of_Z, binary_normalize, binary_round.
  assert (Hfexp : fexp Double.prec Double.emax (Z.pos (digits2_pos p) + 0)
                  = Z.pos (digits2_pos p) - 53).
  { unfold fexp, emin, Double.prec, Double.emax. lia. }
  rewrite Hfexp.
  assert (Hshl : shl_align p 0 (Z.pos (digits2_pos p) - 53)
                 = (Double.mantissa53 p, Z.pos (digits2_pos p) - 53)).
  { unfold shl_align, Double.mantissa53.
    destruct (53 - Z.pos (digits2_pos p)) as [|k|k] eqn:E; try lia.
    - replace (Z.pos (digits2_pos p) - 53 - 0) with 0 by lia.
      f_equal. lia.
    - replace (Z.pos (digits2_pos p) - 53 - 0) with (Z.neg k) by lia.
      done. }
  rewrite Hshl.
  unfold binary_round_aux.
  assert (Hshr : shr_fexp Double.prec Double.emax (Z.pos (Double.mantissa53 p))
                   (Z.pos (digits2_pos p) - 53) loc_Exact
                 = ({| shr_m := Z.pos (Double.mantissa53 p); shr_r := false;
                       shr_s := false |}, Z.pos (digits2_pos p) - 53)).
  { unfold shr_fexp. simpl Zdigits2. rewrite Hm.
    replace (fexp Double.prec Double.emax
               (53 + (Z.pos (digits2_pos p) - 53))
             - (Z.pos (digits2_pos p) - 53)) with 0
      by (unfold fexp, emin, Double.prec, Double.emax; lia).
    done. }
  rewrite Hshr. simpl shr_m. simpl loc_of_shr_record.
  simpl round_nearest_even. rewrite Hshr. simpl shr_m.
  destruct (Z.pos (digits2_pos p) - 53 <=? Double.emax - Double.prec) eqn:E;
    [done|].
  apply Z.leb_gt in E. unfold Double.emax, Double.prec in E. lia.
Qed.

Lemma ltb_of_Z (a b : Z) :
  0 <= a < 2 ^ 53 -> 0 <= b < 2 ^ 53 ->
  Double.ltb (Double.of_Z a) (Double.of_Z b) = (a <? b).
Proof.
  intros Ha Hb.
  destruct a as [|p|p]; [| |lia]; destruct b as [|q|q]; try lia.
  - done.
  - rewrite of_Z_pos by lia. done.
  - rewrite of_Z_pos by lia. done.
  - rewrite !of_Z_pos by lia.
    pose proof (digits2_bounds p) as [Hplo Hphi].
    pose proof (digits2_bounds q) as [Hqlo Hqhi].
    assert (Hdp : Z.pos (digits2_pos p) <= 53).
    { destruct (Z_le_gt_dec (Z.pos (digits2_pos p)) 53) as [|Hgt]; [done|].
      assert (2 ^ 53 <= 2 ^ (Z.pos (digits2_pos p) - 1))
        by (apply Z.pow_le_mono_r; lia). lia. }
    assert (Hdq : Z.pos (digits2_pos q) <= 53).
    { destruct (Z_le_gt_dec (Z.pos (digits2_pos q)) 53) as [|Hgt]; [done|].
      assert (2 ^ 53 <= 2 ^ (Z.pos (digits2_pos q) - 1))
        by (apply Z.pow_le_mono_r; lia). lia. }
    unfold Double.ltb, SFltb, SFcompare.
    destruct (Z.compare_spec (Z.pos (digits2_pos p) - 53)
                             (Z.pos (digits2_pos q) - 53)) as [He|He|He].
    + change (Pos.compare_cont Eq (Double.mantissa53 p) (Double.mantissa53 q))
        with (Z.pos (Double.mantissa53 p) ?= Z.pos (Double.mantissa53 q)).
      assert (Hpow : 0 < 2 ^ (53 - Z.pos (digits2_pos p)))
        by (apply Z.pow_pos_nonneg; lia).
      assert (Hc : (Z.pos (Double.mantissa53 p) ?= Z.pos (Double.mantissa53 q))
                   = (Z.pos p ?= Z.pos q)).
      { rewrite !mantissa53_value by done.
        replace (Z.pos (digits2_pos q)) with (Z.pos (digits2_pos p)) by lia.
        destruct (Z.compare_spec (Z.pos p) (Z.pos q)) as [Hc|Hc|Hc].
        - apply Z.compare_eq_iff. by rewrite Hc.
        - apply Z.compare_lt_iff. by apply Z.mul_lt_mono_pos_r.
        - apply Z.compare_gt_iff. by apply Z.mul_lt_mono_pos_r. }
      rewrite Hc. unfold Z.ltb. by destruct (Z.pos p ?= Z.pos q).
    + symmetry. apply Z.ltb_lt.
      assert (2 ^ Z.pos (digits2_pos p) <= 2 ^ (Z.pos (digits2_pos q) - 1))
        by (apply Z.pow_le_mono_r; lia). lia.
    + symmetry. apply Z.ltb_ge.
      assert (2 ^ Z.pos (digits2_pos q) <= 2 ^ (Z.pos (digits2_pos p) - 1))
        by (apply Z.pow_le_mono_r; lia). lia.
Qed.

Lemma round_of_finite (m : positive) (e : Z) :
  e < 0 -> Z.pos m < 2 ^ 53 ->
  Double.round (S754_finite false m e) = Double.of_Z (Double.round_half_away m e)
  /\ 0 <= Double.round_half_away m e < 2 ^ 53.
Proof.
  intros He Hm. unfold Double.round_half_away. split.
  - unfold Double.round. rewrite (proj2 (Z.leb_gt 0 e)) by done.
    destruct ((Z.pos m + 2 ^ (- e - 1)) / 2 ^ (- e) =? 0) eqn:E.
    + apply Z.eqb_eq in E. by rewrite E.
    + done.
  - assert (H2 : 0 < 2 ^ (- e)) by (apply Z.pow_pos_nonneg; lia).
    assert (H3 : 2 ^ (- e) = 2 * 2 ^ (- e - 1)).
    { rewrite <- Z.pow_succ_r by lia. f_equal. lia. }
    split.
    + apply Z.div_pos; lia.
    + apply Z.div_lt_upper_bound; [done|]. nia.
Qed.

(** ** The bad-alignment filter *)


Lemma query_clipped_fold (l : list Alignment) (acc : Z) :
  Forall (fun aln => 0 <= numClipped aln) l ->
  0 <= acc ->
  acc + sum_clipped l < 2 ^ 64 ->
  fold_left (fun acc aln => wrap64 (acc + numClipped aln)) l acc
  = acc + sum_clipped l.
Proof.
  intros Hpos. revert acc.
  induction Hpos as [|aln l Haln Hl IH]; intros acc Hacc Hlt; simpl in *.
  - lia.
  - assert (Hsum : 0 <= sum_clipped l).
    { clear -Hl. induction Hl; simpl; lia. }
    rewrite IH.
    + unfold wrap64. rewrite Z.mod_small by lia. lia.
    + unfold wrap64. apply Z.mod_pos_bound. lia.
    + unfold wrap64. rewrite Z.mod_small by lia. lia.
Qed.

Lemma sum_clipped_nonneg (l : list Alignment) :
  Forall (fun aln => 0 <= numClipped aln) l -> 0 <= sum_clipped l.
Proof. induction 1; simpl; lia. Qed.




Lemma filterRead_unfold (self : BadAlign) (r : Read) :
  mapping_wf (mapping_of self r) ->
  filterRead self r =
  let is_bad :=
    Double.ltb (Double.of_Z (aligned_length (mapping_of self r)))
      (threshold_count (bad_align_frac_ self)
                       (queryLength (mapping_of self r))) in
  (is_bad, if is_bad then "bad_align"%string else ""%string).
Proof.
  intros (Hpos & Hle & Hlt).
  pose proof (sum_clipped_nonneg _ Hpos) as Hnn.
  unfold filterRead, query_clipped_of, threshold_count, aligned_length.
  fold (mapping_of self r).
  rewrite query_clipped_fold by (auto; lia).
  rewrite Z.add_0_l.
  unfold wrap64. rewrite Z.mod_small by lia.
  reflexivity.
Qed.

(** C1. The filter excludes a read, with reason "bad_align", exactly when
    its aligned length (query length minus the clipped length summed over
    the decoded segments) is less than round(threshold_fraction * query
    length), the product and the comparison being those of doubles; a
    read that passes is returned with the empty reason.  When the product
    is the positive double [m * 2^e] below [2^53], this is the comparison
    of integers between the aligned length and the product rounded to the
    nearest integer, halves away from zero; when the product is zero no
    read is excluded.  With the fraction 0.8 and query length 5 the
    threshold count is 4: aligned length 4 passes and aligned length 3 is
    excluded. *)
Theorem filterRead_excludes_iff_below_rounded_threshold
  (self : BadAlign) (r : Read) :
  mapping_wf (mapping_of self r) ->
  let mapping := mapping_of self r in
  let product :=
    Double.mul (bad_align_frac_ self) (Double.of_Z (queryLength mapping)) in
  let below :=
    Double.ltb (Double.of_Z (aligned_length mapping))
               (threshold_count (bad_align_frac_ self) (queryLength mapping)) in
  threshold_count (bad_align_frac_ self) (queryLength mapping)
  = Double.round product
  /\ (filterRead self r = (true, "bad_align"%string) <-> below = true)
  /\ (filterRead self r = (false, ""%string) <-> below = false)
  /\ (forall m e, product = S754_finite false m e -> e < 0 ->
                  Z.pos m < 2 ^ 53 ->
                  (filterRead self r = (true, "bad_align"%string)
                   <-> aligned_length mapping < Double.round_half_away m e))
  /\ (forall s, product = S754_zero s ->
                filterRead self r = (false, ""%string))
  /\ threshold_count Double.d0_8 5 = Double.of_Z 4
  /\ (bad_align_frac_ self = Double.d0_8 -> queryLength mapping = 5 ->
      (aligned_length mapping = 4 -> filterRead self r = (false, ""%string))
      /\ (aligned_length mapping = 3 ->
          filterRead self r = (true, "bad_align"%string))).
Proof.
  intros Hwf mapping product below.
  pose proof (filterRead_unfold self r Hwf) as Heq. cbv zeta in Heq.
  fold mapping in Heq. fold below in Heq.
  assert (Hrange : 0 <= aligned_length mapping < 2 ^ 53).
  { destruct Hwf as (Hpos & Hle & Hlt).
    pose proof (sum_clipped_nonneg _ Hpos). unfold aligned_length, mapping.
    lia. }
  split; [done|]. split; [|split; [|split; [|split; [|split]]]].
  - rewrite Heq. destruct below; split; intros E; congruence.
  - rewrite Heq. destruct below; split; intros E; congruence.
  - intros m e Hprod He Hm.
    destruct (round_of_finite m e He Hm) as [Hround Hq].
    assert (Hb : below = (aligned_length mapping <? Double.round_half_away m e)).
    { unfold below, threshold_count. fold product.
      rewrite Hprod, Hround. by apply ltb_of_Z. }
    rewrite Heq, Hb.
    destruct (Z.ltb_spec (aligned_length mapping)
                         (Double.round_half_away m e)); split; intros E;
      first [done | lia | congruence].
  - intros s Hprod. rewrite Heq.
    assert (Hb : below = false); [|by rewrite Hb].
    unfold below, threshold_count. fold product. rewrite Hprod. simpl.
    destruct (aligned_length mapping) as [|p|p] eqn:E; [done| |lia].
    rewrite of_Z_pos by lia. done.
  - vm_compute. reflexivity.
  - intros Hfrac Hlen. rewrite Heq. unfold below. rewrite Hfrac, Hlen.
    split; intros ->; vm_compute; reflexivity.
Qed.

(** C2 (amended). Construction checks the graph handle and nothing else:
    it fails exactly when the handle is null, and with a non-null handle
    it stores whatever threshold fraction it is given. *)
Theorem BadAlign_new_checks_graph_only
  (graph : pointer Graph) (bad_align_frac : double) :
  (BadAlign_new graph bad_align_frac = None <-> graph = None)
  /\ (forall g, graph = Some g ->
      BadAlign_new graph bad_align_frac
      = Some {| graph_ := g; bad_align_frac_ := bad_align_frac |}).
Proof.
  split.
  - destruct graph; simpl; split; congruence.
  - intros g ->. reflexivity.
Qed.

(** ** The aligner's selection policy *)

Lemma betterCandidate_some_l (a : Candidate) (later : option Candidate) :
  exists b, betterCandidate (Some a) later = Some b
            /\ cand_score a <= cand_score b.
Proof.
  destruct later as [c|]; simpl.
  - destruct (cand_score a <? cand_score c) eqn:E.
    + exists c. split; [done|]. apply Z.ltb_lt in E. lia.
    + exists a. split; [done|]. lia.
  - exists a. split; [done|]. lia.
Qed.

Lemma betterCandidate_some_r (earlier : option Candidate) (c : Candidate) :
  exists b, betterCandidate earlier (Some c) = Some b
            /\ cand_score c <= cand_score b.
Proof.
  destruct earlier as [a|]; simpl.
  - destruct (cand_score a <? cand_score c) eqn:E.
    + exists c. split; [done|]. lia.
    + exists a. split; [done|]. apply Z.ltb_ge in E. lia.
  - exists c. split; [done|]. lia.
Qed.

Lemma betterCandidate_cases (earlier later : option Candidate) :
  betterCandidate earlier later = earlier
  \/ betterCandidate earlier later = later.
Proof.
  destruct earlier as [a|], later as [c|]; simpl; auto.
  destruct (cand_score a <? cand_score c); auto.
Qed.

(** The candidate of an orientation dominates what every path gives. *)
Lemma bestOverPaths_dominates (paths : list Path) (sequence : string)
  (p : Path) (c : Candidate) :
  p ∈ paths -> klibAlign p sequence = Some c ->
  exists b, bestOverPaths paths sequence = Some b
            /\ cand_score c <= cand_score b.
Proof.
  induction paths as [|q paths IH]; intros Hin Hc.
  - by apply elem_of_nil in Hin.
  - apply elem_of_cons in Hin as [->|Hin]; simpl.
    + rewrite Hc. apply betterCandidate_some_l.
    + destruct (IH Hin Hc) as (b & Hb & Hle). rewrite Hb.
      destruct (betterCandidate_some_r (klibAlign q sequence) b)
        as (b' & Hb' & Hle').
      exists b'. split; [done|]. lia.
Qed.

(** The candidate of an orientation is the alignment to one of the paths. *)
Lemma bestOverPaths_from_path (paths : list Path) (sequence : string)
  (b : Candidate) :
  bestOverPaths paths sequence = Some b ->
  exists p, p ∈ paths /\ klibAlign p sequence = Some b.
Proof.
  induction paths as [|q paths IH]; simpl; intros Hb; [done|].
  destruct (betterCandidate_cases (klibAlign q sequence)
                                  (bestOverPaths paths sequence)) as [E|E];
    rewrite E in Hb.
  - exists q. split; [apply elem_of_cons; auto | done].
  - destruct (IH Hb) as (p & Hp & Hk).
    exists p. split; [apply elem_of_cons; auto | done].
Qed.



(** C7. [alignRead] aligns the forward and the reverse-complement
    orientation against every configured path (each orientation's
    candidate is the alignment to one of the paths and scores at least as
    high as the alignment to any of them), and selects: the only mapped
    candidate when one orientation maps, the higher-scoring candidate when
    both map, the forward candidate when the scores are equal; when
    neither maps the read is marked unmapped and its alignment fields are
    unset. *)
Theorem alignRead_selection (self : KlibAligner) (read : Read) :
  let paths := configured_paths self in
  let fwd := bestOverPaths paths (bases read) in
  let rev := bestOverPaths paths (reverseComplement (bases read)) in
  let read' := snd (alignRead self read) in
  (forall sequence,
      sequence = bases read \/ sequence = reverseComplement (bases read) ->
      (forall p c, p ∈ paths -> klibAlign p sequence = Some c ->
                   exists b, bestOverPaths paths sequence = Some b
                             /\ cand_score c <= cand_score b)
      /\ (forall b, bestOverPaths paths sequence = Some b ->
                    exists p, p ∈ paths /\ klibAlign p sequence = Some b))
  /\ (forall f, fwd = Some f -> rev = None ->
                read' = read_mapped_to read Forward f true)
  /\ (forall r, fwd = None -> rev = Some r ->
                read' = read_mapped_to read Reverse r true)
  /\ (forall f r, fwd = Some f -> rev = Some r ->
                  cand_score r < cand_score f ->
                  read' = read_mapped_to read Forward f false)
  /\ (forall f r, fwd = Some f -> rev = Some r ->
                  cand_score f < cand_score r ->
                  read' = read_mapped_to read Reverse r false)
  /\ (forall f r, fwd = Some f -> rev = Some r ->
                  cand_score f = cand_score r ->
                  read' = read_mapped_to read Forward f false)
  /\ (fwd = None -> rev = None ->
      graph_mapped read' = false /\ graph_pos read' = None
      /\ graph_cigar read' = None /\ graph_alignment_score read' = None).
Proof.
  intros paths fwd rev read'.
  assert (Hsel : read' =
            match selectOrientation fwd rev with
            | Some (strand, c, unique) => read_mapped_to read strand c unique
            | None => snd (alignRead self read)
            end).
  { unfold read', alignRead. fold (configured_paths self). fold paths.
    fold fwd. fold rev.
    destruct (selectOrientation fwd rev) as [[[strand c] unique]|]; done. }
  split; [|split; [|split; [|split; [|split; [|split]]]]].
  - intros sequence _. split.
    + intros p c. apply bestOverPaths_dominates.
    + intros b. apply bestOverPaths_from_path.
  - intros f Hf Hr. rewrite Hsel, Hf, Hr. done.
  - intros r Hf Hr. rewrite Hsel, Hf, Hr. done.
  - intros f r Hf Hr Hlt. rewrite Hsel, Hf, Hr. simpl.
    destruct (cand_score f <? cand_score r) eqn:E; [|done].
    apply Z.ltb_lt in E. lia.
  - intros f r Hf Hr Hlt. rewrite Hsel, Hf, Hr. simpl.
    destruct (cand_score f <? cand_score r) eqn:E; [done|].
    apply Z.ltb_ge in E. lia.
  - intros f r Hf Hr Heq. rewrite Hsel, Hf, Hr. simpl.
    destruct (cand_score f <? cand_score r) eqn:E; [|done].
    apply Z.ltb_lt in E. lia.
  - intros Hf Hr. unfold read', alignRead. fold (configured_paths self).
    fold paths. fold fwd. fold rev. rewrite Hf, Hr. done.
Qed.

(** ** processGraph *)

Lemma foldlM_appendBam (inputPaths : list string)
  (m : gmap string JsonValue) (acc : list JsonValue) :
  foldlM appendBam (JObject (<[ "bam"%string := JArray acc ]> m)) inputPaths
  = Some (JObject (<[ "bam"%string :=
                        JArray (acc ++ (JString <$> inputPaths)) ]> m)).
Proof.
  revert acc. induction inputPaths as [|p ps IH]; intros acc; simpl.
  - by rewrite app_nil_r.
  - unfold appendBam at 1. simpl. rewrite lookup_insert_eq. simpl.
    rewrite insert_insert_eq. rewrite IH.
    by rewrite <- app_assoc.
Qed.


Lemma setBam_spec (inputPaths : list string) (outputJson : JsonValue) :
  is_object_or_null outputJson = true ->
  exists m, setBam inputPaths outputJson
            = Some (JObject (<[ "bam"%string := bam_member inputPaths ]> m))
            /\ (forall key, json_get key outputJson = m !! key).
Proof.
  intros Hobj.
  assert (exists m, (forall v, json_set "bam" v outputJson
                               = Some (JObject (<[ "bam"%string := v ]> m)))
                    /\ (forall key, json_get key outputJson = m !! key))
    as (m & Hset & Hget).
  { destruct outputJson as [| | |m]; try discriminate.
    - exists ∅. split; [|done]. intros v. simpl. by rewrite insert_empty.
    - exists m. done. }
  exists m. split; [|done]. unfold setBam.
  case_bool_decide as Hlen.
  - destruct inputPaths as [|p [|q ps]]; try discriminate. simpl.
    apply Hset.
  - rewrite Hset. rewrite foldlM_appendBam. simpl.
    destruct inputPaths as [|p [|q ps]]; simpl in *; done.
Qed.

(** C9. When read extraction and disambiguation succeed, the serialized
    result is the Disambiguator's result with the member "bam" set to the
    single read-source path when the unit has exactly one, and to the
    list of all its read-source paths, in input order, otherwise; no
    other member changes. *)
Theorem processGraph_adds_bam (graphSpecPath : string)
  (parameters : Parameters) (inputPaths : list string)
  (readers : list BamReader) (allReads : list Read)
  (outputJson : JsonValue) :
  foldlM (fun allReads reader => extractReads reader parameters allReads)
         [] readers = Some allReads ->
  alignAndDisambiguate parameters allReads = Some outputJson ->
  is_object_or_null outputJson = true ->
  exists augmented,
    processGraph graphSpecPath parameters inputPaths readers
    = Some (writeJson augmented)
    /\ (forall inputPath, inputPaths = [inputPath] ->
        json_get "bam" augmented = Some (JString inputPath))
    /\ ((1 < length inputPaths)%nat ->
        json_get "bam" augmented = Some (JArray (JString <$> inputPaths)))
    /\ (forall key, key <> "bam"%string ->
        json_get key augmented = json_get key outputJson).
Proof.
  intros Hreads Hjson Hobj.
  destruct (setBam_spec inputPaths outputJson Hobj) as (m & Hset & Hget).
  exists (JObject (<[ "bam"%string := bam_member inputPaths ]> m)).
  split; [|split; [|split]].
  - unfold processGraph. rewrite Hreads, Hjson, Hset. done.
  - intros p ->. simpl. by rewrite lookup_insert_eq.
  - intros Hlen. simpl. rewrite lookup_insert_eq.
    destruct inputPaths as [|p [|q ps]]; simpl in *; try lia; done.
  - intros key Hkey. simpl. rewrite lookup_insert_ne by done.
    by rewrite Hget.
Qed.

(** ** makeOutputFile *)


Lemma makeOutputFile_opened (W : Workflow) (output graphSpecPath : string)
  (fs : gmap string string) :
  file_opens (outputPathFor W graphSpecPath) = true ->
  makeOutputFile W output graphSpecPath fs
  = Ok (<[ outputPathFor W graphSpecPath := file_content W output ]> fs).
Proof.
  intros Hopen. unfold makeOutputFile, dumpOutput, stream_write, file_content.
  rewrite Hopen. simpl. done.
Qed.

(** C10. The per-unit output file of a graph-specification path is the
    output directory joined with the path's filename component, followed
    by ".gz" exactly when gzip compression is on; paths with the same
    filename component therefore get the same file, the later write
    replacing the earlier; a file that fails to open is reported as an
    error that carries the path and the system's error text; and the
    worker loop writes the file when the output directory is not empty. *)
Theorem makeOutputFile_path_and_error (W : Workflow)
  (output graphSpecPath : string) (fs : gmap string string) :
  let outputPath := outputPathFor W graphSpecPath in
  outputPath
  = (path_append (outputFolderPath_ W) (path_filename graphSpecPath)
     +:+ (if gzipOutput_ W then ".gz" else ""))%string
  /\ (forall other output' fs',
        path_filename other = path_filename graphSpecPath ->
        outputPathFor W other = outputPath
        /\ (makeOutputFile W output graphSpecPath fs = Ok fs' ->
            file_opens outputPath = true ->
            exists fs'', makeOutputFile W output' other fs' = Ok fs''
                         /\ fs'' !! outputPath = Some (file_content W output')))
  /\ (file_opens outputPath = false ->
      makeOutputFile W output graphSpecPath fs
      = Error ("ERROR: Failed to open output file '" +:+ outputPath
               +:+ "'. Error: '" +:+ strerror_errno +:+ "'"))
  /\ (file_opens outputPath = true ->
      makeOutputFile W output graphSpecPath fs
      = Ok (<[ outputPath := file_content W output ]> fs))
  /\ (forall s w k i,
        wf s = W -> files s = fs ->
        workers s !! w = Some (PFile k i output) ->
        graphSpecPaths_ W !! i = Some graphSpecPath ->
        is_empty (outputFolderPath_ W) = false ->
        file_opens outputPath = true ->
        exists s', step w s = Some s'
                   /\ files s' = <[ outputPath := file_content W output ]> fs).
Proof.
  intros outputPath.
  assert (Hsame : forall other,
             path_filename other = path_filename graphSpecPath ->
             outputPathFor W other = outputPath).
  { intros other Hfn. unfold outputPath, outputPathFor. by rewrite Hfn. }
  split; [|split; [|split; [|split]]].
  - unfold outputPath, outputPathFor.
    destruct (gzipOutput_ W); [done|]. by rewrite string_app_empty_r.
  - intros other output' fs' Hfn. split; [by apply Hsame|].
    intros _ Hopen. eexists. split.
    + apply makeOutputFile_opened. by rewrite Hsame.
    + rewrite Hsame by done. apply lookup_insert_eq.
  - intros Hopen. unfold makeOutputFile. fold outputPath. by rewrite Hopen.
  - apply makeOutputFile_opened.
  - intros s w k i HW Hfs Hpc Hg Hfolder Hopen. subst W fs.
    unfold step. rewrite Hpc, Hg, Hfolder.
    rewrite makeOutputFile_opened by done.
    eexists. split; [done|]. done.
Qed.

(** ** The worker pool *)

(** *** Lists of workers *)

Lemma omap_insert_same {A B : Type} (f : A -> option B) (l : list A)
  (i : nat) (x y : A) :
  l !! i = Some x -> f y = f x -> omap f (<[ i := y ]> l) = omap f l.
Proof.
  intros Hx Hf.
  rewrite insert_take_drop by (by eapply lookup_lt_Some).
  rewrite <- (take_drop_middle l i x Hx) at 3.
  rewrite !omap_app. simpl. by rewrite Hf.
Qed.

Lemma omap_insert_add {A B : Type} (f : A -> option B) (l : list A)
  (i : nat) (x y : A) (u : B) :
  l !! i = Some x -> f x = None -> f y = Some u ->
  omap f (<[ i := y ]> l) ≡ₚ u :: omap f l.
Proof.
  intros Hx Hfx Hfy.
  rewrite insert_take_drop by (by eapply lookup_lt_Some).
  rewrite <- (take_drop_middle l i x Hx) at 3.
  rewrite !omap_app. simpl. rewrite Hfx, Hfy.
  by rewrite Permutation_middle.
Qed.

Lemma omap_insert_remove {A B : Type} (f : A -> option B) (l : list A)
  (i : nat) (x y : A) (u : B) :
  l !! i = Some x -> f x = Some u -> f y = None ->
  omap f l ≡ₚ u :: omap f (<[ i := y ]> l).
Proof.
  intros Hx Hfx Hfy.
  rewrite insert_take_drop by (by eapply lookup_lt_Some).
  rewrite <- (take_drop_middle l i x Hx) at 1.
  rewrite !omap_app. simpl. rewrite Hfx, Hfy.
  by rewrite Permutation_middle.
Qed.

Lemma omap_snoc {A B : Type} (f : A -> option B) (l : list A) (x : A) :
  omap f (l ++ [x]) = omap f l ++ option_list (f x).
Proof. rewrite omap_app. simpl. by destruct (f x). Qed.

(** *** Schedules *)

Lemma exec_snoc (sched : list nat) (w : nat) (s : system) :
  exec (sched ++ [w]) s = sched_step (exec sched s) w.
Proof. unfold exec. by rewrite fold_left_app. Qed.


Lemma exec_invariant (P : system -> Prop) (s0 : system) :
  P s0 ->
  (forall s w s', P s -> step w s = Some s' -> P s') ->
  forall sched, P (exec sched s0).
Proof.
  intros H0 Hstep sched. induction sched as [|w sched IH] using rev_ind.
  - done.
  - rewrite exec_snoc. unfold sched_step.
    destruct (step w (exec sched s0)) eqn:E; simpl; eauto.
Qed.

(** The leaves of [step]: one goal per way a worker can move. *)
Ltac step_cases Hstep :=
  unfold step in Hstep;
  match type of Hstep with
  | context [workers ?s !! ?w] =>
      destruct (workers s !! w) eqn:Hpc; [|discriminate Hstep];
      pose proof (lookup_lt_Some _ _ _ Hpc) as Hlt
  end;
  repeat match type of Hstep with
         | context [match ?x with _ => _ end] =>
             destruct x eqn:?; try discriminate Hstep
         end;
  injection Hstep as <-.

(** *** What no step changes *)

Lemma static_step (s : system) (w : nat) (s' : system) :
  step w s = Some s' -> static (wf s') = static (wf s).
Proof.
  intros Hstep. step_cases Hstep; try reflexivity.
  unfold static. simpl. f_equal.
  rewrite list_fmap_insert. simpl.
  apply list_insert_id. rewrite list_lookup_fmap.
  match goal with Hi : unprocessedInputs_ _ !! _ = Some _ |- _ =>
    by rewrite Hi end.
Qed.

Lemma static_lookup (W W0 : Workflow) (k : nat) (input : Input) :
  static W = static W0 -> unprocessedInputs_ W !! k = Some input ->
  exists input0, unprocessedInputs_ W0 !! k = Some input0
                 /\ inputPaths_ input0 = inputPaths_ input
                 /\ inputIndexPaths_ input0 = inputIndexPaths_ input.
Proof.
  intros Hst Hk. unfold static in Hst.
  injection Hst as _ _ _ _ _ _ _ Hin.
  assert (Hl : ((fun input => (inputPaths_ input, inputIndexPaths_ input))
                  <$> unprocessedInputs_ W0) !! k
               = Some (inputPaths_ input, inputIndexPaths_ input)).
  { rewrite <- Hin, list_lookup_fmap, Hk. done. }
  rewrite list_lookup_fmap in Hl.
  destruct (unprocessedInputs_ W0 !! k) as [input0|]; [|done].
  exists input0. simpl in Hl. injection Hl as -> ->. done.
Qed.

Lemma static_length (W W0 : Workflow) :
  static W = static W0 ->
  length (unprocessedInputs_ W) = length (unprocessedInputs_ W0).
Proof.
  intros Hst. unfold static in Hst. injection Hst as _ _ _ _ _ _ _ Hin.
  apply (f_equal length) in Hin. by rewrite !length_fmap in Hin.
Qed.

Lemma openReaders_static (W W0 : Workflow) (input input0 : Input) :
  static W = static W0 ->
  inputPaths_ input0 = inputPaths_ input ->
  inputIndexPaths_ input0 = inputIndexPaths_ input ->
  openReaders W input = openReaders W0 input0.
Proof.
  intros Hst Hp Hi. unfold static in Hst.
  injection Hst as _ _ _ _ _ Href _ _.
  unfold openReaders. by rewrite Hp, Hi, Href.
Qed.

Lemma unitStage_static (W W0 : Workflow) (input input0 : Input)
  (graphSpecPath : string) (readers : list BamReader) :
  static W = static W0 ->
  inputPaths_ input0 = inputPaths_ input ->
  unitStage W input graphSpecPath readers
  = unitStage W0 input0 graphSpecPath readers.
Proof.
  intros Hst Hp. unfold static in Hst.
  injection Hst as _ _ _ _ Hpar Href Htgt _.
  unfold unitStage. by rewrite Hp, Hpar, Href, Htgt.
Qed.

Lemma outputPathFor_static (W W0 : Workflow) (graphSpecPath : string) :
  static W = static W0 ->
  outputPathFor W graphSpecPath = outputPathFor W0 graphSpecPath.
Proof.
  intros Hst. unfold static in Hst.
  injection Hst as _ _ Hfolder Hgz _ _ _ _.
  unfold outputPathFor. by rewrite Hfolder, Hgz.
Qed.

(** *** Streams *)

Lemma dumpOutput_good (output : string) (os : ostream) (file : string) :
  failed os = false ->
  dumpOutput output os file
  = Ok {| content := content os +:+ output; failed := false |}.
Proof. intros Hg. unfold dumpOutput, stream_write. rewrite Hg. done. Qed.

Lemma stream_write_good (os : ostream) (x : string) :
  failed os = false ->
  stream_write os x = {| content := content os +:+ x; failed := false |}.
Proof. intros Hg. unfold stream_write. by rewrite Hg. Qed.

Lemma dumpOutput_emit (output : string) (os : ostream) (first : bool)
  (file : string) :
  failed os = false ->
  dumpOutput output (if first then stream_write os "," else os) file
  = Ok {| content := if first then (content os +:+ ",") +:+ output
                     else content os +:+ output;
          failed := false |}.
Proof.
  intros Hg. destruct first.
  - rewrite stream_write_good by done. by rewrite dumpOutput_good.
  - by rewrite dumpOutput_good.
Qed.

(** In a state whose aggregated stream is good, writes succeed. *)
Ltac norm_stream :=
  repeat match goal with
         | Hd : context [if firstPrinted_ ?W then _ else _] |- _ =>
             destruct (firstPrinted_ W) eqn:?
         end;
  repeat (rewrite ?stream_write_good in * by done;
          rewrite ?dumpOutput_good in * by done).

Lemma makeOutputFile_cases (W : Workflow) (output graphSpecPath : string)
  (fs : gmap string string) :
  (file_opens (outputPathFor W graphSpecPath) = true
   /\ makeOutputFile W output graphSpecPath fs
      = Ok (<[ outputPathFor W graphSpecPath := file_content W output ]> fs))
  \/ (file_opens (outputPathFor W graphSpecPath) = false
      /\ exists msg, makeOutputFile W output graphSpecPath fs = Error msg).
Proof.
  destruct (file_opens (outputPathFor W graphSpecPath)) eqn:E.
  - left. split; [done|]. by apply makeOutputFile_opened.
  - right. split; [done|]. unfold makeOutputFile. rewrite E. simpl.
    eexists. reflexivity.
Qed.

(** *** Cursors *)

Lemma cursor_of_lookup (W : Workflow) (k : nat) (input : Input) :
  unprocessedInputs_ W !! k = Some input ->
  cursor_of W k = unprocessedGraphs_ input.
Proof. intros Hk. unfold cursor_of. by rewrite Hk. Qed.

Lemma cursor_of_claim (W : Workflow) (k k' : nat) (input : Input) :
  unprocessedInputs_ W !! k = Some input ->
  cursor_of (set_unprocessedInputs
               (<[ k := advance input ]> (unprocessedInputs_ W)) W) k'
  = if decide (k' = k) then S (unprocessedGraphs_ input)
    else cursor_of W k'.
Proof.
  intros Hk. unfold cursor_of. simpl.
  destruct (decide (k' = k)) as [->|Hne].
  - rewrite list_lookup_insert_eq by (by eapply lookup_lt_Some). done.
  - by rewrite list_lookup_insert_ne.
Qed.

Lemma cursor_step (s : system) (w : nat) (s' : system) (k : nat) :
  step w s = Some s' ->
  (cursor_of (wf s) k <= cursor_of (wf s') k)%nat.
Proof.
  intros Hstep. step_cases Hstep; try (simpl; unfold cursor_of; simpl; lia).
  simpl. rewrite cursor_of_claim by done.
  destruct (decide (k = _)) as [->|]; [|lia].
  erewrite cursor_of_lookup by done. lia.
Qed.

Lemma inputs_length_step (s : system) (w : nat) (s' : system) :
  step w s = Some s' ->
  length (unprocessedInputs_ (wf s'))
  = length (unprocessedInputs_ (wf s)).
Proof. intros Hstep. apply static_length. by eapply static_step. Qed.

Lemma pc_ok_step (s : system) (w : nat) (s' : system) (p : pc) :
  step w s = Some s' -> pc_ok (wf s) p -> pc_ok (wf s') p.
Proof.
  intros Hstep Hok.
  pose proof (inputs_length_step _ _ _ Hstep) as Hlen.
  destruct p as [k|k|k i|k i r|k i o|k i o f|k i o|]; simpl in *;
    rewrite ?Hlen; try done.
  all: pose proof (cursor_step _ _ _ k Hstep); lia.
Qed.

(** *** The state invariants *)

Lemma mutex_inv_step (s : system) (w : nat) (s' : system) :
  mutex_inv s -> step w s = Some s' -> mutex_inv s'.
Proof.
  intros Hinv Hstep.
  pose proof (Hinv w) as Hw.
  step_cases Hstep.
  all: intros w'; simpl; pose proof (Hinv w') as Hw'.
  all: destruct (decide (w' = w)) as [->|Hne];
    [rewrite list_lookup_insert_eq by done
    |rewrite list_lookup_insert_ne by done].
  all: simpl in *; naive_solver.
Qed.

Lemma good_step (W0 : Workflow) (s : system) (w : nat) (s' : system) :
  Inv W0 s -> step w s = Some s' -> failed (aggregate s') = false.
Proof.
  intros Hinv Hstep. pose proof (inv_good _ _ Hinv) as Hgood.
  step_cases Hstep; simpl; try done.
  all: norm_stream; by simplify_eq.
Qed.

Lemma cursor_bound_step (W0 : Workflow) (s : system) (w : nat)
  (s' : system) (k : nat) :
  Inv W0 s -> step w s = Some s' ->
  (cursor_of (wf s') k <= length (graphSpecPaths_ W0))%nat.
Proof.
  intros Hinv Hstep. pose proof (inv_cursor _ _ Hinv k) as Hc.
  pose proof (inv_static _ _ Hinv) as Hst.
  assert (HN : graphSpecPaths_ (wf s) = graphSpecPaths_ W0).
  { unfold static in Hst. by injection Hst. }
  step_cases Hstep; try (simpl; unfold cursor_of in *; simpl; lia).
  simpl. rewrite cursor_of_claim by done.
  destruct (decide (k = _)) as [->|]; [|done].
  match goal with Hg : graphSpecPaths_ _ !! _ = Some _ |- _ =>
    apply lookup_lt_Some in Hg; rewrite HN in Hg end. lia.
Qed.

Lemma pc_ok_inv_step (W0 : Workflow) (s : system) (w : nat) (s' : system)
  (w' : nat) (p : pc) :
  Inv W0 s -> step w s = Some s' ->
  workers s' !! w' = Some p -> pc_ok (wf s') p.
Proof.
  intros Hinv Hstep Hp.
  destruct (decide (w' = w)) as [->|Hne].
  - pose proof (fun p Hp => proj1 (inv_pc _ _ Hinv w p Hp)) as Hold.
    clear Hinv. step_cases Hstep.
    all: specialize (Hold _ eq_refl).
    all: simpl in Hp; rewrite list_lookup_insert_eq in Hp by done.
    all: injection Hp as <-; simpl in *; try done.
    all: try match goal with Hi : unprocessedInputs_ _ !! _ = Some _ |- _ =>
               pose proof (lookup_lt_Some _ _ _ Hi) end.
    all: rewrite ?length_insert; try done.
    all: try tauto.
    split; [done|]. rewrite cursor_of_claim by done.
    rewrite decide_True by done. lia.
  - eapply pc_ok_step; [done|].
    apply (inv_pc _ _ Hinv w').
    clear Hinv. step_cases Hstep.
    all: simpl in Hp; by rewrite list_lookup_insert_ne in Hp.
Qed.

(** *** What a unit computes does not depend on the cursors *)

Lemma unit_readers_static (W W0 : Workflow) (k : nat) (input : Input) :
  static W = static W0 -> unprocessedInputs_ W !! k = Some input ->
  unit_readers W0 k = openReaders W input.
Proof.
  intros Hst Hk.
  destruct (static_lookup _ _ _ _ Hst Hk) as (input0 & Hk0 & Hp & Hi).
  unfold unit_readers. rewrite Hk0. symmetry. by apply openReaders_static.
Qed.

Lemma graphSpecPaths_static (W W0 : Workflow) :
  static W = static W0 -> graphSpecPaths_ W = graphSpecPaths_ W0.
Proof. intros Hst. unfold static in Hst. by injection Hst. Qed.

Lemma outputFilePath_static (W W0 : Workflow) :
  static W = static W0 -> outputFilePath_ W = outputFilePath_ W0.
Proof. intros Hst. unfold static in Hst. by injection Hst. Qed.

Lemma outputFolderPath_static (W W0 : Workflow) :
  static W = static W0 -> outputFolderPath_ W = outputFolderPath_ W0.
Proof. intros Hst. unfold static in Hst. by injection Hst. Qed.

Lemma unit_stage_static (W W0 : Workflow) (k i : nat) (input : Input)
  (graphSpecPath : string) :
  static W = static W0 -> unprocessedInputs_ W !! k = Some input ->
  graphSpecPaths_ W !! i = Some graphSpecPath ->
  unit_stage W0 k i
  = match openReaders W input with
    | Some readers => unitStage W input graphSpecPath readers
    | None => None
    end.
Proof.
  intros Hst Hk Hg.
  destruct (static_lookup _ _ _ _ Hst Hk) as (input0 & Hk0 & Hp & Hi).
  unfold unit_stage. rewrite Hk0.
  rewrite <- (graphSpecPaths_static _ _ Hst), Hg.
  rewrite <- (openReaders_static _ _ _ _ Hst Hp Hi).
  destruct (openReaders W input); [|done].
  symmetry. by apply unitStage_static.
Qed.

Lemma unit_stage_no_readers (W W0 : Workflow) (k i : nat) (input : Input) :
  static W = static W0 -> unprocessedInputs_ W !! k = Some input ->
  openReaders W input = None -> unit_stage W0 k i = None.
Proof.
  intros Hst Hk Hr.
  destruct (static_lookup _ _ _ _ Hst Hk) as (input0 & Hk0 & Hp & Hi).
  unfold unit_stage. rewrite Hk0.
  rewrite <- (openReaders_static _ _ _ _ Hst Hp Hi), Hr.
  by destruct (graphSpecPaths_ W0 !! i).
Qed.

Lemma unit_file_fails_static (W W0 : Workflow) (i : nat)
  (graphSpecPath : string) :
  static W = static W0 -> graphSpecPaths_ W !! i = Some graphSpecPath ->
  unit_file_fails W0 i
  = negb (is_empty (outputFolderPath_ W))
    && negb (file_opens (outputPathFor W graphSpecPath)).
Proof.
  intros Hst Hg. unfold unit_file_fails.
  rewrite <- (graphSpecPaths_static _ _ Hst), Hg.
  rewrite <- (outputFolderPath_static _ _ Hst).
  by rewrite (outputPathFor_static _ _ _ Hst).
Qed.

Lemma pc_val_inv_step (W0 : Workflow) (s : system) (w : nat) (s' : system)
  (w' : nat) (p : pc) :
  Inv W0 s -> step w s = Some s' ->
  workers s' !! w' = Some p -> pc_val W0 p.
Proof.
  intros Hinv Hstep Hp.
  pose proof (inv_static _ _ Hinv) as Hst.
  destruct (decide (w' = w)) as [->|Hne].
  - pose proof (fun p Hp => proj2 (inv_pc _ _ Hinv w p Hp)) as Hold.
    clear Hinv. step_cases Hstep.
    all: specialize (Hold _ eq_refl).
    all: simpl in Hp; rewrite list_lookup_insert_eq in Hp by done.
    all: injection Hp as <-; simpl in *; try done.
    + by erewrite unit_readers_static.
    + unfold unit_output. by erewrite unit_stage_no_readers.
    + erewrite unit_stage_static by done.
      erewrite unit_readers_static in Hold by done. by rewrite Hold.
    + assert (Hs : unit_stage W0 k i = None).
      { erewrite unit_stage_static by done.
        erewrite unit_readers_static in Hold by done. by rewrite Hold. }
      unfold unit_output, unit_fails. by rewrite Hs.
    + unfold unit_output, unit_fails. rewrite Hold. split; [done|].
      erewrite unit_file_fails_static by done.
      match goal with Hf : is_empty _ = true |- _ => by rewrite Hf end.
    + unfold unit_output, unit_fails. rewrite Hold. split; [done|].
      erewrite unit_file_fails_static by done.
      match goal with Hm : makeOutputFile ?W ?o ?g ?fs = Ok _ |- _ =>
        destruct (makeOutputFile_cases W o g fs) as [[Ho _]|[_ [msg Hm']]];
        [rewrite Ho; by rewrite andb_false_r | congruence] end.
    + unfold unit_output, unit_fails. rewrite Hold. split; [done|].
      erewrite unit_file_fails_static by done.
      match goal with Hm : makeOutputFile ?W ?o ?g ?fs = Error _ |- _ =>
        destruct (makeOutputFile_cases W o g fs) as [[_ Hm']|[Ho _]];
        [congruence|rewrite Ho] end.
      match goal with Hf : is_empty _ = false |- _ => by rewrite Hf end.
    + tauto.
  - apply (inv_pc _ _ Hinv w').
    clear Hinv. step_cases Hstep.
    all: simpl in Hp; by rewrite list_lookup_insert_ne in Hp.
Qed.

(** *** The history *)

Lemma claimed_snoc (t : list entry) (e : entry) :
  claimed (t ++ [e])
  = claimed t ++ option_list (match what e with
                              | EvClaim k i => Some (k, i)
                              | _ => None
                              end).
Proof. apply omap_snoc. Qed.

Lemma started_snoc (t : list entry) (e : entry) :
  started (t ++ [e])
  = started t ++ option_list (match what e with
                              | EvStart k i => Some (k, i)
                              | _ => None
                              end).
Proof. apply omap_snoc. Qed.

Lemma abandoned_snoc (t : list entry) (e : entry) :
  abandoned (t ++ [e])
  = abandoned t ++ option_list (match what e with
                                | EvAbandon k i => Some (k, i)
                                | _ => None
                                end).
Proof. apply omap_snoc. Qed.

Lemma open_failed_snoc (t : list entry) (e : entry) :
  open_failed (t ++ [e])
  = open_failed t ++ option_list (match what e with
                                  | EvOpenFailed k i => Some (k, i)
                                  | _ => None
                                  end).
Proof. apply omap_snoc. Qed.

Lemma finished_snoc (t : list entry) (e : entry) :
  finished (t ++ [e])
  = finished t
    ++ option_list (match what e with
                    | EvEmit k i _ | EvNoEmit k i | EvStreamError k i =>
                        Some (k, i)
                    | _ => None
                    end).
Proof. apply omap_snoc. Qed.

Lemma emitted_snoc (t : list entry) (e : entry) :
  emitted (t ++ [e])
  = emitted t ++ option_list (match what e with
                              | EvEmit k i output => Some (k, i, output)
                              | _ => None
                              end).
Proof. apply omap_snoc. Qed.

(** Rewrite the views of a history that has grown by one step. *)
Ltac trace_snoc :=
  unfold claims_of, emitted_units, emitted_outputs in *;
  simpl trace in *;
  rewrite ?claimed_snoc, ?started_snoc, ?abandoned_snoc, ?open_failed_snoc,
    ?finished_snoc, ?emitted_snoc in *;
  simpl option_list in *;
  rewrite ?app_nil_r, ?fmap_app in *.

(** A worker has let go of its unit. *)
Ltac remove_unit Hu :=
  match goal with
  | Hpc : workers ?s !! ?w = Some _ |- context [omap ?f (<[ ?w := ?y ]> _)] =>
      rewrite (omap_insert_remove f _ _ _ y _ Hpc) in Hu by reflexivity
  end.

Ltac solve_perm :=
  rewrite <- ?app_assoc; simpl;
  rewrite <- ?Permutation_middle; rewrite ?app_nil_r; done.

Lemma claims_step (W0 : Workflow) (s : system) (w : nat) (s' : system)
  (k : nat) :
  Inv W0 s -> step w s = Some s' ->
  claims_of k (trace s') = seq 0 (cursor_of (wf s') k).
Proof.
  intros Hinv Hstep. pose proof (inv_claims _ _ Hinv k) as Hc.
  clear Hinv. step_cases Hstep.
  all: trace_snoc; try done.
  rewrite omap_app. simpl. rewrite cursor_of_claim by done.
  destruct (decide (k = _)) as [->|Hne].
  - rewrite bool_decide_eq_true_2 by done. simpl.
    rewrite Hc. erewrite cursor_of_lookup by done.
    symmetry. apply (seq_S (unprocessedGraphs_ _) 0).
  - rewrite bool_decide_eq_false_2 by done. simpl.
    by rewrite app_nil_r.
Qed.

Lemma units_step (W0 : Workflow) (s : system) (w : nat) (s' : system) :
  Inv W0 s -> step w s = Some s' ->
  claimed (trace s')
  ≡ₚ finished (trace s') ++ abandoned (trace s') ++ inflight s'.
Proof.
  intros Hinv Hstep. pose proof (inv_units _ _ Hinv) as Hu.
  clear Hinv. unfold inflight in *. step_cases Hstep.
  all: trace_snoc; simpl workers.
  all: try (rewrite (omap_insert_same unit_of _ _ _ _ Hpc) by done; done).
  all: try (rewrite (omap_insert_add unit_of _ _ _ _ _ Hpc) by reflexivity;
            rewrite Hu; solve_perm).
  all: remove_unit Hu; rewrite Hu; solve_perm.
Qed.

Lemma open_step (W0 : Workflow) (s : system) (w : nat) (s' : system) :
  Inv W0 s -> step w s = Some s' ->
  claimed (trace s')
  ≡ₚ started (trace s') ++ abandoned (trace s') ++ open_failed (trace s')
     ++ at_open s'.
Proof.
  intros Hinv Hstep. pose proof (inv_open _ _ Hinv) as Hu.
  clear Hinv. unfold at_open in *. step_cases Hstep.
  all: trace_snoc; simpl workers.
  all: try (rewrite (omap_insert_same unit_at_open _ _ _ _ Hpc) by done;
            done).
  all: try (rewrite (omap_insert_add unit_at_open _ _ _ _ _ Hpc)
              by reflexivity;
            rewrite Hu; solve_perm).
  all: remove_unit Hu; rewrite Hu; solve_perm.
Qed.

(** *** The aggregated stream *)

Lemma concat_snoc (sep : string) (l : list string) (x : string) :
  String.concat sep (l ++ [x])
  = match l with
    | [] => x
    | _ => ((String.concat sep l +:+ sep) +:+ x)%string
    end.
Proof.
  induction l as [|a l IH]; [done|].
  destruct l as [|b l].
  - simpl. by rewrite string_app_assoc.
  - change (String.concat sep ((a :: b :: l) ++ [x]))
      with (a +:+ sep +:+ String.concat sep ((b :: l) ++ [x]))%string.
    rewrite IH.
    change (String.concat sep (a :: b :: l))
      with (a +:+ sep +:+ String.concat sep (b :: l))%string.
    by rewrite !string_app_assoc.
Qed.

Lemma stream_step (W0 : Workflow) (s : system) (w : nat) (s' : system) :
  Inv W0 s -> step w s = Some s' ->
  content (aggregate s')
  = ((if framed W0 then opening_token else "")
     +:+ String.concat "," (emitted_outputs (trace s')))%string
  /\ firstPrinted_ (wf s')
     = negb (bool_decide (emitted (trace s') = [])).
Proof.
  intros Hinv Hstep. pose proof (inv_stream _ _ Hinv) as Hs.
  pose proof (inv_first _ _ Hinv) as Hf.
  pose proof (inv_good _ _ Hinv) as Hgood.
  clear Hinv. step_cases Hstep.
  all: norm_stream; simplify_eq.
  all: trace_snoc; simpl; try done.
  all: split; [|by destruct (emitted (trace s))].
  all: rewrite concat_snoc, Hs.
  all: match goal with Hb : firstPrinted_ _ = _ |- _ =>
         rewrite Hf in Hb end.
  all: destruct (emitted (trace s)) as [|x l] eqn:E; simpl in *;
    try discriminate.
  - by rewrite !string_app_assoc.
  - by rewrite string_app_empty_r.
Qed.

Lemma emit_step (W0 : Workflow) (s : system) (w : nat) (s' : system) :
  Inv W0 s -> step w s = Some s' ->
  is_empty (outputFilePath_ W0) = false ->
  finished (trace s') = emitted_units (trace s').
Proof.
  intros Hinv Hstep Hconf. pose proof (inv_emit _ _ Hinv Hconf) as He.
  pose proof (inv_good _ _ Hinv) as Hgood.
  rewrite <- (outputFilePath_static _ _ (inv_static _ _ Hinv)) in Hconf.
  clear Hinv. step_cases Hstep.
  all: norm_stream; simplify_eq.
  all: trace_snoc; simpl; try done.
  all: by rewrite He.
Qed.

Lemma values_step (W0 : Workflow) (s : system) (w : nat) (s' : system)
  (k i : nat) (output : string) :
  Inv W0 s -> step w s = Some s' ->
  (k, i, output) ∈ emitted (trace s') -> output = unit_output W0 k i.
Proof.
  intros Hinv Hstep Hin.
  pose proof (inv_values _ _ Hinv k i output) as Hv.
  pose proof (fun p Hp => proj2 (inv_pc _ _ Hinv w p Hp)) as Hold.
  clear Hinv. step_cases Hstep.
  all: specialize (Hold _ eq_refl).
  all: trace_snoc; simpl in *; try by apply Hv.
  all: apply elem_of_app in Hin as [Hin|Hin]; [by apply Hv|].
  all: apply list_elem_of_singleton in Hin; by simplify_eq.
Qed.

(** *** The soft-terminate flag *)

Lemma terminate_step (s : system) (w : nat) (s' : system) :
  step w s = Some s' ->
  terminate_ (wf s) = true -> terminate_ (wf s') = true.
Proof.
  intros Hstep Ht. step_cases Hstep; simpl; rewrite ?Ht; simpl; try done.
  by rewrite orb_false_r.
Qed.

Lemma term_step (W0 : Workflow) (s : system) (w : nat) (s' : system) :
  Inv W0 s -> step w s = Some s' ->
  terminate_ (wf s') = existsb records_failure (trace s').
Proof.
  intros Hinv Hstep. pose proof (inv_term _ _ Hinv) as Ht.
  clear Hinv. step_cases Hstep.
  all: simpl; rewrite existsb_app; simpl; rewrite <- Ht.
  all: rewrite ?orb_false_r, ?orb_true_r; try done.
  by destruct failure.
Qed.

Lemma justified_step (W0 : Workflow) (s : system) (w : nat) (s' : system) :
  Inv W0 s -> step w s = Some s' ->
  Forall (failure_justified W0) (trace s').
Proof.
  intros Hinv Hstep. pose proof (inv_justified _ _ Hinv) as Hj.
  pose proof (inv_static _ _ Hinv) as Hst.
  pose proof (fun p Hp => inv_pc _ _ Hinv w p Hp) as Hold.
  assert (Hrange : forall k i,
             (k < length (unprocessedInputs_ (wf s)))%nat
             /\ (i < cursor_of (wf s) k)%nat ->
             (k < length (unprocessedInputs_ W0))%nat
             /\ (i < length (graphSpecPaths_ W0))%nat).
  { intros k i [Hk Hi]. pose proof (inv_cursor _ _ Hinv k).
    rewrite <- (static_length _ _ Hst). lia. }
  clear Hinv. step_cases Hstep.
  all: specialize (Hold _ eq_refl).
  all: simpl; apply Forall_app; split; [done|].
  all: apply Forall_singleton; unfold failure_justified; simpl; try done.
  - destruct Hold as [Hok _]. split; [|by apply Hrange].
    unfold unit_fails. by erewrite unit_stage_no_readers.
  - destruct Hold as [Hok [_ ->]].
    destruct (unit_fails W0 k i); [|done]. split; [done|by apply Hrange].
Qed.

Lemma pending_step (W0 : Workflow) (s : system) (w : nat) (s' : system)
  (k i : nat) :
  Inv W0 s -> step w s = Some s' ->
  (k, i) ∈ started (trace s') -> unit_fails W0 k i = true ->
  terminate_ (wf s') = true
  \/ exists w' p, workers s' !! w' = Some p
                  /\ before_cleanup p = Some (k, i).
Proof.
  intros Hinv Hstep Hin Hfail.
  pose proof (inv_pending _ _ Hinv k i) as Hpend.
  pose proof (fun p Hp => proj2 (inv_pc _ _ Hinv w p Hp)) as Hold.
  pose proof (terminate_step _ _ _ Hstep) as Hmono.
  assert (Hother : forall w' p, w' <> w -> workers s !! w' = Some p ->
                                workers s' !! w' = Some p).
  { intros w' p Hne Hp. clear -Hstep Hne Hp. step_cases Hstep.
    all: simpl; by rewrite list_lookup_insert_ne. }
  assert (Hsame : forall p', workers s' !! w = Some p' ->
             (k, i) ∈ started (trace s) ->
             (forall p, workers s !! w = Some p ->
                        before_cleanup p = Some (k, i) ->
                        before_cleanup p' = Some (k, i)
                        \/ terminate_ (wf s') = true) ->
             terminate_ (wf s') = true
             \/ exists w' p, workers s' !! w' = Some p
                             /\ before_cleanup p = Some (k, i)).
  { intros p' Hp' Hin' Hmove.
    destruct (Hpend Hin' Hfail) as [Ht|(w' & p & Hp & Hb)]; [auto|].
    destruct (decide (w' = w)) as [->|Hne].
    - destruct (Hmove p Hp Hb) as [Hb'|Ht]; [|auto].
      right. by exists w, p'.
    - right. exists w', p. auto. }
  clear Hinv Hpend Hmono Hother. step_cases Hstep.
  all: specialize (Hold _ eq_refl).
  all: trace_snoc.
  all: try (eapply Hsame;
            [simpl; by rewrite list_lookup_insert_eq by done | done |];
            intros p0 Hp0 Hb0; simplify_eq; simpl in *;
            first [discriminate | by left
                  | right; destruct Hold as [_ ->]; simplify_eq;
                    by rewrite Hfail, ?orb_true_r]).
  apply elem_of_app in Hin as [Hin|Hin].
  - eapply Hsame; [simpl; by rewrite list_lookup_insert_eq by done|done|].
    intros p0 Hp0 Hb0; simplify_eq; simpl in *; discriminate.
  - apply list_elem_of_singleton in Hin. simplify_eq.
    right. eexists w, _. split.
    + simpl. by rewrite list_lookup_insert_eq by done.
    + done.
Qed.

Lemma abandoned_step (W0 : Workflow) (s : system) (w : nat) (s' : system) :
  Inv W0 s -> step w s = Some s' ->
  abandoned (trace s') <> [] -> terminate_ (wf s') = true.
Proof.
  intros Hinv Hstep Hne. pose proof (inv_abandoned _ _ Hinv) as Ha.
  pose proof (terminate_step _ _ _ Hstep) as Hmono.
  clear Hinv. step_cases Hstep.
  all: trace_snoc; try (apply Hmono; by apply Ha).
  simpl. by rewrite orb_false_r.
Qed.

(** *** The lock discipline *)

Lemma lock_step (W0 : Workflow) (s : system) (w : nat) (s' : system) :
  Inv W0 s -> step w s = Some s' -> Forall lock_ok (trace s').
Proof.
  intros Hinv Hstep. pose proof (inv_lock _ _ Hinv) as Hl.
  pose proof (inv_mutex _ _ Hinv w) as Hm.
  clear Hinv. step_cases Hstep.
  all: simpl; apply Forall_app; split; [done|].
  all: apply Forall_singleton; unfold lock_ok; simpl; try done.
  all: try (apply Hm; eexists; split; [done|done]).
  all: intros Hh; apply Hm in Hh as (p' & Hp' & Hh); by simplify_eq.
Qed.

(** *** Workers leave a group only when it is exhausted or the flag is set *)

Lemma groups_step (W0 : Workflow) (s : system) (w : nat) (s' : system)
  (w' : nat) (p : pc) (k : nat) :
  Inv W0 s -> step w s = Some s' ->
  workers s' !! w' = Some p -> (k < group_of (wf s') p)%nat ->
  (k < length (unprocessedInputs_ W0))%nat ->
  cursor_of (wf s') k = length (graphSpecPaths_ W0)
  \/ terminate_ (wf s') = true.
Proof.
  intros Hinv Hstep Hp Hk HK.
  pose proof (cursor_bound_step _ _ _ _ k Hinv Hstep) as Hbound.
  pose proof (cursor_step _ _ _ k Hstep) as Hcur.
  pose proof (terminate_step _ _ _ Hstep) as Hmono.
  pose proof (inputs_length_step _ _ _ Hstep) as Hlen.
  pose proof (static_length _ _ (inv_static _ _ Hinv)) as Hlen0.
  pose proof (graphSpecPaths_static _ _ (inv_static _ _ Hinv)) as HN.
  pose proof (inv_good _ _ Hinv) as Hgood.
  assert (Hold : forall w0 p0, workers s !! w0 = Some p0 ->
                               (k < group_of (wf s) p0)%nat ->
                               cursor_of (wf s') k = length (graphSpecPaths_ W0)
                               \/ terminate_ (wf s') = true).
  { intros w0 p0 Hp0 Hk0.
    destruct (inv_groups _ _ Hinv w0 p0 k Hp0 Hk0 HK) as [Hc|Ht]; [|auto].
    left. lia. }
  destruct (decide (w' = w)) as [->|Hne].
  - clear Hinv Hmono. step_cases Hstep.
    all: norm_stream; simplify_eq.
    all: simpl in Hp; rewrite list_lookup_insert_eq in Hp by done.
    all: injection Hp as <-; simpl in *.
    all: try (eapply (Hold w); [done|simpl; lia]).
    + eapply (Hold w); [done|]. simpl.
      match goal with Hi : unprocessedInputs_ _ !! _ = None |- _ =>
        apply lookup_ge_None in Hi end. lia.
    + destruct (decide (k = k0)) as [->|Hne].
      * left. erewrite cursor_of_lookup by done.
        match goal with Hb : bool_decide _ = false |- _ =>
          apply bool_decide_eq_false in Hb; apply dec_stable in Hb end.
        congruence.
      * eapply (Hold w); [done|simpl; lia].
    + destruct (decide (k = k0)) as [->|Hne].
      * right. by rewrite orb_false_r.
      * eapply (Hold w); [done|simpl; lia].
  - assert (Hp0 : workers s !! w' = Some p).
    { clear -Hstep Hp Hne. step_cases Hstep.
      all: simpl in Hp; by rewrite list_lookup_insert_ne in Hp. }
    eapply Hold; [done|].
    destruct p; simpl in *; lia.
Qed.

(** *** The invariant holds along every schedule *)

Lemma Inv_step (W0 : Workflow) (s : system) (w : nat) (s' : system) :
  Inv W0 s -> step w s = Some s' -> Inv W0 s'.
Proof.
  intros Hinv Hstep. split.
  - rewrite (static_step _ _ _ Hstep). apply (inv_static _ _ Hinv).
  - eapply mutex_inv_step; [apply (inv_mutex _ _ Hinv)|done].
  - by eapply good_step.
  - intros k. by eapply cursor_bound_step.
  - intros w' p Hp. split.
    + by eapply pc_ok_inv_step.
    + by eapply pc_val_inv_step.
  - intros k. by eapply claims_step.
  - by eapply units_step.
  - by eapply open_step.
  - by eapply stream_step.
  - by eapply stream_step.
  - by eapply emit_step.
  - intros k i output. by eapply values_step.
  - by eapply term_step.
  - by eapply justified_step.
  - intros k i. by eapply pending_step.
  - by eapply abandoned_step.
  - by eapply lock_step.
  - intros w' p k. by eapply groups_step.
Qed.

Lemma is_fresh_spec (W : Workflow) :
  is_fresh W = true ->
  mutex_ W = None /\ firstPrinted_ W = false /\ terminate_ W = false
  /\ forall k, cursor_of W k = 0%nat.
Proof.
  unfold is_fresh. rewrite !andb_true_iff, !negb_true_iff.
  intros [[[Hm Hf] Ht] Hc]. apply bool_decide_eq_true in Hm.
  repeat split; try done.
  intros k. unfold cursor_of.
  destruct (unprocessedInputs_ W !! k) as [input|] eqn:E; [|done]. simpl.
  rewrite forallb_forall in Hc.
  apply Nat.eqb_eq, Hc, list_elem_of_In, (list_elem_of_lookup_2 _ k), E.
Qed.

Lemma omap_replicate_none {A B : Type} (f : A -> option B) (n : nat) (x : A) :
  f x = None -> omap f (replicate n x) = [].
Proof. intros Hx. induction n as [|n IH]; simpl; [done|]. by rewrite Hx. Qed.

Lemma run_start_workers (W : Workflow) (fs : gmap string string)
  (s0 : system) :
  run_start W fs = Ok s0 ->
  wf s0 = W /\ trace s0 = [] /\ files s0 = fs
  /\ workers s0 = replicate (Parameters_threads (parameters_ W)) (PFor 0)
  /\ aggregate s0
     = {| content := if framed W then opening_token else ""%string;
          failed := false |}.
Proof.
  unfold run_start, openAggregate. intros Hs.
  repeat match type of Hs with
         | context [if ?b then _ else _] => destruct b eqn:?
         end; simplify_eq; done.
Qed.

Lemma Inv_init (W : Workflow) (fs : gmap string string) (s0 : system) :
  is_fresh W = true -> run_start W fs = Ok s0 -> Inv W s0.
Proof.
  intros Hfresh Hs.
  destruct (is_fresh_spec _ Hfresh) as (Hm & Hf & Ht & Hc).
  destruct (run_start_workers _ _ _ Hs) as (HW & Htr & _ & Hw & Hagg).
  assert (Hpc : forall w p, workers s0 !! w = Some p -> p = PFor 0).
  { intros w p. rewrite Hw. intros Hp.
    by apply lookup_replicate in Hp as [-> _]. }
  split; rewrite ?HW, ?Htr.
  - done.
  - intros w. rewrite HW, Hm. split; [done|].
    intros (p & Hp & Hh). apply Hpc in Hp as ->. done.
  - by rewrite Hagg.
  - intros k. rewrite Hc. lia.
  - intros w p Hp. apply Hpc in Hp as ->. done.
  - intros k. by rewrite Hc.
  - unfold inflight. rewrite Hw. by rewrite omap_replicate_none.
  - unfold at_open. rewrite Hw. by rewrite omap_replicate_none.
  - rewrite Hagg. simpl. by rewrite string_app_empty_r.
  - by rewrite Hf.
  - done.
  - intros k i output Hin. by apply elem_of_nil in Hin.
  - by rewrite Ht.
  - constructor.
  - intros k i Hin. by apply elem_of_nil in Hin.
  - done.
  - constructor.
  - intros w p k Hp. apply Hpc in Hp as ->. simpl. lia.
Qed.

Lemma Inv_exec (W : Workflow) (fs : gmap string string) (s0 : system)
  (sched : list nat) :
  is_fresh W = true -> run_start W fs = Ok s0 -> Inv W (exec sched s0).
Proof.
  intros Hfresh Hs. apply exec_invariant.
  - by eapply Inv_init.
  - intros s w s'. apply Inv_step.
Qed.

(** *** Every run comes to an end *)

Lemma sum_list_insert {A : Type} (f : A -> nat) (l : list A) (i : nat)
  (x y : A) :
  l !! i = Some x ->
  (sum_list (f <$> <[ i := y ]> l) + f x = sum_list (f <$> l) + f y)%nat.
Proof.
  revert i. induction l as [|a l IH]; intros [|i] Hx; csimpl in *;
    simplify_eq.
  - lia.
  - specialize (IH i Hx). lia.
Qed.

Lemma measure_step (W0 : Workflow) (s : system) (w : nat) (s' : system) :
  Inv W0 s -> step w s = Some s' -> (measure s' < measure s)%nat.
Proof.
  intros Hinv Hstep.
  pose proof (inputs_length_step _ _ _ Hstep) as Hlen.
  pose proof (fun p Hp => proj1 (inv_pc _ _ Hinv w p Hp)) as Hok.
  pose proof (inv_good _ _ Hinv) as Hgood.
  unfold measure. rewrite Hlen.
  clear Hinv. step_cases Hstep.
  all: specialize (Hok _ eq_refl).
  all: norm_stream; simplify_eq.
  all: simpl workers;
    match goal with
    | |- context [sum_list (rank ?K <$> <[ ?w := ?y ]> ?l)] =>
        pose proof (sum_list_insert (rank K) l w _ y Hpc) as Hsum
    end.
  all: simpl in Hsum, Hok.
  all: try (change (remaining _) with (remaining (wf s)); lia).
  match goal with
    | Hi : unprocessedInputs_ _ !! ?k = Some ?input,
      Hg : graphSpecPaths_ _ !! _ = Some _ |- _ =>
        pose proof (sum_list_insert
                      (fun input => length (graphSpecPaths_ (wf s))
                                    - unprocessedGraphs_ input)%nat
                      (unprocessedInputs_ (wf s)) k input (advance input) Hi)
          as Hrem;
        apply lookup_lt_Some in Hg
  end.
  unfold remaining. simpl in *. lia.
Qed.

Lemma holder_can_step (W0 : Workflow) (s : system) (w : nat) (p : pc) :
  Inv W0 s -> workers s !! w = Some p -> holding p = true ->
  is_Some (step w s).
Proof.
  intros Hinv Hp Hh.
  pose proof (proj1 (inv_pc _ _ Hinv w p Hp)) as Hok.
  pose proof (graphSpecPaths_static _ _ (inv_static _ _ Hinv)) as HN.
  unfold step. rewrite Hp.
  destruct p as [k|k|k i|k i r|k i o|k i o f|k i o|]; try discriminate;
    simpl in Hok.
  - destruct (lookup_lt_is_Some_2 _ _ Hok) as [input Hk]. rewrite Hk.
    case_bool_decide as Hne; [|by eexists].
    pose proof (inv_cursor _ _ Hinv k) as Hc.
    rewrite (cursor_of_lookup _ _ _ Hk), <- HN in Hc.
    destruct (lookup_lt_is_Some_2 (graphSpecPaths_ (wf s))
                (unprocessedGraphs_ input)) as [g Hg]; [lia|].
    rewrite Hg. by eexists.
  - destruct Hok as [Hk _].
    destruct (lookup_lt_is_Some_2 _ _ Hk) as [input Hin]. rewrite Hin.
    destruct (openReaders (wf s) input); [|by eexists].
    destruct (terminate_ (wf s)); by eexists.
  - destruct (is_empty (outputFilePath_ (wf s))); [by eexists|].
    destruct (dumpOutput _ _ _); by eexists.
Qed.

Lemma worker_can_step (W0 : Workflow) (s : system) (w : nat) (p : pc) :
  Inv W0 s -> workers s !! w = Some p -> p <> PDone ->
  exists w' s', step w' s = Some s'.
Proof.
  intros Hinv Hp Hnd.
  assert (Hblocked : forall w2, mutex_ (wf s) = Some w2 ->
                                exists w' s', step w' s = Some s').
  { intros w2 Hm. apply (inv_mutex _ _ Hinv) in Hm as (p2 & Hp2 & Hh).
    destruct (holder_can_step _ _ _ _ Hinv Hp2 Hh) as [s' Hs'].
    by exists w2, s'. }
  destruct (holding p) eqn:Hh.
  { destruct (holder_can_step _ _ _ _ Hinv Hp Hh) as [s' Hs'].
    by exists w, s'. }
  pose proof (proj1 (inv_pc _ _ Hinv w p Hp)) as Hok.
  pose proof (graphSpecPaths_static _ _ (inv_static _ _ Hinv)) as HN.
  destruct (mutex_ (wf s)) as [w2|] eqn:Hm; [by eapply Hblocked|].
  exists w. unfold step. rewrite Hp.
  destruct p as [k|k|k i|k i r|k i o|k i o f|k i o|]; try discriminate;
    try done; simpl in Hok.
  - destruct (unprocessedInputs_ (wf s) !! k); [|by eexists].
    rewrite Hm. by eexists.
  - destruct Hok as [Hk Hi].
    destruct (lookup_lt_is_Some_2 _ _ Hk) as [input Hin]. rewrite Hin.
    pose proof (inv_cursor _ _ Hinv k) as Hc. rewrite <- HN in Hc.
    destruct (lookup_lt_is_Some_2 (graphSpecPaths_ (wf s)) i) as [g Hg];
      [lia|].
    rewrite Hg. destruct (unitStage _ _ _ _); by eexists.
  - destruct Hok as [Hk Hi].
    pose proof (inv_cursor _ _ Hinv k) as Hc. rewrite <- HN in Hc.
    destruct (lookup_lt_is_Some_2 (graphSpecPaths_ (wf s)) i) as [g Hg];
      [lia|].
    rewrite Hg. destruct (is_empty _); [by eexists|].
    destruct (makeOutputFile _ _ _ _); by eexists.
  - rewrite Hm. by eexists.
Qed.

Lemma not_all_done (s : system) :
  all_done s = false ->
  exists w p, workers s !! w = Some p /\ p <> PDone.
Proof.
  unfold all_done. intros Hnd.
  induction (workers s) as [|p l IH]; [done|]. simpl in Hnd.
  destruct p; try (by eexists 0%nat, _).
  destruct (IH Hnd) as (w & p & Hp & Hne). by exists (S w), p.
Qed.


(** *** Completed runs *)

Lemma all_done_omap {B : Type} (f : pc -> option B) (s : system) :
  all_done s = true -> f PDone = None -> omap f (workers s) = [].
Proof.
  unfold all_done. intros Hd Hf.
  induction (workers s) as [|p l IH]; [done|]. simpl in Hd.
  apply andb_true_iff in Hd as [Hp Hl].
  destruct p; try discriminate. simpl. rewrite Hf. by apply IH.
Qed.

Lemma run_inv (W : Workflow) (fs : gmap string string) (sched : list nat)
  (s : system) :
  run W fs sched = Some s ->
  exists s0, run_start W fs = Ok s0
             /\ all_done (exec sched s0) = true
             /\ s = run_finish (exec sched s0).
Proof.
  unfold run. destruct (run_start W fs) as [s0|]; [|done].
  destruct (all_done (exec sched s0)) eqn:Hd; [|done].
  intros [= <-]. by exists s0.
Qed.



















Lemma emitted_unit_output (W0 : Workflow) (s : system) :
  Inv W0 s ->
  emitted (trace s)
  = (fun u : nat * nat => (u, unit_output W0 u.1 u.2))
      <$> emitted_units (trace s).
Proof.
  intros Hinv. pose proof (inv_values _ _ Hinv) as Hv.
  unfold emitted_units. induction (emitted (trace s)) as [|[[k i] o] l IH];
    [done|].
  csimpl. f_equal.
  - rewrite (Hv k i o); [done|]. apply elem_of_cons. by left.
  - apply IH. intros k' i' o' Hin. apply Hv. apply elem_of_cons. by right.
Qed.







(** C8 (amended). In every iteration of the worker loop the mutex is
    released for the whole expensive stage, and the per-unit output file
    is written in that released stretch too; the mutex is free when the
    worker takes it again, and the unit's result is appended to the
    aggregated stream, cursors are advanced and read-source handles are
    opened only by the worker that holds it.  At most one worker is
    inside a critical section at a time. *)
Theorem lock_discipline (W : Workflow) (fs : gmap string string)
  (s0 : system) (sched : list nat) :
  is_fresh W = true -> run_start W fs = Ok s0 ->
  let s := exec sched s0 in
  Forall lock_ok (trace s)
  /\ (forall e, e ∈ trace s ->
        (forall k i outcome, what e = EvStage k i outcome ->
                             holder e <> Some (actor e))
        /\ (forall k i path ok, what e = EvFile k i path ok ->
                                holder e <> Some (actor e))
        /\ (forall k i failure, what e = EvRelock k i failure ->
                                holder e = None)
        /\ (forall k i output, what e = EvEmit k i output ->
                               holder e = Some (actor e))
        /\ (forall k i, what e = EvClaim k i -> holder e = Some (actor e))
        /\ (forall k i, what e = EvStart k i \/ what e = EvOpenFailed k i
                        \/ what e = EvAbandon k i ->
                        holder e = Some (actor e)))
  /\ (forall w1 w2 p1 p2,
         workers s !! w1 = Some p1 -> workers s !! w2 = Some p2 ->
         holding p1 = true -> holding p2 = true -> w1 = w2).
Proof.
  intros Hfresh Hs s.
  pose proof (Inv_exec W fs s0 sched Hfresh Hs) as Hinv. fold s in Hinv.
  pose proof (inv_lock _ _ Hinv) as Hl.
  split; [done|split].
  - intros e He. rewrite Forall_forall in Hl.
    apply Hl in He. unfold lock_ok in He.
    repeat split.
    + intros k i o Hw. by rewrite Hw in He.
    + intros k i path ok Hw. by rewrite Hw in He.
    + intros k i f Hw. by rewrite Hw in He.
    + intros k i o Hw. by rewrite Hw in He.
    + intros k i Hw. by rewrite Hw in He.
    + intros k i [Hw|[Hw|Hw]]; by rewrite Hw in He.
  - intros w1 w2 p1 p2 Hp1 Hp2 Hh1 Hh2.
    pose proof (proj2 (inv_mutex _ _ Hinv w1)) as H1.
    pose proof (proj2 (inv_mutex _ _ Hinv w2)) as H2.
    rewrite H1 in H2 by eauto. apply (inj Some). apply H2. eauto.
Qed.

(** * Further properties *)

(** ** Exact arithmetic of doubles on natural numbers *)

Lemma iter_pos_nat {A : Type} (f : A -> A) (n : positive) (x : A) :
  iter_pos f n x = Nat.iter (Pos.to_nat n) f x.
Proof.
  revert x. induction n as [n IH|n IH|]; intros x; simpl iter_pos.
  - rewrite !IH, Pos2Nat.inj_xI.
    replace (S (2 * Pos.to_nat n)) with (Pos.to_nat n + (Pos.to_nat n + 1))%nat
      by lia.
    rewrite !Nat.iter_add. done.
  - rewrite !IH, Pos2Nat.inj_xO.
    replace (2 * Pos.to_nat n)%nat with (Pos.to_nat n + Pos.to_nat n)%nat
      by lia.
    by rewrite Nat.iter_add.
  - done.
Qed.

Lemma shr_1_iter (k : nat) (m : positive) :
  Nat.iter k shr_1 {| shr_m := Z.pos (Nat.iter k xO m);
                      shr_r := false; shr_s := false |}
  = {| shr_m := Z.pos m; shr_r := false; shr_s := false |}.
Proof.
  induction k as [|k IH]; [done|].
  rewrite Nat.iter_succ_r. simpl. exact IH.
Qed.

Lemma pos_iter_nat (k : positive) (m : positive) :
  Pos.iter xO m k = Nat.iter (Pos.to_nat k) xO m.
Proof. apply Pos2Nat.inj_iter. Qed.

(** A positive number that is [m * 2^n]. *)
Lemma shifted_pos (S m : positive) (n : Z) :
  0 <= n -> Z.pos S = Z.pos m * 2 ^ n ->
  S = match n with Z.pos k => Pos.iter xO m k | _ => m end.
Proof.
  intros Hn HS. destruct n as [|k|k]; [| |lia].
  - rewrite Z.pow_0_r, Z.mul_1_r in HS. by injection HS.
  - rewrite <- iter_xO_value in HS. by injection HS.
Qed.

(** Rounding a number that needs no rounding: [m * 2^n] with a mantissa
    [m] of 53 bits. *)
Lemma binary_round_aux_exact (S m : positive) (n e : Z) :
  digits2_pos m = 53%positive -> 0 <= n ->
  Z.pos S = Z.pos m * 2 ^ n ->
  -1074 <= e + n <= 971 ->
  binary_round_aux Double.prec Double.emax false (Z.pos S) e loc_Exact
  = S754_finite false m (e + n).
Proof.
  intros Hm Hn HS He.
  pose proof (shifted_pos S m n Hn HS) as HS'.
  assert (Hd : Z.pos (digits2_pos S) = 53 + n).
  { destruct n as [|k|k]; [| |lia]; subst S.
    - rewrite Hm. lia.
    - rewrite digits2_iter, Hm. lia. }
  assert (Hf : forall z, -1074 <= z ->
                 fexp Double.prec Double.emax (53 + z) = z).
  { intros z Hz. unfold fexp, emin, Double.prec, Double.emax. lia. }
  unfold binary_round_aux.
  assert (Hshr : shr_fexp Double.prec Double.emax (Z.pos S) e loc_Exact
                 = ({| shr_m := Z.pos m; shr_r := false; shr_s := false |},
                    e + n)).
  { unfold shr_fexp. simpl Zdigits2. rewrite Hd.
    replace (53 + n + e) with (53 + (e + n)) by lia. rewrite Hf by lia.
    replace (e + n - e) with n by lia.
    unfold shr, shr_record_of_loc. destruct n as [|k|k]; [| |lia].
    - subst S. f_equal. lia.
    - subst S. f_equal.
      rewrite iter_pos_nat, pos_iter_nat. apply shr_1_iter. }
  rewrite Hshr. simpl shr_m. simpl loc_of_shr_record.
  simpl round_nearest_even.
  assert (Hshr2 : shr_fexp Double.prec Double.emax (Z.pos m) (e + n) loc_Exact
                  = ({| shr_m := Z.pos m; shr_r := false; shr_s := false |},
                     e + n)).
  { unfold shr_fexp. simpl Zdigits2. rewrite Hm.
    rewrite Hf by lia. by rewrite Z.sub_diag. }
  rewrite Hshr2. simpl shr_m.
  rewrite (proj2 (Z.leb_le _ _)); [done|].
  unfold Double.emax, Double.prec. lia.
Qed.

Lemma digits2_le_53 (p : positive) :
  Z.pos p < 2 ^ 53 -> Z.pos (digits2_pos p) <= 53.
Proof.
  intros Hp. pose proof (digits2_bounds p) as [Hlo _].
  destruct (Z_le_gt_dec (Z.pos (digits2_pos p)) 53) as [|Hgt]; [done|].
  assert (2 ^ 53 <= 2 ^ (Z.pos (digits2_pos p) - 1))
    by (apply Z.pow_le_mono_r; lia). lia.
Qed.

Lemma digits2_mono (p q : positive) :
  Z.pos p <= Z.pos q -> Z.pos (digits2_pos p) <= Z.pos (digits2_pos q).
Proof.
  intros Hpq. pose proof (digits2_bounds p) as [Hlo _].
  pose proof (digits2_bounds q) as [_ Hhi].
  destruct (Z_le_gt_dec (Z.pos (digits2_pos p)) (Z.pos (digits2_pos q)))
    as [|Hgt]; [done|].
  assert (2 ^ Z.pos (digits2_pos q) <= 2 ^ (Z.pos (digits2_pos p) - 1))
    by (apply Z.pow_le_mono_r; lia). lia.
Qed.

Lemma shl_align_value (m : positive) (e e' : Z) :
  e' <= e ->
  Z.pos (fst (shl_align m e e')) = Z.pos m * 2 ^ (e - e').
Proof.
  intros He. unfold shl_align.
  destruct (e' - e) as [|k|k] eqn:E; try lia; simpl fst.
  - replace (e - e') with 0 by lia. lia.
  - rewrite iter_xO_value. f_equal. f_equal. lia.
Qed.

(** The sum of two natural numbers is exact as long as it stays below
    [2^53]. *)
Lemma add_of_Z (a b : Z) :
  0 <= a -> 0 <= b -> a + b < 2 ^ 53 ->
  DoubleOps.add (Double.of_Z a) (Double.of_Z b) = Double.of_Z (a + b).
Proof.
  intros Ha Hb Hab.
  destruct a as [|p|p]; [| |lia]; destruct b as [|q|q]; try lia.
  - done.
  - rewrite Z.add_0_l, of_Z_pos by lia. done.
  - rewrite Z.add_0_r, of_Z_pos by lia. done.
  - rewrite !of_Z_pos by lia.
    change (Z.pos p + Z.pos q) with (Z.pos (p + q)) in *.
    rewrite (of_Z_pos (p + q)) by lia.
    pose proof (digits2_le_53 p ltac:(lia)) as Hdp.
    pose proof (digits2_le_53 q ltac:(lia)) as Hdq.
    pose proof (digits2_le_53 (p + q) ltac:(lia)) as Hd.
    pose proof (digits2_mono p (p + q) ltac:(lia)) as Hmp.
    pose proof (digits2_mono q (p + q) ltac:(lia)) as Hmq.
    set (dp := Z.pos (digits2_pos p)) in *.
    set (dq := Z.pos (digits2_pos q)) in *.
    set (d := Z.pos (digits2_pos (p + q))) in *.
    assert (Hdp1 : 1 <= dp) by (unfold dp; lia).
    assert (Hdq1 : 1 <= dq) by (unfold dq; lia).
    unfold DoubleOps.add, SFadd. cbv zeta.
    set (ez := IntDef.Z.min (dp - 53) (dq - 53)).
    assert (Hez : ez = Z.min (dp - 53) (dq - 53)) by done.
    assert (HA : Z.pos (fst (shl_align (Double.mantissa53 p) (dp - 53) ez))
                 = Z.pos p * 2 ^ (- ez)).
    { rewrite shl_align_value by lia.
      rewrite mantissa53_value by done. fold dp.
      rewrite <- Z.mul_assoc, <- Z.pow_add_r by lia.
      f_equal. f_equal. lia. }
    assert (HB : Z.pos (fst (shl_align (Double.mantissa53 q) (dq - 53) ez))
                 = Z.pos q * 2 ^ (- ez)).
    { rewrite shl_align_value by lia.
      rewrite mantissa53_value by done. fold dq.
      rewrite <- Z.mul_assoc, <- Z.pow_add_r by lia.
      f_equal. f_equal. lia. }
    set (A := fst (shl_align (Double.mantissa53 p) (dp - 53) ez)) in *.
    set (B := fst (shl_align (Double.mantissa53 q) (dq - 53) ez)) in *.
    unfold cond_Zopp.
    change (Z.pos A + Z.pos B) with (Z.pos (A + B)).
    unfold binary_normalize, binary_round.
    assert (HS : Z.pos (A + B)
                 = Z.pos (Double.mantissa53 (p + q)) * 2 ^ (d - 53 - ez)).
    { rewrite Pos2Z.inj_add, HA, HB, mantissa53_value by done. fold d.
      rewrite <- Z.mul_assoc, <- Z.pow_add_r by lia.
      replace (53 - d + (d - 53 - ez)) with (- ez) by lia.
      rewrite Pos2Z.inj_add. lia. }
    pose proof (mantissa53_digits (p + q) ltac:(lia)) as Hm53.
    pose proof (shifted_pos _ _ (d - 53 - ez) ltac:(lia) HS) as HS'.
    assert (Hdig : Z.pos (digits2_pos (A + B)) = d - ez).
    { rewrite HS'. destruct (d - 53 - ez) as [|k|k] eqn:E; try lia.
      rewrite digits2_iter, Hm53. lia. }
    rewrite Hdig.
    replace (fexp Double.prec Double.emax (d - ez + ez)) with (d - 53)
      by (unfold fexp, emin, Double.prec, Double.emax; lia).
    assert (Hal : shl_align (A + B) ez (d - 53) = ((A + B)%positive, ez)).
    { unfold shl_align. destruct (d - 53 - ez) as [|k|k] eqn:E; try lia; done. }
    rewrite Hal.
    rewrite (binary_round_aux_exact _ _ (d - 53 - ez) ez Hm53 ltac:(lia) HS)
      by lia.
    f_equal. lia.
Qed.

Lemma div_eucl_exact (a b : Z) :
  b <> 0 -> Z.div_eucl (a * b) b = (a, 0).
Proof.
  intros Hb. pose proof (Z.div_mul a b Hb) as Hq.
  pose proof (Z.mod_mul a b Hb) as Hr.
  unfold Z.div, Z.modulo in *.
  destruct (Z.div_eucl (a * b) b) as [q r]. by subst.
Qed.

(** A quotient of natural numbers that is a natural number is exact. *)
Lemma div_of_Z (c n : Z) :
  0 <= c -> 0 < n < 2 ^ 53 -> c * n < 2 ^ 53 ->
  DoubleOps.div (Double.of_Z (c * n)) (Double.of_Z n) = Double.of_Z c.
Proof.
  intros Hc [Hn Hn'] Hlt.
  destruct n as [|q|q]; try lia.
  destruct c as [|p|p]; [| |lia].
  { rewrite Z.mul_0_l, of_Z_pos by done. done. }
  assert (Hp : Z.pos p < 2 ^ 53) by nia.
  assert (Hq : Z.pos q < 2 ^ 53) by nia.
  change (Z.pos p * Z.pos q) with (Z.pos (p * q)) in *.
  rewrite !of_Z_pos by done.
  pose proof (digits2_le_53 p Hp) as Hdp.
  pose proof (digits2_le_53 q Hq) as Hdq.
  pose proof (digits2_le_53 (p * q) Hlt) as Hdx.
  pose proof (digits2_mono q (p * q) ltac:(nia)) as Hmq.
  pose proof (digits2_bounds p) as [Hplo Hphi].
  pose proof (digits2_bounds q) as [Hqlo Hqhi].
  pose proof (digits2_bounds (p * q)) as [Hxlo Hxhi].
  set (dp := Z.pos (digits2_pos p)) in *.
  set (dq := Z.pos (digits2_pos q)) in *.
  set (dx := Z.pos (digits2_pos (p * q))) in *.
  assert (Hdp1 : 1 <= dp) by (unfold dp; lia).
  assert (Hdq1 : 1 <= dq) by (unfold dq; lia).
  assert (Hdx1 : 1 <= dx) by (unfold dx; lia).
  assert (Hprod : dx <= dp + dq).
  { destruct (Z_le_gt_dec dx (dp + dq)) as [|Hgt]; [done|].
    assert (2 ^ (dp + dq) <= 2 ^ (dx - 1))
      by (apply Z.pow_le_mono_r; lia).
    rewrite Z.pow_add_r in * by lia. rewrite Pos2Z.inj_mul in *. nia. }
  assert (Hprod' : dp + dq - 1 <= dx).
  { destruct (Z_le_gt_dec (dp + dq - 1) dx) as [|Hgt]; [done|].
    assert (2 ^ dx <= 2 ^ (dp + dq - 2))
      by (apply Z.pow_le_mono_r; lia).
    replace (dp + dq - 2) with ((dp - 1) + (dq - 1)) in * by lia.
    rewrite Z.pow_add_r in * by lia. rewrite Pos2Z.inj_mul in *. nia. }
  unfold DoubleOps.div, SFdiv. simpl xorb.
  unfold SFdiv_core_binary. simpl Zdigits2.
  rewrite !mantissa53_digits by done.
  replace (53 + (dx - 53) - (53 + (dq - 53))) with (dx - dq) by lia.
  replace (dx - 53 - (dq - 53)) with (dx - dq) by lia.
  replace (IntDef.Z.min (fexp Double.prec Double.emax (dx - dq)) (dx - dq))
    with (dx - dq - 53)
    by (change IntDef.Z.min with Z.min;
        unfold fexp, emin, Double.prec, Double.emax; lia).
  replace (dx - dq - (dx - dq - 53)) with 53 by lia.
  cbv zeta.
  change (IntDef.Z.shiftl (Z.pos (Double.mantissa53 (p * q))) 53)
    with (Z.shiftl (Z.pos (Double.mantissa53 (p * q))) 53).
  rewrite Z.shiftl_mul_pow2 by lia.
  assert (Hquot : Z.pos (Double.mantissa53 (p * q)) * 2 ^ 53
                  = (Z.pos p * 2 ^ (53 - dx + dq))
                    * Z.pos (Double.mantissa53 q)).
  { rewrite !mantissa53_value by done. fold dx dq.
    rewrite Pos2Z.inj_mul.
    replace (53 - dx + dq) with ((53 - dx) + 53 - (53 - dq)) by lia.
    assert (Hsplit : 2 ^ (53 - dx + 53)
                     = 2 ^ (53 - dx + 53 - (53 - dq)) * 2 ^ (53 - dq)).
    { rewrite <- Z.pow_add_r by lia. f_equal. lia. }
    rewrite (Z.pow_add_r 2 (53 - dx) 53) in Hsplit by lia. nia. }
  change IntDef.Z.div_eucl with Z.div_eucl.
  rewrite Hquot, div_eucl_exact by done.
  change (new_location (Z.pos (Double.mantissa53 q)) 0) with loc_Exact
    || (unfold new_location, new_location_even, new_location_odd;
        simpl Z.eqb; destruct (IntDef.Z.even _)).
  all: assert (Hpow : 0 < 2 ^ (53 - dx + dq))
    by (apply Z.pow_pos_nonneg; lia).
  all: destruct (Z.pos p * 2 ^ (53 - dx + dq)) as [|S|S] eqn:HS; try lia.
  all: change (0 =? 0) with true; cbv iota.
  all: rewrite (binary_round_aux_exact S (Double.mantissa53 p)
                  (dp + dq - dx) (dx - dq - 53));
    [f_equal; lia|by apply mantissa53_digits|lia| |lia].
  all: rewrite <- HS, mantissa53_value by done; fold dp.
  all: rewrite <- Z.mul_assoc, <- Z.pow_add_r by lia.
  all: f_equal; f_equal; lia.
Qed.



Lemma mul_one_of_Z (q : Z) :
  0 <= q < 2 ^ 53 -> Double.mul Double.one (Double.of_Z q) = Double.of_Z q.
Proof.
  intros Hq. destruct q as [|p|p]; [done| |lia].
  rewrite of_Z_pos by lia.
  change Double.one with (S754_finite false 4503599627370496 (-52)).
  unfold Double.mul, SFmul. simpl xorb.
  pose proof (digits2_le_53 p ltac:(lia)) as Hd.
  assert (1 <= Z.pos (digits2_pos p)) by lia.
  rewrite (binary_round_aux_exact _ (Double.mantissa53 p) 52);
    [f_equal; lia|by apply mantissa53_digits; lia|lia| |lia].
  rewrite Pos2Z.inj_mul. change (2 ^ 52) with 4503599627370496. lia.
Qed.

Lemma round_of_Z (q : Z) :
  0 <= q < 2 ^ 53 -> Double.round (Double.of_Z q) = Double.of_Z q.
Proof.
  intros Hq. destruct q as [|p|p]; [done| |lia].
  rewrite of_Z_pos by lia.
  pose proof (digits2_le_53 p ltac:(lia)) as Hd.
  set (e := Z.pos (digits2_pos p) - 53).
  destruct (Z.eq_dec e 0) as [He|He].
  - unfold Double.round. by rewrite He.
  - assert (He' : e < 0) by lia.
    destruct (round_of_finite (Double.mantissa53 p) e He') as [Hr _].
    { pose proof (mantissa53_digits p ltac:(lia)) as Hm.
      pose proof (digits2_bounds (Double.mantissa53 p)) as [_ Hhi].
      by rewrite Hm in Hhi. }
    rewrite Hr. rewrite <- of_Z_pos by lia. f_equal.
    unfold Double.round_half_away. rewrite mantissa53_value by done.
    fold e. replace (53 - Z.pos (digits2_pos p)) with (- e) by lia.
    assert (Hpow : 2 ^ (- e) = 2 * 2 ^ (- e - 1)).
    { rewrite <- Z.pow_succ_r by lia. f_equal. lia. }
    assert (0 < 2 ^ (- e - 1)) by (apply Z.pow_pos_nonneg; lia).
    rewrite Z.add_comm, Z.div_add by lia.
    rewrite Z.div_small by lia. lia.
Qed.

(** ** More on the bad-alignment filter *)

Lemma binary_round_aux_sign (sx : bool) (mx ex : Z) (lx : location) :
  match binary_round_aux Double.prec Double.emax sx mx ex lx with
  | S754_finite s _ _ | S754_infinity s | S754_zero s => s = sx
  | S754_nan => True
  end.
Proof.
  unfold binary_round_aux.
  destruct (shr_fexp _ _ mx ex lx) as [mrs' e'].
  destruct (shr_fexp _ _ _ e' loc_Exact) as [mrs'' e''].
  destruct (shr_m mrs''); [done| |done].
  by destruct (e'' <=? _).
Qed.

Lemma binary_round_sign (sx : bool) (mx : positive) (ex : Z) :
  match binary_round Double.prec Double.emax sx mx ex with
  | S754_finite s _ _ | S754_infinity s | S754_zero s => s = sx
  | S754_nan => True
  end.
Proof.
  unfold binary_round. destruct (shl_align mx ex _) as [mz ez].
  apply binary_round_aux_sign.
Qed.

Lemma of_Z_sign_clear (n : Z) : 0 <= n -> sign_clear (Double.of_Z n) = true.
Proof.
  intros Hn. destruct n as [|p|p]; [done| |lia].
  unfold Double.of_Z, binary_normalize.
  pose proof (binary_round_sign false p 0) as Hs.
  destruct (binary_round _ _ false p 0); simpl in *; try done; by rewrite Hs.
Qed.

Lemma mul_sign_set (x y : double) :
  sign_set x = true -> sign_clear y = true ->
  sign_set (Double.mul x y) = true.
Proof.
  intros Hx Hy. unfold Double.mul, SFmul.
  destruct x as [sx|sx| |sx mx ex], y as [sy|sy| |sy my ey];
    simpl in *; try done.
  all: try (apply negb_true_iff in Hy; by subst).
  apply negb_true_iff in Hy. subst.
  pose proof (binary_round_aux_sign true (Z.pos (mx * my)) (ex + ey)
                loc_Exact) as Hs.
  destruct (binary_round_aux _ _ _ _ _ _); simpl in *; done.
Qed.

Lemma round_sign_set (x : double) :
  sign_set x = true -> sign_set (Double.round x) = true.
Proof.
  intros Hx. destruct x as [sx|sx| |sx mx ex]; try done.
  simpl in Hx. subst. unfold Double.round.
  destruct (0 <=? ex) eqn:He; [done|]. apply Z.leb_gt in He.
  set (q := (Z.pos mx + 2 ^ (- ex - 1)) / 2 ^ (- ex)).
  destruct (q =? 0) eqn:Hq; [done|]. apply Z.eqb_neq in Hq.
  assert (Hpos : 0 <= q).
  { apply Z.div_pos; [|apply Z.pow_pos_nonneg; lia].
    assert (0 <= 2 ^ (- ex - 1)) by (apply Z.pow_nonneg; lia). lia. }
  destruct q as [|p|p]; [done| |lia].
  unfold binary_normalize. rewrite Pos2Z.opp_pos.
  pose proof (binary_round_sign true p 0) as Hs.
  destruct (binary_round _ _ true p 0); simpl in *; done.
Qed.

Lemma ltb_signs (x y : double) :
  sign_clear x = true -> sign_set y = true -> Double.ltb x y = false.
Proof.
  intros Hx Hy. unfold Double.ltb, SFltb, SFcompare.
  destruct x as [sx|sx| |sx mx ex], y as [sy|sy| |sy my ey];
    simpl in *; try done.
  all: try apply negb_true_iff in Hx; by subst.
Qed.

Lemma not_positive_sign_set (x : double) :
  Double.ltb Double.zero x = false <-> sign_set x = true.
Proof. destruct x as [s|s| |s m e]; simpl; try done; by destruct s. Qed.

(** X1. A threshold fraction that is not positive (zero, negative or NaN)
    turns the filter off: whatever the read, and however much of it is
    clipped, it is not excluded and carries the empty reason. *)
Theorem filterRead_not_positive_threshold (self : BadAlign) (r : Read) :
  0 <= queryLength (mapping_of self r) ->
  Double.ltb Double.zero (bad_align_frac_ self) = false ->
  filterRead self r = (false, ""%string).
Proof.
  intros Hq Hfrac. apply not_positive_sign_set in Hfrac.
  unfold filterRead. fold (mapping_of self r).
  rewrite ltb_signs; [done| |].
  - apply of_Z_sign_clear. unfold wrap64.
    apply Z.mod_pos_bound. lia.
  - apply round_sign_set, mul_sign_set; [done|].
    by apply of_Z_sign_clear.
Qed.

(** X2. A threshold fraction of exactly one excludes a read as soon as one
    of its bases is clipped, and passes every read that is aligned in
    full. *)
Theorem filterRead_threshold_one (self : BadAlign) (r : Read) :
  mapping_wf (mapping_of self r) ->
  bad_align_frac_ self = Double.one ->
  (filterRead self r = (true, "bad_align"%string)
   <-> 0 < sum_clipped (alignments (mapping_of self r)))
  /\ (filterRead self r = (false, ""%string)
      <-> sum_clipped (alignments (mapping_of self r)) = 0).
Proof.
  intros Hwf Hone.
  pose proof (filterRead_unfold self r Hwf) as Heq. cbv zeta in Heq.
  destruct Hwf as (Hpos & Hle & Hlt).
  pose proof (sum_clipped_nonneg _ Hpos) as Hnn.
  set (mapping := mapping_of self r) in *.
  assert (Hthr : threshold_count (bad_align_frac_ self) (queryLength mapping)
                 = Double.of_Z (queryLength mapping)).
  { unfold threshold_count. rewrite Hone.
    rewrite mul_one_of_Z, round_of_Z by lia. done. }
  rewrite Heq, Hthr, ltb_of_Z by (unfold aligned_length; lia).
  unfold aligned_length.
  destruct (Z.ltb_spec (queryLength mapping
                        - sum_clipped (alignments mapping))
                       (queryLength mapping)).
  - split; split; intros E; first [done|lia|congruence].
  - split; split; intros E; first [done|lia|congruence].
Qed.

(** ** The constructor of the workflow *)

Lemma separateInputs_spec (inputPaths inputIndexPaths : list string)
  (i : nat) :
  separateInputs inputPaths inputIndexPaths i
  = if bool_decide (length inputPaths <= length (drop i inputIndexPaths))%nat
    then Some (separate_groups inputPaths (drop i inputIndexPaths))
    else None.
Proof.
  revert i. induction inputPaths as [|p ps IH]; intros i;
    simpl separateInputs.
  - rewrite bool_decide_eq_true_2 by (simpl; lia). done.
  - destruct (inputIndexPaths !! i) as [ip|] eqn:Hi.
    + rewrite IH. rewrite (drop_S _ _ _ Hi).
      repeat case_bool_decide; simpl in *; try lia; done.
    + apply lookup_ge_None in Hi.
      rewrite bool_decide_eq_false_2; [done|].
      rewrite length_drop. simpl. lia.
Qed.

Lemma all_units_length (W : Workflow) :
  length (all_units W)
  = (length (unprocessedInputs_ W) * length (graphSpecPaths_ W))%nat.
Proof.
  unfold all_units.
  transitivity (length (seq 0 (length (unprocessedInputs_ W)))
                * length (graphSpecPaths_ W))%nat;
    [|by rewrite length_seq].
  induction (seq 0 (length (unprocessedInputs_ W))) as [|k l IH]; [done|].
  rewrite bind_cons, length_app, length_fmap, length_seq, IH. done.
Qed.

(** X3. The constructor makes one group of all read sources when they are
    processed jointly, without comparing the two lists; processed
    separately, every read source becomes a group of its own with the
    index path at the same position, index paths beyond the read sources
    are ignored, and a missing index path makes the constructor throw.
    The workflow it returns has its mutex free, both flags clear and
    every cursor at the first graph-specification path, and as many units
    as groups times graph-specification paths. *)
Theorem Workflow_new_groups (jointInputs : bool)
  (inputPaths inputIndexPaths graph_spec_paths : list string)
  (output_file_path output_folder_path : string) (gzipOutput : bool)
  (parameters : Parameters) (reference_path target_regions : string) :
  let made :=
    Workflow_new jointInputs inputPaths inputIndexPaths graph_spec_paths
      output_file_path output_folder_path gzipOutput parameters
      reference_path target_regions in
  (made = None
   <-> jointInputs = false
       /\ (length inputIndexPaths < length inputPaths)%nat)
  /\ (forall W, made = Some W ->
        unprocessedInputs_ W
        = (if jointInputs then [mkInput inputPaths inputIndexPaths 0%nat]
           else separate_groups inputPaths inputIndexPaths)
        /\ length (unprocessedInputs_ W)
           = (if jointInputs then 1%nat else length inputPaths)
        /\ is_fresh W = true
        /\ graphSpecPaths_ W = graph_spec_paths
        /\ length (all_units W)
           = ((if jointInputs then 1 else length inputPaths)
              * length graph_spec_paths)%nat).
Proof.
  intros made. unfold made, Workflow_new.
  destruct jointInputs.
  - split; [split; [done|intros [? _]; done]|].
    intros W [= <-]. rewrite all_units_length. simpl.
    repeat split; lia.
  - rewrite separateInputs_spec, drop_0.
    case_bool_decide as Hlen; simpl.
    + split; [split; [done|intros [_ ?]; lia]|].
      intros W [= <-]. rewrite all_units_length. simpl.
      assert (Hl : length (separate_groups inputPaths inputIndexPaths)
                   = length inputPaths).
      { unfold separate_groups. rewrite length_zip_with. lia. }
      rewrite Hl. repeat split; try done.
      unfold is_fresh. simpl. apply forallb_forall. intros input Hin.
      apply list_elem_of_In in Hin. unfold separate_groups in Hin.
      apply list_elem_of_lookup_1 in Hin as [j Hj].
      apply lookup_zip_with_Some in Hj as (p & ip & -> & _ & _). done.
    + split; [split; [intros _; split; [done|lia]|done]|].
      intros W [=].
Qed.

(** ** More on processGraph *)

Lemma setBam_fails (inputPaths : list string) (outputJson : JsonValue) :
  setBam inputPaths outputJson = None
  <-> is_object_or_null outputJson = false.
Proof.
  split.
  - intros Hnone. destruct (is_object_or_null outputJson) eqn:Hobj; [|done].
    destruct (setBam_spec inputPaths outputJson Hobj) as (m & Hset & _).
    congruence.
  - intros Hobj. unfold setBam.
    destruct outputJson; try discriminate; simpl; by case_bool_decide.
Qed.

(** X4. [processGraph] throws exactly when the extraction from one of the
    readers throws, or alignment and disambiguation throw, or their
    result is neither an object nor null, so that the member "bam" cannot
    be set; the graph-specification path it is given does not enter the
    result. *)
Theorem processGraph_fails_iff (graphSpecPath : string)
  (parameters : Parameters) (inputPaths : list string)
  (readers : list BamReader) :
  let extracted :=
    foldlM (fun allReads reader => extractReads reader parameters allReads)
           [] readers in
  (processGraph graphSpecPath parameters inputPaths readers = None
   <-> extracted = None
       \/ exists allReads,
            extracted = Some allReads
            /\ (alignAndDisambiguate parameters allReads = None
                \/ exists outputJson,
                     alignAndDisambiguate parameters allReads
                     = Some outputJson
                     /\ is_object_or_null outputJson = false))
  /\ (forall other,
        processGraph other parameters inputPaths readers
        = processGraph graphSpecPath parameters inputPaths readers).
Proof.
  intros extracted. split; [|done].
  unfold processGraph. fold extracted.
  destruct extracted as [allReads|]; [|split; [by left|done]].
  destruct (alignAndDisambiguate parameters allReads) as [outputJson|] eqn:Ha.
  - pose proof (setBam_fails inputPaths outputJson) as Hs.
    destruct (setBam inputPaths outputJson) as [j|] eqn:Hset; simpl.
    + split; [done|].
      intros [?|(reads & [= <-] & [?|(j' & Hj' & Hobj)])];
        [done|congruence|].
      rewrite Ha in Hj'. injection Hj' as <-. apply Hs in Hobj. done.
    + split; [|done]. intros _. right. exists allReads. split; [done|].
      right. exists outputJson. split; [done|]. by apply Hs.
  - split; [|done]. intros _. right. exists allReads. split; [done|].
    by left.
Qed.

(** ** Opening the readers of a unit *)

(** X5. With an index path for every read source, the readers of a unit are
    opened one per read source, in the order of the read sources, each
    with the index path at the same position and the reference path of
    the workflow; opening them fails exactly when one of them fails to
    open. *)
Theorem openReaders_one_per_source (W : Workflow) (input : Input) :
  (length (inputPaths_ input) <= length (inputIndexPaths_ input))%nat ->
  (openReaders W input = None
   <-> exists i bamPath bamIndexPath,
         inputPaths_ input !! i = Some bamPath
         /\ inputIndexPaths_ input !! i = Some bamIndexPath
         /\ BamReader_opens bamPath bamIndexPath (referencePath_ W) = false)
  /\ (forall readers,
        openReaders W input = Some readers ->
        length readers = length (inputPaths_ input)
        /\ forall i bamPath bamIndexPath,
             inputPaths_ input !! i = Some bamPath ->
             inputIndexPaths_ input !! i = Some bamIndexPath ->
             readers !! i
             = Some (mkBamReader bamPath bamIndexPath (referencePath_ W))
               /\ BamReader_opens bamPath bamIndexPath (referencePath_ W)
                  = true).
Proof.
  intros Hlen. unfold openReaders.
  set (open := fun i : nat =>
         if BamReader_opens (inputPaths_ input !!! i)
                            (inputIndexPaths_ input !!! i) (referencePath_ W)
         then Some (mkBamReader (inputPaths_ input !!! i)
                                (inputIndexPaths_ input !!! i)
                                (referencePath_ W))
         else None).
  split.
  - split.
    + intros Hnone.
      destruct (decide (Forall (fun i => is_Some (open i))
                               (seq 0 (length (inputPaths_ input)))))
        as [Hall|Hex].
      * apply mapM_is_Some in Hall as [readers Hr]. congruence.
      * apply not_Forall_Exists in Hex; [|apply _].
        apply Exists_exists in Hex as (i & Hi & Hno).
        apply elem_of_seq in Hi.
        destruct (lookup_lt_is_Some_2 (inputPaths_ input) i) as [p Hp];
          [lia|].
        destruct (lookup_lt_is_Some_2 (inputIndexPaths_ input) i)
          as [ip Hip]; [lia|].
        exists i, p, ip. split; [done|]. split; [done|].
        unfold open, compose in Hno. cbv beta in Hno.
        rewrite (list_lookup_total_correct _ _ _ Hp) in Hno.
        rewrite (list_lookup_total_correct _ _ _ Hip) in Hno.
        destruct (BamReader_opens p ip (referencePath_ W)); [|done].
        exfalso. apply Hno. by eexists.
    + intros (i & p & ip & Hp & Hip & Hno).
      destruct (mapM open (seq 0 (length (inputPaths_ input))))
        as [readers|] eqn:Hr; [|done].
      exfalso.
      assert (Hs : is_Some (mapM open (seq 0 (length (inputPaths_ input)))))
        by (by eexists).
      apply mapM_is_Some in Hs. rewrite Forall_forall in Hs.
      destruct (Hs i) as [reader Hreader].
      { apply elem_of_seq. apply lookup_lt_Some in Hp. lia. }
      unfold open in Hreader.
      rewrite (list_lookup_total_correct _ _ _ Hp) in Hreader.
      rewrite (list_lookup_total_correct _ _ _ Hip) in Hreader.
      by rewrite Hno in Hreader.
  - intros readers Hr. apply mapM_Some in Hr.
    pose proof (Forall2_length _ _ _ Hr) as Hl. rewrite length_seq in Hl.
    split; [done|]. intros i p ip Hp Hip.
    assert (Hi : seq 0 (length (inputPaths_ input)) !! i = Some i).
    { apply lookup_seq. apply lookup_lt_Some in Hp. split; [done|lia]. }
    destruct (Forall2_lookup_l _ _ _ _ _ Hr Hi) as (reader & Hreader & Ho).
    unfold open in Ho.
    rewrite (list_lookup_total_correct _ _ _ Hp) in Ho.
    rewrite (list_lookup_total_correct _ _ _ Hip) in Ho.
    destruct (BamReader_opens p ip (referencePath_ W)); [|done].
    injection Ho as <-. done.
Qed.

(** ** More on the worker pool *)

(** *** The aggregated stream is only appended to *)

Lemma stream_write_content (os : ostream) (x : string) :
  content (stream_write os x)
  = (content os +:+ (if failed os then "" else x))%string.
Proof.
  unfold stream_write. destruct (failed os); simpl; [|done].
  by rewrite string_app_empty_r.
Qed.

Lemma aggregate_step (s : system) (w : nat) (s' : system) :
  step w s = Some s' ->
  exists x, content (aggregate s') = (content (aggregate s) +:+ x)%string.
Proof.
  intros Hstep. step_cases Hstep; simpl.
  all: try (exists ""%string; by rewrite string_app_empty_r).
  all: unfold dumpOutput in *.
  all: repeat match goal with
         | Hd : (if ?b then _ else _) = _ |- _ => destruct b eqn:?
         end; simplify_eq; simpl.
  all: destruct (firstPrinted_ (wf s)).
  all: rewrite !stream_write_content, <- ?string_app_assoc; by eexists.
Qed.

Lemma trace_step (s : system) (w : nat) (s' : system) :
  step w s = Some s' -> exists e, trace s' = trace s ++ [e].
Proof. intros Hstep. step_cases Hstep; simpl; by eexists. Qed.

Lemma aggregate_exec (s : system) (sched : list nat) :
  exists x,
    content (aggregate (exec sched s)) = (content (aggregate s) +:+ x)%string.
Proof.
  apply (exec_invariant
           (fun s' => exists x, content (aggregate s')
                                = (content (aggregate s) +:+ x)%string)).
  - exists ""%string. by rewrite string_app_empty_r.
  - intros s1 w s2 [x Hx] Hstep.
    destruct (aggregate_step _ _ _ Hstep) as [y Hy].
    exists (x +:+ y)%string. by rewrite Hy, Hx, string_app_assoc.
Qed.

Lemma trace_exec (s : system) (sched : list nat) :
  exists t, trace (exec sched s) = trace s ++ t.
Proof.
  apply (exec_invariant (fun s' => exists t, trace s' = trace s ++ t)).
  - exists []. by rewrite app_nil_r.
  - intros s1 w s2 [t Ht] Hstep.
    destruct (trace_step _ _ _ Hstep) as [e He].
    exists (t ++ [e]). by rewrite He, Ht, app_assoc.
Qed.

(** *** Without an aggregated output path *)

Lemma quiet_step (s : system) (w : nat) (s' : system) :
  step w s = Some s' -> is_empty (outputFilePath_ (wf s)) = true ->
  aggregate s' = aggregate s
  /\ firstPrinted_ (wf s') = firstPrinted_ (wf s)
  /\ emitted (trace s') = emitted (trace s).
Proof.
  intros Hstep Hq. step_cases Hstep; trace_snoc; simpl; try done.
  all: congruence.
Qed.

Lemma quiet_exec (s : system) (sched : list nat) :
  is_empty (outputFilePath_ (wf s)) = true ->
  aggregate (exec sched s) = aggregate s
  /\ firstPrinted_ (wf (exec sched s)) = firstPrinted_ (wf s)
  /\ emitted (trace (exec sched s)) = emitted (trace s).
Proof.
  intros Hq.
  enough (static (wf (exec sched s)) = static (wf s)
          /\ aggregate (exec sched s) = aggregate s
          /\ firstPrinted_ (wf (exec sched s)) = firstPrinted_ (wf s)
          /\ emitted (trace (exec sched s)) = emitted (trace s)) by tauto.
  apply (exec_invariant
           (fun s' => static (wf s') = static (wf s)
                      /\ aggregate s' = aggregate s
                      /\ firstPrinted_ (wf s') = firstPrinted_ (wf s)
                      /\ emitted (trace s') = emitted (trace s))).
  - done.
  - intros s1 w s2 (Hst & Ha & Hf & He) Hstep.
    assert (Hq1 : is_empty (outputFilePath_ (wf s1)) = true)
      by (by rewrite (outputFilePath_static _ _ Hst)).
    destruct (quiet_step _ _ _ Hstep Hq1) as (Ha' & Hf' & He').
    rewrite (static_step _ _ _ Hstep). repeat split; congruence.
Qed.

(** *** Completed runs and progress *)

Lemma completed_mutex (W0 : Workflow) (s : system) :
  Inv W0 s -> all_done s = true -> mutex_ (wf s) = None.
Proof.
  intros Hinv Hd. destruct (mutex_ (wf s)) as [w|] eqn:E; [|done].
  apply (inv_mutex _ _ Hinv) in E as (p & Hp & Hh).
  unfold all_done in Hd. rewrite forallb_forall in Hd.
  apply list_elem_of_lookup_2, list_elem_of_In, Hd in Hp.
  by destruct p.
Qed.

Lemma moves_measure (W0 : Workflow) (sched : list nat) (s : system) :
  Inv W0 s -> (moves sched s + measure (exec sched s) <= measure s)%nat.
Proof.
  revert s. induction sched as [|w sched IH]; intros s Hinv; simpl.
  - lia.
  - unfold sched_step. destruct (step w s) as [s'|] eqn:E; simpl.
    + pose proof (measure_step _ _ _ _ Hinv E).
      pose proof (IH s' (Inv_step _ _ _ _ Hinv E)). lia.
    + by apply IH.
Qed.

Lemma remaining_fresh (W : Workflow) :
  is_fresh W = true ->
  remaining W
  = (length (unprocessedInputs_ W) * length (graphSpecPaths_ W))%nat.
Proof.
  intros Hf. unfold is_fresh in Hf.
  apply andb_true_iff in Hf as [_ Hf]. unfold remaining.
  induction (unprocessedInputs_ W) as [|input l IH]; [done|].
  simpl in Hf. apply andb_true_iff in Hf as [H0 Hf].
  apply Nat.eqb_eq in H0. csimpl. rewrite IH by done. rewrite H0. lia.
Qed.

Lemma sum_list_replicate (n x : nat) :
  sum_list (replicate n x) = (n * x)%nat.
Proof. induction n as [|n IH]; simpl; lia. Qed.

Lemma measure_start (W : Workflow) (fs : gmap string string) (s0 : system) :
  is_fresh W = true -> run_start W fs = Ok s0 ->
  measure s0
  = (8 * (length (unprocessedInputs_ W) * length (graphSpecPaths_ W))
     + Parameters_threads (parameters_ W)
       * (8 * length (unprocessedInputs_ W) + 10))%nat.
Proof.
  intros Hf Hs. destruct (run_start_workers _ _ _ Hs) as (HW & _ & _ & Hw & _).
  unfold measure. rewrite Hw, HW, remaining_fresh by done.
  rewrite fmap_replicate, sum_list_replicate. simpl. lia.
Qed.

(** *** The per-unit files *)










(** *** A pool of one worker *)

Lemma units_before_claim (W : Workflow) (k c : nat) :
  units_before W k (S c) = units_before W k c ++ [(k, c)].
Proof.
  unfold units_before. rewrite seq_S, fmap_app. simpl.
  by rewrite app_assoc.
Qed.

Lemma units_before_next (W : Workflow) (k : nat) :
  units_before W (S k) 0 = units_before W k (length (graphSpecPaths_ W)).
Proof.
  unfold units_before. rewrite seq_S, bind_app. simpl.
  by rewrite !app_nil_r.
Qed.

Lemma units_before_all (W : Workflow) :
  units_before W (length (unprocessedInputs_ W)) 0 = all_units W.
Proof. unfold units_before, all_units. simpl. by rewrite app_nil_r. Qed.

Lemma single_step (W0 : Workflow) (s : system) (w : nat) (s' : system) :
  Inv W0 s -> single_inv W0 s -> step w s = Some s' -> single_inv W0 s'.
Proof.
  intros Hinv Hold Hstep Ht'.
  pose proof (terminate_step _ _ _ Hstep) as Hmono.
  assert (Ht : terminate_ (wf s) = false).
  { destruct (terminate_ (wf s)); [|done]. by rewrite Hmono in Ht'. }
  destruct (Hold Ht) as (p & Hw & Hg & Hc & Hz & Hf). clear Hold Hmono.
  pose proof (inv_good _ _ Hinv) as Hgood.
  pose proof (static_length _ _ (inv_static _ _ Hinv)) as HK.
  pose proof (graphSpecPaths_static _ _ (inv_static _ _ Hinv)) as HN.
  pose proof (inv_pc _ _ Hinv) as Hpcs.
  assert (Hw0 : w = 0%nat).
  { unfold step in Hstep. rewrite Hw in Hstep.
    destruct w as [|w]; [done|]. simpl in Hstep. discriminate. }
  subst w.
  assert (Hp : workers s !! 0%nat = Some p) by (by rewrite Hw).
  destruct (Hpcs _ _ Hp) as [Hok _]. clear Hpcs Hinv.
  step_cases Hstep.
  all: rewrite Hw in Hpc; simpl in Hpc; injection Hpc as ->.
  all: norm_stream; simplify_eq.
  all: simpl in Ht'; rewrite ?orb_true_r, ?orb_false_r in Ht'; try discriminate.
  all: eexists; split; [simpl; rewrite Hw; reflexivity|].
  all: trace_snoc; simpl in *.
  all: unfold cursor_of in *; simpl in *.
  all: try done.
  - apply lookup_ge_None in Heqo.
    assert (k = length (unprocessedInputs_ (wf s))) as <- by lia.
    rewrite (proj2 (lookup_ge_None _ _) Heqo) in *. simpl in *.
    repeat split; try done.
  - rewrite list_lookup_insert_eq by (by eapply lookup_lt_Some).
    simpl. rewrite units_before_claim.
    rewrite Heqo in Hc. simpl in Hc. rewrite <- Hc, <- Hf.
    repeat split; try done.
    intros k0 Hk0. rewrite list_lookup_insert_ne by lia. by apply Hz.
  - match goal with Hb : bool_decide _ = false |- _ =>
      apply bool_decide_eq_false in Hb; apply dec_stable in Hb end.
    rewrite Heqo in Hc. simpl in Hc.
    rewrite (Hz (S k)) by lia. rewrite units_before_next.
    apply lookup_lt_Some in Heqo.
    repeat split; try done; [lia|congruence|].
    intros k0 Hk0. apply Hz. lia.
Qed.

Lemma single_exec (W : Workflow) (fs : gmap string string) (s0 : system)
  (sched : list nat) :
  is_fresh W = true -> run_start W fs = Ok s0 ->
  Parameters_threads (parameters_ W) = 1%nat ->
  single_inv W (exec sched s0).
Proof.
  intros Hfresh Hs Hone.
  enough (Inv W (exec sched s0) /\ single_inv W (exec sched s0)) by tauto.
  apply (exec_invariant (fun s => Inv W s /\ single_inv W s)).
  - split; [by eapply Inv_init|]. intros _.
    destruct (run_start_workers _ _ _ Hs) as (HW & Ht & _ & Hw & _).
    destruct (is_fresh_spec _ Hfresh) as (_ & _ & _ & Hcur).
    exists (PFor 0). rewrite Hw, Hone, HW, Ht. simpl.
    rewrite !Hcur. repeat split; try done. lia.
  - intros s w s' [Hinv Hsingle] Hstep.
    split; [by eapply Inv_step|by eapply single_step].
Qed.

Lemma run_finish_content (W0 : Workflow) (s : system) :
  Inv W0 s -> is_empty (outputFilePath_ W0) = false ->
  content (aggregate (run_finish s))
  = frame (bool_decide (1 < length (graphSpecPaths_ W0))%nat)
          (String.concat "," (emitted_outputs (trace s))).
Proof.
  intros Hinv Hconf.
  assert (Hframed0 : framed W0
                     = bool_decide (1 < length (graphSpecPaths_ W0))%nat).
  { unfold framed. by rewrite Hconf. }
  assert (Hframed : framed (wf s) = framed W0).
  { unfold framed.
    rewrite (outputFilePath_static _ _ (inv_static _ _ Hinv)).
    by rewrite (graphSpecPaths_static _ _ (inv_static _ _ Hinv)). }
  simpl. rewrite Hframed, <- Hframed0. unfold frame.
  destruct (framed W0) eqn:Hb.
  - rewrite stream_write_good by apply (inv_good _ _ Hinv). simpl.
    rewrite (inv_stream _ _ Hinv), Hb.
    by rewrite <- string_app_assoc.
  - by rewrite (inv_stream _ _ Hinv), Hb.
Qed.

(** ** Further properties of the worker pool *)

(** X6. The aggregated stream is append-only: whatever a worker step or a
    whole schedule does, in any state, what has been written to the
    stream stays there as a prefix of its content, and the history of the
    pool only grows. *)
Theorem aggregate_is_append_only (s : system) (sched : list nat) :
  (exists x, content (aggregate (exec sched s))
             = (content (aggregate s) +:+ x)%string)
  /\ (exists t, trace (exec sched s) = trace s ++ t)
  /\ (forall w s', step w s = Some s' ->
        exists x e, content (aggregate s')
                    = (content (aggregate s) +:+ x)%string
                    /\ trace s' = trace s ++ [e]).
Proof.
  split; [apply aggregate_exec|]. split; [apply trace_exec|].
  intros w s' Hstep.
  destruct (aggregate_step _ _ _ Hstep) as [x Hx].
  destruct (trace_step _ _ _ Hstep) as [e He]. by exists x, e.
Qed.

(** X7. Without an aggregated output path the run always starts, and nothing
    is ever written to the aggregated stream: no item, no separator and
    no framing token, under every schedule and at the end of the run; the
    first-item flag is never set. *)
Theorem no_aggregate_path_writes_nothing (W : Workflow)
  (fs : gmap string string) :
  is_empty (outputFilePath_ W) = true ->
  exists s0,
    run_start W fs = Ok s0
    /\ (forall sched,
          content (aggregate (exec sched s0)) = ""%string
          /\ content (aggregate (run_finish (exec sched s0))) = ""%string
          /\ firstPrinted_ (wf (exec sched s0)) = firstPrinted_ W
          /\ emitted (trace (exec sched s0)) = []).
Proof.
  intros Hq. unfold run_start, openAggregate. rewrite Hq.
  eexists. split; [reflexivity|]. intros sched.
  set (s0 := {| wf := W |}).
  destruct (quiet_exec s0 sched Hq) as (Ha & Hf & He).
  assert (Hframed : framed W = false) by (unfold framed; by rewrite Hq).
  assert (Hst : static (wf (exec sched s0)) = static W).
  { apply (exec_invariant (fun s => static (wf s) = static W)); [done|].
    intros s w s' Hs Hstep. by rewrite (static_step _ _ _ Hstep). }
  assert (Hframed' : framed (wf (exec sched s0)) = false).
  { unfold framed. by rewrite (outputFilePath_static _ _ Hst), Hq. }
  unfold run_finish. simpl. rewrite Hframed', Ha, Hf, He.
  unfold s0. simpl. by rewrite Hframed.
Qed.






(** X10. When all workers have returned the mutex is free, and no unit is
    left in flight. *)
Theorem completed_run_releases_mutex (W : Workflow)
  (fs : gmap string string) (s0 : system) (sched : list nat) :
  is_fresh W = true -> run_start W fs = Ok s0 ->
  all_done (exec sched s0) = true ->
  mutex_ (wf (exec sched s0)) = None /\ inflight (exec sched s0) = [].
Proof.
  intros Hfresh Hs Hd.
  pose proof (Inv_exec W fs s0 sched Hfresh Hs) as Hinv.
  split; [by eapply completed_mutex|].
  by apply all_done_omap.
Qed.

(** X11. The pool cannot deadlock: in every state that a schedule reaches, as
    long as some worker has not returned, some worker can take a step;
    the worker that holds the mutex can always take a step; and whenever
    a worker that has not returned cannot take a step, another worker
    holds the mutex. *)
Theorem pool_never_deadlocks (W : Workflow) (fs : gmap string string)
  (s0 : system) (sched : list nat) :
  is_fresh W = true -> run_start W fs = Ok s0 ->
  let s := exec sched s0 in
  (all_done s = false -> exists w s', step w s = Some s')
  /\ (forall w, mutex_ (wf s) = Some w -> is_Some (step w s))
  /\ (forall w p, workers s !! w = Some p -> p <> PDone ->
                  step w s = None ->
                  exists w', w' <> w /\ mutex_ (wf s) = Some w').
Proof.
  intros Hfresh Hs s.
  pose proof (Inv_exec W fs s0 sched Hfresh Hs) as Hinv. fold s in Hinv.
  split; [|split].
  - intros Hd. destruct (not_all_done _ Hd) as (w & p & Hp & Hne).
    by eapply worker_can_step.
  - intros w Hm. apply (inv_mutex _ _ Hinv) in Hm as (p & Hp & Hh).
    by eapply holder_can_step.
  - intros w p Hp Hne Hnone.
    destruct (mutex_ (wf s)) as [w'|] eqn:Hm.
    + exists w'. split; [|done]. intros ->.
      apply (inv_mutex _ _ Hinv) in Hm as (p' & Hp' & Hh).
      destruct (holder_can_step _ _ _ _ Hinv Hp' Hh) as [s' Hs'].
      congruence.
    + exfalso.
      destruct (decide (holding p = true)) as [Hh|Hh].
      * assert (mutex_ (wf s) = Some w) by (apply (inv_mutex _ _ Hinv); eauto).
        congruence.
      * pose proof (proj1 (inv_pc _ _ Hinv w p Hp)) as Hok.
        pose proof (graphSpecPaths_static _ _ (inv_static _ _ Hinv)) as HN.
        unfold step in Hnone. rewrite Hp in Hnone.
        destruct p as [k|k|k i|k i r|k i o|k i o f|k i o|];
          simpl in *; try done.
        -- destruct (unprocessedInputs_ (wf s) !! k); [|done].
           by rewrite Hm in Hnone.
        -- destruct Hok as [Hk Hi].
           destruct (lookup_lt_is_Some_2 _ _ Hk) as [input Hin].
           rewrite Hin in Hnone.
           pose proof (inv_cursor _ _ Hinv k) as Hc. rewrite <- HN in Hc.
           destruct (lookup_lt_is_Some_2 (graphSpecPaths_ (wf s)) i)
             as [g Hg]; [lia|].
           rewrite Hg in Hnone. by destruct (unitStage _ _ _ _).
        -- destruct Hok as [Hk Hi].
           pose proof (inv_cursor _ _ Hinv k) as Hc. rewrite <- HN in Hc.
           destruct (lookup_lt_is_Some_2 (graphSpecPaths_ (wf s)) i)
             as [g Hg]; [lia|].
           rewrite Hg in Hnone. destruct (is_empty _); [done|].
           by destruct (makeOutputFile _ _ _ _).
        -- by rewrite Hm in Hnone.
Qed.

(** X12. Every run is finite: whatever the schedule, the workers take at most
    [8 * K * N + T * (8 * K + 10)] steps in all, for [K] read-source
    groups, [N] graph-specification paths and [T] workers. *)
Theorem moves_are_bounded (W : Workflow) (fs : gmap string string)
  (s0 : system) (sched : list nat) :
  is_fresh W = true -> run_start W fs = Ok s0 ->
  (moves sched s0
   <= 8 * (length (unprocessedInputs_ W) * length (graphSpecPaths_ W))
      + Parameters_threads (parameters_ W)
        * (8 * length (unprocessedInputs_ W) + 10))%nat.
Proof.
  intros Hfresh Hs.
  pose proof (moves_measure W sched s0 (Inv_init _ _ _ Hfresh Hs)).
  rewrite (measure_start _ _ _ Hfresh Hs) in *. lia.
Qed.


(** X14. A pool of one worker processes the units in order: when the run has
    completed and the flag is not set, the aggregated output holds the
    outputs of all units group by group, and within a group in the order
    of the graph-specification paths, whatever the schedule. *)
Theorem single_worker_emits_in_order (W : Workflow)
  (fs : gmap string string) (sched : list nat) (s : system) :
  is_fresh W = true -> Parameters_threads (parameters_ W) = 1%nat ->
  is_empty (outputFilePath_ W) = false ->
  run W fs sched = Some s -> terminate_ (wf s) = false ->
  emitted_units (trace s) = all_units W
  /\ content (aggregate s)
     = frame (bool_decide (1 < length (graphSpecPaths_ W))%nat)
         (String.concat ","
            ((fun u : nat * nat => unit_output W u.1 u.2) <$> all_units W)).
Proof.
  intros Hfresh Hone Hconf Hrun Ht.
  destruct (run_inv _ _ _ _ Hrun) as (s0 & Hs & Hd & ->).
  pose proof (Inv_exec W fs s0 sched Hfresh Hs) as Hinv.
  pose proof (single_exec W fs s0 sched Hfresh Hs Hone) as Hsingle.
  set (s1 := exec sched s0) in *. simpl in Ht.
  destruct (Hsingle Ht) as (p & Hw & _ & Hc & _ & Hf).
  assert (p = PDone) as ->.
  { unfold all_done in Hd. rewrite Hw in Hd. simpl in Hd. by destruct p. }
  simpl in Hc, Hf. rewrite app_nil_r in Hf.
  assert (Hunits : emitted_units (trace s1) = all_units W).
  { rewrite <- (inv_emit _ _ Hinv Hconf), <- Hf, Hc.
    rewrite (static_length _ _ (inv_static _ _ Hinv)).
    unfold cursor_of.
    rewrite (proj2 (lookup_ge_None _ _)); [apply units_before_all|].
    rewrite (static_length _ _ (inv_static _ _ Hinv)). lia. }
  split; [done|].
  rewrite (run_finish_content _ _ Hinv Hconf). f_equal. f_equal.
  unfold emitted_outputs. rewrite (emitted_unit_output _ _ Hinv).
  rewrite <- list_fmap_compose. fold (emitted_units (trace s1)).
  by rewrite Hunits.
Qed.

End Properties.

(** * Properties of the basic statistics *)

Section BasicsProperties.

Variable pow : double -> double -> double.

Lemma sort_Permutation (nums : list Z) : sort nums ≡ₚ nums.
Proof. apply merge_sort_Permutation. Qed.

Lemma sort_sorted (nums : list Z) : StronglySorted Z.le (sort nums).
Proof. apply StronglySorted_merge_sort; apply _. Qed.

Lemma sort_perm_eq (nums nums' : list Z) :
  nums ≡ₚ nums' -> sort nums = sort nums'.
Proof.
  intros Hp. apply (StronglySorted_unique Z.le); try apply sort_sorted.
  by rewrite !sort_Permutation.
Qed.

Lemma sort_length (nums : list Z) : length (sort nums) = length nums.
Proof. apply Permutation_length, sort_Permutation. Qed.

Lemma sort_singleton (x : Z) : sort [x] = [x].
Proof. reflexivity. Qed.


Lemma median_unfold (nums : list Z) :
  median nums
  = let nums_copy := sort nums in
    let size := length nums in
    if bool_decide (size `mod` 2 ≠ 0)%nat then
      Double.of_Z <$> nums_copy !! (size / 2)%nat
    else if bool_decide (size = 0%nat) then None
    else
      match nums_copy !! (size / 2 - 1)%nat, nums_copy !! (size / 2)%nat with
      | Some lower, Some upper =>
          Some (DoubleOps.div
                  (DoubleOps.add (Double.of_Z lower) (Double.of_Z upper))
                  (Double.of_Z 2))
      | _, _ => None
      end.
Proof.
  unfold median. rewrite sort_length. cbv zeta.
  case_bool_decide as Hone; [|done].
  destruct nums as [|x [|y nums]]; try discriminate. reflexivity.
Qed.

Lemma filter_none {A : Type} (P : A -> Prop) `{forall x, Decision (P x)}
  (l : list A) :
  Forall (fun x => ~ P x) l -> filter P l = [].
Proof.
  induction 1 as [|x l Hx Hl IH]; [done|].
  rewrite filter_cons. by destruct (decide (P x)).
Qed.

(** In a sorted list, fewer than [i + 1] elements are below the element
    at index [i], and only elements behind it are above it. *)
Lemma sorted_rank (l : list Z) (i : nat) (x : Z) :
  StronglySorted Z.le l -> l !! i = Some x ->
  (length (filter (fun y : Z => (y < x)%Z) l) <= i)%nat
  /\ (length (filter (fun y : Z => (x < y)%Z) l) <= length l - S i)%nat.
Proof.
  intros Hs Hi. pose proof (lookup_lt_Some _ _ _ Hi) as Hlt.
  rewrite <- (take_drop_middle _ _ _ Hi) in Hs |- *.
  apply StronglySorted_app in Hs as (Hle & _ & Hr).
  apply StronglySorted_cons in Hr as [Hx _].
  rewrite !filter_app, !length_app. split.
  - rewrite (filter_none (fun y : Z => (y < x)%Z) (x :: drop (S i) l)).
    + simpl. rewrite Nat.add_0_r. etrans; [apply length_filter|].
      rewrite length_take. lia.
    + constructor; [lia|]. eapply Forall_impl; [exact Hx|]. simpl. lia.
  - rewrite (filter_none (fun y : Z => (x < y)%Z) (take i l)).
    + rewrite filter_cons. destruct (decide (x < x)); [lia|].
      simpl. etrans; [apply length_filter|].
      rewrite length_take, length_drop. simpl. lia.
    + apply Forall_forall. intros y Hy.
      assert (y <= x); [|lia]. apply (Hle y x Hy). by left.
Qed.

Lemma sort_rank (nums : list Z) (i : nat) (x : Z) :
  sort nums !! i = Some x ->
  x ∈ nums
  /\ (length (filter (fun y : Z => (y < x)%Z) nums) <= i)%nat
  /\ (length (filter (fun y : Z => (x < y)%Z) nums) <= length nums - S i)%nat.
Proof.
  intros Hi. split.
  - rewrite <- (sort_Permutation nums). by eapply list_elem_of_lookup_2.
  - destruct (sorted_rank _ _ _ (sort_sorted nums) Hi) as [Hlo Hhi].
    rewrite sort_length in Hhi.
    by rewrite <- !(Permutation_length
                      (filter_Permutation _ _ _ (sort_Permutation nums))).
Qed.

Lemma sort_lookup_le (nums : list Z) (i j : nat) (x y : Z) :
  sort nums !! i = Some x -> sort nums !! j = Some y -> (i <= j)%nat ->
  x <= y.
Proof.
  intros Hi Hj Hij. destruct (decide (i = j)) as [->|Hne].
  - rewrite Hi in Hj. injection Hj as ->. lia.
  - pose proof (sort_sorted nums) as Hs.
    rewrite <- (take_drop_middle _ _ _ Hi) in Hs, Hj.
    apply StronglySorted_app in Hs as (_ & _ & Hr).
    apply StronglySorted_cons in Hr as [Hx _].
    pose proof (lookup_lt_Some _ _ _ Hi) as Hlt.
    rewrite lookup_app_r in Hj by (rewrite length_take; lia).
    rewrite length_take, Nat.min_l in Hj by lia.
    destruct (j - i)%nat as [|d] eqn:E; [lia|]. simpl in Hj.
    rewrite Forall_forall in Hx. apply Hx.
    by eapply list_elem_of_lookup_2.
Qed.

(** X15. The median does not depend on the order of the container, and it is
    undefined exactly for the empty container. *)
Theorem median_order_independent (nums : list Z) :
  (median nums = None <-> nums = [])
  /\ (forall nums', nums ≡ₚ nums' -> median nums = median nums').
Proof.
  split.
  - rewrite median_unfold. cbv zeta. split.
    + intros Hm. destruct nums as [|x nums]; [done|]. exfalso.
      assert (Hlt : (length (x :: nums) / 2 < length (sort (x :: nums)))%nat).
      { rewrite sort_length. apply Nat.div_lt; simpl; lia. }
      destruct (lookup_lt_is_Some_2 _ _ Hlt) as [upper Hu].
      rewrite Hu in Hm.
      case_bool_decide; [done|]. case_bool_decide; [done|].
      assert (Hlt' : (length (x :: nums) / 2 - 1
                      < length (sort (x :: nums)))%nat) by lia.
      destruct (lookup_lt_is_Some_2 _ _ Hlt') as [lower Hl].
      by rewrite Hl in Hm.
    + intros ->. reflexivity.
  - intros nums' Hp. rewrite !median_unfold.
    by rewrite (sort_perm_eq _ _ Hp), (Permutation_length Hp).
Qed.

(** X16. The median is the middle order statistic.  For [2 n + 1] elements
    it is an element of the container with at most [n] elements below it
    and at most [n] above it.  For [2 n + 2] elements it is the sum of
    two elements, halved in double arithmetic: the lower has at most [n]
    elements below it, the upper at most [n] above it; when the two are
    natural numbers with an even sum below [2^53], nothing is rounded and
    the median is half their sum. *)
Theorem median_is_middle (nums : list Z) (n : nat) :
  (length nums = (2 * n + 1)%nat ->
   exists x,
     median nums = Some (Double.of_Z x)
     /\ x ∈ nums
     /\ (length (filter (fun y : Z => (y < x)%Z) nums) <= n)%nat
     /\ (length (filter (fun y : Z => (x < y)%Z) nums) <= n)%nat)
  /\ (length nums = (2 * n + 2)%nat ->
      exists lower upper,
        median nums
        = Some (DoubleOps.div
                  (DoubleOps.add (Double.of_Z lower) (Double.of_Z upper))
                  (Double.of_Z 2))
        /\ lower <= upper /\ lower ∈ nums /\ upper ∈ nums
        /\ (length (filter (fun y : Z => (y < lower)%Z) nums) <= n)%nat
        /\ (length (filter (fun y : Z => (upper < y)%Z) nums) <= n)%nat
        /\ (forall c, 0 <= lower -> lower + upper < 2 ^ 53 ->
                      lower + upper = c * 2 ->
                      median nums = Some (Double.of_Z c))).
Proof.
  split; intros Hlen; rewrite median_unfold; cbv zeta; rewrite Hlen.
  - replace ((2 * n + 1) `mod` 2)%nat with 1%nat
      by (rewrite Nat.add_comm, Nat.mul_comm, Nat.Div0.mod_add; done).
    replace ((2 * n + 1) / 2)%nat with n
      by (rewrite Nat.add_comm, Nat.mul_comm, Nat.div_add by lia; done).
    rewrite bool_decide_eq_true_2 by done.
    assert (Hlt : (n < length (sort nums))%nat) by (rewrite sort_length; lia).
    destruct (lookup_lt_is_Some_2 _ _ Hlt) as [x Hx].
    rewrite Hx. exists x. split; [done|].
    destruct (sort_rank _ _ _ Hx) as (Hin & Hlo & Hhi).
    repeat split; try done. lia.
  - replace ((2 * n + 2) `mod` 2)%nat with 0%nat
      by (replace (2 * n + 2)%nat with (0 + (n + 1) * 2)%nat by lia;
          rewrite Nat.Div0.mod_add; done).
    replace ((2 * n + 2) / 2)%nat with (S n)
      by (replace (2 * n + 2)%nat with (0 + (n + 1) * 2)%nat by lia;
          rewrite Nat.div_add by lia; simpl; lia).
    rewrite bool_decide_eq_false_2 by (intros Hne; by apply Hne).
    rewrite bool_decide_eq_false_2 by lia.
    replace (S n - 1)%nat with n by lia.
    assert (Hlt : (n < length (sort nums))%nat) by (rewrite sort_length; lia).
    assert (Hlt' : (S n < length (sort nums))%nat)
      by (rewrite sort_length; lia).
    destruct (lookup_lt_is_Some_2 _ _ Hlt) as [lower Hl].
    destruct (lookup_lt_is_Some_2 _ _ Hlt') as [upper Hu].
    rewrite Hl, Hu. exists lower, upper. split; [done|].
    destruct (sort_rank _ _ _ Hl) as (Hin & Hlo & _).
    destruct (sort_rank _ _ _ Hu) as (Hin' & _ & Hhi).
    assert (Hle : lower <= upper)
      by (by apply (sort_lookup_le nums n (S n)); try lia).
    split; [done|]. repeat split; try done; [lia|].
    intros c Hpos Hsum Hc.
    rewrite add_of_Z, Hc by lia. rewrite div_of_Z by lia. done.
Qed.

(** *** mean *)

Lemma accumulate_of_Z (nums : list Z) (acc : Z) :
  Forall (fun x => 0 <= x) nums -> 0 <= acc ->
  acc + total nums < 2 ^ 53 ->
  fold_left (fun acc x => DoubleOps.add acc (Double.of_Z x)) nums
            (Double.of_Z acc)
  = Double.of_Z (acc + total nums).
Proof.
  intros Hpos. revert acc.
  induction Hpos as [|x nums Hx Hnums IH]; intros acc Hacc Hlt;
    cbn [fold_left].
  - change (total []) with 0. by rewrite Z.add_0_r.
  - change (total (x :: nums)) with (x + total nums) in *.
    assert (0 <= total nums).
    { clear -Hnums. induction Hnums as [|y l Hy Hl IH]; [done|].
      change (total (y :: l)) with (y + total l). lia. }
    rewrite add_of_Z by lia. rewrite IH by lia. f_equal. lia.
Qed.

(** X17. For natural numbers whose sum is below [2^53] the accumulation of
    [mean] is exact, in whatever order the elements come: the mean is the
    sum divided by the size, rounded once.  When the size divides the sum
    nothing is rounded at all and the mean is the integer quotient; the
    mean of one element is that element. *)
Theorem mean_of_naturals_rounds_once (nums : list Z) :
  Forall (fun x => 0 <= x) nums -> total nums < 2 ^ 53 ->
  mean nums
  = DoubleOps.div (Double.of_Z (total nums))
                  (Double.of_Z (Z.of_nat (length nums)))
  /\ (forall nums', nums ≡ₚ nums' -> mean nums' = mean nums)
  /\ (forall c, nums <> [] -> Z.of_nat (length nums) < 2 ^ 53 ->
                total nums = c * Z.of_nat (length nums) ->
                mean nums = Double.of_Z c)
  /\ (forall x, nums = [x] -> mean nums = Double.of_Z x).
Proof.
  assert (Hmean : forall l, Forall (fun x => 0 <= x) l -> total l < 2 ^ 53 ->
            mean l = DoubleOps.div (Double.of_Z (total l))
                                   (Double.of_Z (Z.of_nat (length l)))).
  { intros l Hpos Hlt. unfold mean.
    change Double.zero with (Double.of_Z 0).
    by rewrite accumulate_of_Z by (done || lia). }
  assert (Hquot : forall l c, Forall (fun x => 0 <= x) l ->
            total l < 2 ^ 53 -> l <> [] -> Z.of_nat (length l) < 2 ^ 53 ->
            total l = c * Z.of_nat (length l) -> mean l = Double.of_Z c).
  { intros l c Hpos Hlt Hne Hlen Hc. rewrite (Hmean l Hpos Hlt), Hc.
    assert (0 < Z.of_nat (length l)) by (destruct l; [done|simpl; lia]).
    assert (0 <= total l).
    { clear -Hpos. induction Hpos as [|y l Hy Hl IH]; [done|].
      change (total (y :: l)) with (y + total l). lia. }
    apply div_of_Z; [nia|lia|lia]. }
  intros Hpos Hlt. split; [by apply Hmean|]. split; [|split].
  - intros nums' Hp.
    assert (Ht : total nums' = total nums).
    { clear -Hp. unfold total. induction Hp; simpl; lia. }
    rewrite (Hmean nums Hpos Hlt).
    rewrite (Hmean nums');
      [by rewrite Ht, (Permutation_length Hp)|by rewrite <- Hp
      |by rewrite Ht].
  - intros c. by apply Hquot.
  - intros x ->. apply Hquot; try done.
    change (total [x]) with (x + 0). simpl. lia.
Qed.

(** *** mean and var on containers that are too small *)

(** X18. The mean of an empty container is NaN, while its variance is zero:
    the divisor [size - 1] wraps around.  The variance of a container of
    one element is never a number, whatever the element: it is NaN or an
    infinity. *)
Theorem mean_var_small_containers :
  mean [] = S754_nan
  /\ var pow [] = Double.zero
  /\ forall x, DoubleOps.is_number (var pow [x]) = false.
Proof.
  split; [reflexivity|]. split; [vm_compute; reflexivity|].
  intros x. unfold var. simpl fold_left. simpl length.
  change (Double.of_Z (wrap64 (Z.of_nat 1 - 1))) with (S754_zero false).
  match goal with
  | |- context [DoubleOps.div ?v _] => destruct v as [s|s| |s m e]
  end; reflexivity.
Qed.

(** *** min_element_indices *)

Lemma min_fold (rest : list Z) (first : Z) :
  let m := fold_left (fun smallest x => if x <? smallest then x else smallest)
                     rest first in
  m ∈ first :: rest /\ forall x, x ∈ first :: rest -> m <= x.
Proof.
  revert first. induction rest as [|y rest IH]; intros first; simpl.
  - split; [by left|]. intros x Hx. apply list_elem_of_singleton in Hx. lia.
  - destruct (IH (if y <? first then y else first)) as [Hin Hle]. split.
    + apply elem_of_cons in Hin as [Hin|Hin].
      * rewrite Hin. destruct (y <? first); [right; by left|by left].
      * right. by right.
    + intros x Hx.
      assert (Hm : (if y <? first then y else first) <= x
                   \/ x ∈ rest).
      { apply elem_of_cons in Hx as [->|Hx];
          [|apply elem_of_cons in Hx as [->|Hx]]; [| |by right].
        all: left; destruct (Z.ltb_spec y first); lia. }
      destruct Hm as [Hm|Hm].
      * etrans; [|exact Hm]. apply Hle. by left.
      * apply Hle. by right.
Qed.

Lemma find_spec (range : list Z) (value : Z) :
  (find range value <= length range)%nat
  /\ (forall j, (j < find range value)%nat -> range !! j <> Some value)
  /\ ((find range value < length range)%nat ->
      range !! find range value = Some value).
Proof.
  induction range as [|x range (IH1 & IH2 & IH3)]; simpl.
  - split; [lia|]. split; [intros j Hj; lia|lia].
  - destruct (Z.eqb_spec x value) as [->|Hne]; simpl.
    + split; [lia|]. split; [intros j Hj; lia|done].
    + split; [lia|]. split.
      * intros [|j] Hj; simpl; [congruence|]. apply IH2. lia.
      * intros Hlt. apply IH3. lia.
Qed.

Lemma filter_seq_none (P : nat -> Prop) `{forall i, Decision (P i)}
  (start len : nat) :
  (forall i, (start <= i < start + len)%nat -> ~ P i) ->
  filter P (seq start len) = [].
Proof.
  intros Hn. apply filter_none. apply Forall_forall. intros i Hi.
  apply elem_of_seq in Hi. apply Hn. lia.
Qed.

Lemma find_all_spec (fuel : nat) (nums : list Z) (min : Z) (it : nat)
  (indices : list Z) :
  (it <= length nums)%nat -> (length nums - it < fuel)%nat ->
  find_all fuel nums min it indices
  = indices
    ++ ((fun i : nat => wrap32 (Z.of_nat i))
          <$> filter (fun i : nat => nums !! i = Some min)
                     (seq it (length nums - it))).
Proof.
  revert it indices. induction fuel as [|fuel IH]; intros it indices Hit Hf;
    [lia|].
  simpl. destruct (find_spec (drop it nums) min) as (Hle & Hnot & Hat).
  rewrite length_drop in Hle, Hat.
  set (d := find (drop it nums) min) in *.
  assert (Hskip : filter (fun i : nat => nums !! i = Some min) (seq it d)
                  = []).
  { apply filter_seq_none. intros i Hi.
    specialize (Hnot (i - it)%nat ltac:(lia)).
    rewrite lookup_drop in Hnot. by replace (it + (i - it))%nat with i in Hnot
      by lia. }
  case_bool_decide as Hend.
  - replace (length nums - it)%nat with d by lia.
    by rewrite Hskip, app_nil_r.
  - specialize (Hat ltac:(lia)). rewrite lookup_drop in Hat.
    rewrite IH by lia.
    replace (length nums - it)%nat
      with (d + S (length nums - S (it + d)))%nat by lia.
    rewrite seq_app, filter_app, Hskip. simpl.
    rewrite filter_cons. rewrite decide_True by done.
    rewrite fmap_cons, <- app_assoc. done.
Qed.

(** X19. [min_element_indices] is undefined exactly on the empty container;
    otherwise it returns, in increasing order, the indices of all the
    elements equal to the smallest element, each reduced to [unsigned],
    and its assertion holds.  For a container of at most [2^32] elements
    these are the indices themselves. *)
Theorem min_element_indices_are_all_minima (nums : list Z) :
  (min_element_indices nums = None <-> nums = [])
  /\ (nums <> [] ->
      exists min,
        min ∈ nums /\ (forall x, x ∈ nums -> min <= x)
        /\ min_element_indices nums
           = Some ((fun i : nat => wrap32 (Z.of_nat i))
                     <$> filter (fun i : nat => nums !! i = Some min)
                                (seq 0 (length nums)))
        /\ (Z.of_nat (length nums) <= 2 ^ 32 ->
            min_element_indices nums
            = Some (Z.of_nat
                      <$> filter (fun i : nat => nums !! i = Some min)
                                 (seq 0 (length nums))))).
Proof.
  assert (Hmain : nums <> [] ->
      exists min,
        min ∈ nums /\ (forall x, x ∈ nums -> min <= x)
        /\ min_element_indices nums
           = Some ((fun i : nat => wrap32 (Z.of_nat i))
                     <$> filter (fun i : nat => nums !! i = Some min)
                                (seq 0 (length nums)))).
  { intros Hne. destruct nums as [|first rest]; [done|].
    destruct (min_fold rest first) as [Hin Hle].
    set (min := fold_left _ rest first) in *.
    exists min. split; [done|]. split; [done|].
    unfold min_element_indices. simpl min_element. fold min. cbv iota beta.
    rewrite find_all_spec by lia. rewrite Nat.sub_0_r. simpl app.
    case_bool_decide as Hempty; [|done]. exfalso.
    apply list_elem_of_lookup_1 in Hin as [i Hi].
    apply fmap_nil_inv in Hempty.
    match type of Hempty with
    | ?l = [] => assert (Hi' : i ∈ l)
    end.
    { apply list_elem_of_filter. split; [done|].
      change (i ∈ seq 0 (length (first :: rest))). apply elem_of_seq.
      apply lookup_lt_Some in Hi. lia. }
    rewrite Hempty in Hi'. by apply elem_of_nil in Hi'. }
  split.
  - split.
    + intros Hnone. destruct nums as [|first rest]; [done|].
      destruct (Hmain ltac:(done)) as (min & _ & _ & Heq). congruence.
    + intros ->. reflexivity.
  - intros Hne. destruct (Hmain Hne) as (min & Hin & Hle & Heq).
    exists min. repeat split; try done.
    intros Hsmall. rewrite Heq. f_equal.
    apply list_fmap_ext. intros j i Hi.
    apply list_elem_of_lookup_2, list_elem_of_filter in Hi as [_ Hi].
    apply elem_of_seq in Hi. unfold wrap32. apply Z.mod_small. lia.
Qed.

End BasicsProperties.

(** * The example configuration, run *)

(** C1, at the boundary: five bases, threshold count 4; one clipped base
    leaves four aligned and the read passes. *)
Lemma filterRead_boundary_witness :
  mapping_wf (mapping_of demo_filter (demo_read "SMMMM"))
  /\ aligned_length (mapping_of demo_filter (demo_read "SMMMM")) = 4
  /\ filterRead demo_filter (demo_read "SMMMM") = (false, ""%string)
  /\ filterRead demo_filter (demo_read "SSMMM") = (true, "bad_align"%string).
Proof.
  assert (Hwf : forall cigar, String.length cigar = 5%nat ->
                  demo_clipped cigar <= 5 -> 0 <= demo_clipped cigar ->
                  mapping_wf (mapping_of demo_filter (demo_read cigar))).
  { intros cigar Hlen Hle Hge. unfold mapping_wf. simpl. rewrite Hlen.
    split; [|split]; [constructor; [simpl; lia|constructor] | simpl; lia | lia]. }
  split; [apply Hwf; [reflexivity | simpl; lia | simpl; lia]|].
  split; [reflexivity|]. split.
  - destruct (filterRead_excludes_iff_below_rounded_threshold
                demo_filter (demo_read "SMMMM")
                (Hwf "SMMMM"%string eq_refl ltac:(simpl; lia)
                     ltac:(simpl; lia)))
      as (_ & _ & _ & _ & _ & _ & Hb).
    apply Hb; reflexivity.
  - destruct (filterRead_excludes_iff_below_rounded_threshold
                demo_filter (demo_read "SSMMM")
                (Hwf "SSMMM"%string eq_refl ltac:(simpl; lia)
                     ltac:(simpl; lia)))
      as (_ & _ & _ & _ & _ & _ & Hb).
    apply Hb; reflexivity.
Defined.

(** C2, as the specification has it, fails: a filter is constructed with
    the threshold 1.5. *)
Lemma BadAlign_new_accepts_any_threshold :
  ~ (forall (graph : pointer (@Graph demo)) (bad_align_frac : double),
        is_Some (BadAlign_new graph bad_align_frac) ->
        threshold_in_range bad_align_frac = true).
Proof.
  intros Hc.
  specialize (Hc (Some (tt : @Graph demo)) Double.d1_5 ltac:(by eexists)).
  vm_compute in Hc. discriminate.
Qed.

(** C2 (amended): the threshold 1.5 is out of range and is stored. *)
Lemma BadAlign_new_witness :
  threshold_in_range Double.d1_5 = false
  /\ BadAlign_new (H := demo) (Some tt) Double.d1_5
     = Some (@mkBadAlign demo tt Double.d1_5).
Proof.
  split; [reflexivity|].
  apply (proj2 (@BadAlign_new_checks_graph_only demo (Some tt) Double.d1_5)
               tt).
  reflexivity.
Defined.

(** C7: a read that maps in reverse orientation only. *)
Lemma alignRead_selection_witness :
  bestOverPaths (H := demo) ["ACGTA"; "TTGCA"]%string "ACGTT" = None
  /\ snd (alignRead demo_aligner demo_reverse_read)
     = read_mapped_to demo_reverse_read Reverse
         {| cand_score := 5; cand_pos := 0; cand_cigar := "TTGCA" |} true.
Proof.
  split; [reflexivity|].
  destruct (alignRead_selection demo_aligner demo_reverse_read)
    as (_ & _ & Hrev & _).
  apply Hrev; reflexivity.
Defined.

(** C9: a unit with two read sources. *)
Lemma processGraph_adds_bam_witness :
  exists augmented,
    processGraph (H := demo) "g1.json" (2%nat : @Parameters demo)
      ["a.bam"; "b.bam"]%string [] = Some (demo_writeJson augmented)
    /\ json_get "bam" augmented
       = Some (JArray [JString "a.bam"; JString "b.bam"]).
Proof.
  destruct (processGraph_adds_bam (H := demo) "g1.json"
              (2%nat : @Parameters demo) ["a.bam"; "b.bam"]%string []
              [] (JObject ∅) eq_refl eq_refl eq_refl)
    as (augmented & Hp & _ & Hlist & _).
  exists augmented. split; [exact Hp|]. apply Hlist. simpl. lia.
Defined.

(** C10: the folder "out" and a folder that cannot be written. *)
Lemma makeOutputFile_witness :
  outputPathFor demo_folder "graphs/g1.json" = "out/g1.json"%string
  /\ outputPathFor demo_readonly "graphs/g1.json" = "/ro/g1.json.gz"%string
  /\ makeOutputFile demo_readonly "{}" "graphs/g1.json" ∅
     = Error ("ERROR: Failed to open output file '/ro/g1.json.gz'. "
              +:+ "Error: 'Read-only file system'").
Proof.
  split; [reflexivity|]. split; [reflexivity|].
  destruct (makeOutputFile_path_and_error demo_readonly "{}"
              "graphs/g1.json" ∅) as (_ & _ & Herr & _).
  rewrite Herr; reflexivity.
Defined.


(** The two units of that run, and what it writes. *)
Lemma demo_separate_output :
  demo_workflow false ["a.bam"; "b.bam"]%string ["g1.json"]%string "" 1
  = Some demo_separate
  /\ length (all_units demo_separate) = 2%nat
  /\ (content ∘ aggregate) <$> run demo_separate ∅ demo_sequential
     = Some "{bam:a.bam},{bam:b.bam}"%string.
Proof. repeat split; vm_compute; reflexivity. Qed.





(** C8, as the specification has it, fails: with a per-unit output folder
    the file is written by a worker that does not hold the mutex. *)
Lemma lock_discipline_spec_fails : ~ @lock_discipline_spec demo.
Proof.
  intros Hc.
  specialize (Hc demo_folder ∅ (demo_start demo_folder) [0; 0; 0; 0; 0]%nat
                 eq_refl eq_refl).
  rewrite Forall_forall in Hc.
  specialize (Hc (mkEntry 0 None (EvFile 0 0 "out/g1.json" true))).
  unfold lock_ok_spec in Hc. simpl in Hc.
  discriminate Hc. vm_compute.
  do 4 (apply elem_of_cons; right). apply elem_of_cons. by left.
Qed.

(** C8 (amended): the same step, within the discipline of the source. *)
Lemma lock_discipline_witness :
  is_fresh demo_folder = true
  /\ run_start demo_folder ∅ = Ok (demo_start demo_folder)
  /\ Forall lock_ok
       (trace (exec demo_sequential (demo_start demo_folder)))
  /\ mkEntry 0 None (EvFile 0 0 "out/g1.json" true)
     ∈ trace (exec demo_sequential (demo_start demo_folder)).
Proof.
  split; [reflexivity|]. split; [reflexivity|]. split.
  - apply (lock_discipline demo_folder ∅ (demo_start demo_folder)
             demo_sequential eq_refl eq_refl).
  - vm_compute.
    do 4 (apply elem_of_cons; right). apply elem_of_cons. by left.
Defined.

(** * The further properties, on the example configuration *)

(** A read of which every base is clipped passes a filter whose
    threshold is NaN. *)
Lemma filterRead_not_positive_threshold_witness :
  0 <= queryLength (mapping_of demo_nan_filter (demo_read "SSSSS"))
  /\ Double.ltb Double.zero (bad_align_frac_ demo_nan_filter) = false
  /\ filterRead demo_nan_filter (demo_read "SSSSS") = (false, ""%string).
Proof.
  split; [simpl; lia|]. split; [reflexivity|].
  apply (filterRead_not_positive_threshold (H := demo)
           demo_nan_filter (demo_read "SSSSS")); [simpl; lia|reflexivity].
Defined.

(** With the threshold one, a single clipped base excludes the read. *)
Lemma filterRead_threshold_one_witness :
  mapping_wf (mapping_of demo_strict_filter (demo_read "SMMMM"))
  /\ filterRead demo_strict_filter (demo_read "SMMMM")
     = (true, "bad_align"%string)
  /\ filterRead demo_strict_filter (demo_read "MMMMM") = (false, ""%string).
Proof.
  assert (Hwf : forall cigar, String.length cigar = 5%nat ->
                  demo_clipped cigar <= 5 -> 0 <= demo_clipped cigar ->
                  mapping_wf (mapping_of demo_strict_filter
                                         (demo_read cigar))).
  { intros cigar Hlen Hle Hge. unfold mapping_wf. simpl. rewrite Hlen.
    split; [|split];
      [constructor; [simpl; lia|constructor] | simpl; lia | lia]. }
  split; [apply Hwf; [reflexivity | simpl; lia | simpl; lia]|].
  split.
  - apply (filterRead_threshold_one (H := demo) demo_strict_filter
             (demo_read "SMMMM")
             (Hwf "SMMMM"%string eq_refl ltac:(simpl; lia)
                  ltac:(simpl; lia)) eq_refl).
    simpl. lia.
  - apply (filterRead_threshold_one (H := demo) demo_strict_filter
             (demo_read "MMMMM")
             (Hwf "MMMMM"%string eq_refl ltac:(simpl; lia)
                  ltac:(simpl; lia)) eq_refl).
    reflexivity.
Defined.

(** Two read sources processed separately make two groups. *)
Lemma Workflow_new_groups_witness :
  unprocessedInputs_ demo_separate
  = separate_groups ["a.bam"; "b.bam"]%string
                    ["a.bam.bai"; "b.bam.bai"]%string
  /\ length (all_units demo_separate) = 2%nat.
Proof.
  destruct (Workflow_new_groups (H := demo) false
              ["a.bam"; "b.bam"]%string
              ["a.bam.bai"; "b.bam.bai"]%string ["g1.json"]%string "-" ""
              false (1%nat : @Parameters demo) "ref.fa" "") as [_ Hmade].
  destruct (Hmade demo_separate eq_refl) as (Hgroups & _ & _ & _ & Hunits).
  split; [exact Hgroups|exact Hunits].
Defined.

(** With the stand-in collaborators [processGraph] does not throw. *)
Lemma processGraph_fails_iff_witness :
  processGraph (H := demo) "g1.json" (2%nat : @Parameters demo)
    ["a.bam"]%string [] <> None.
Proof.
  intros Hnone.
  apply (proj1 (processGraph_fails_iff (H := demo) "g1.json"
                  (2%nat : @Parameters demo) ["a.bam"]%string [])) in Hnone.
  destruct Hnone as [Hnone|(allReads & _ & [Hnone|(j & Hj & Hobj)])];
    try discriminate.
  injection Hj as <-. discriminate.
Defined.

(** The opening token stays in front of whatever follows. *)
Lemma aggregate_is_append_only_witness :
  exists x,
    content (aggregate (exec demo_interleaved (demo_start demo_joint)))
    = ("[" +:+ x)%string.
Proof.
  destruct (aggregate_is_append_only (H := demo) (demo_start demo_joint)
              demo_interleaved) as [[x Hx] _].
  exists x. exact Hx.
Defined.

Lemma no_aggregate_path_writes_nothing_witness :
  is_empty (outputFilePath_ demo_quiet) = true
  /\ content (aggregate (run_finish (exec demo_sequential
                                          (demo_start demo_quiet))))
     = ""%string.
Proof.
  split; [reflexivity|].
  destruct (no_aggregate_path_writes_nothing (H := demo) demo_quiet ∅
              eq_refl) as (s0 & Hs0 & Hquiet).
  injection Hs0 as <-.
  destruct (Hquiet demo_sequential) as (_ & Hend & _). exact Hend.
Defined.




Lemma completed_run_releases_mutex_witness :
  is_fresh demo_joint = true
  /\ run_start demo_joint ∅ = Ok (demo_start demo_joint)
  /\ all_done (exec demo_interleaved (demo_start demo_joint)) = true
  /\ mutex_ (wf (exec demo_interleaved (demo_start demo_joint))) = None.
Proof.
  split; [reflexivity|]. split; [reflexivity|].
  split; [vm_compute; reflexivity|].
  apply (completed_run_releases_mutex (H := demo) demo_joint ∅
           (demo_start demo_joint) demo_interleaved eq_refl eq_refl).
  vm_compute. reflexivity.
Defined.

(** Worker 0 holds the mutex, so worker 1 waits and worker 0 can move. *)
Lemma pool_never_deadlocks_witness :
  is_fresh demo_joint = true
  /\ run_start demo_joint ∅ = Ok (demo_start demo_joint)
  /\ step 1 (exec [0%nat] (demo_start demo_joint)) = None
  /\ is_Some (step 0 (exec [0%nat] (demo_start demo_joint))).
Proof.
  split; [reflexivity|]. split; [reflexivity|].
  split; [vm_compute; reflexivity|].
  destruct (pool_never_deadlocks (H := demo) demo_joint ∅
              (demo_start demo_joint) [0%nat] eq_refl eq_refl)
    as (_ & Hholder & _).
  apply Hholder. vm_compute. reflexivity.
Defined.

Lemma moves_are_bounded_witness :
  is_fresh demo_joint = true
  /\ run_start demo_joint ∅ = Ok (demo_start demo_joint)
  /\ (moves demo_interleaved (demo_start demo_joint) <= 52)%nat.
Proof.
  split; [reflexivity|]. split; [reflexivity|].
  apply (moves_are_bounded (H := demo) demo_joint ∅
           (demo_start demo_joint) demo_interleaved eq_refl eq_refl).
Defined.


(** One worker, two read sources, two graphs: group by group. *)
Lemma single_worker_emits_in_order_witness :
  exists s,
    run demo_grid ∅ (replicate 60 0%nat) = Some s
    /\ terminate_ (wf s) = false
    /\ emitted_units (trace s) = [(0, 0); (0, 1); (1, 0); (1, 1)]%nat.
Proof.
  destruct (run demo_grid ∅ (replicate 60 0%nat)) as [s|] eqn:E;
    [|vm_compute in E; discriminate].
  exists s. split; [reflexivity|].
  assert (Ht : terminate_ (wf s) = false).
  { vm_compute in E. injection E as <-. reflexivity. }
  split; [exact Ht|].
  destruct (single_worker_emits_in_order (H := demo) demo_grid ∅
              (replicate 60 0%nat) s eq_refl eq_refl eq_refl E Ht)
    as [Hunits _].
  rewrite Hunits. reflexivity.
Defined.

Lemma openReaders_one_per_source_witness :
  openReaders demo_joint (mkInput ["a.bam"; "b.bam"]%string
                                  ["a.bai"; "b.bai"]%string 0)
  = Some [mkBamReader "a.bam" "a.bai" "ref.fa";
          mkBamReader "b.bam" "b.bai" "ref.fa"].
Proof.
  destruct (openReaders demo_joint
              (mkInput ["a.bam"; "b.bam"]%string
                       ["a.bai"; "b.bai"]%string 0)) as [readers|] eqn:E;
    [|vm_compute in E; discriminate].
  destruct (openReaders_one_per_source (H := demo) demo_joint
              (mkInput ["a.bam"; "b.bam"]%string
                       ["a.bai"; "b.bai"]%string 0)
              ltac:(simpl; lia)) as [_ Hsome].
  destruct (Hsome readers E) as [Hlen Hat].
  destruct (Hat 0%nat "a.bam"%string "a.bai"%string eq_refl eq_refl)
    as [H0 _].
  destruct (Hat 1%nat "b.bam"%string "b.bai"%string eq_refl eq_refl)
    as [H1 _].
  destruct readers as [|r0 [|r1 [|r2 readers]]]; try discriminate.
  simpl in H0, H1. by injection H0 as ->; injection H1 as ->.
Defined.

(** The median of 3, 1, 2 and of 4, 1, 3, 2. *)
Lemma median_order_independent_witness :
  median [3; 1; 2] = median [1; 2; 3]
  /\ median [3; 1; 2] = Some (Double.of_Z 2).
Proof.
  split; [|reflexivity].
  apply (proj2 (median_order_independent [3; 1; 2]) [1; 2; 3]).
  apply (Permutation_cons_append [1; 2] 3).
Defined.

Lemma median_is_middle_witness :
  exists lower upper,
    median [4; 1; 3; 2]
    = Some (DoubleOps.div
              (DoubleOps.add (Double.of_Z lower) (Double.of_Z upper))
              (Double.of_Z 2))
    /\ lower <= upper.
Proof.
  destruct (proj2 (median_is_middle [4; 1; 3; 2] 1) eq_refl)
    as (lower & upper & Hm & Hle & _).
  by exists lower, upper.
Defined.

(** The mean of 2, 4 and 6 is 4, with nothing rounded. *)
Lemma mean_of_naturals_rounds_once_witness :
  Forall (fun x => 0 <= x) [2; 4; 6] /\ total [2; 4; 6] < 2 ^ 53
  /\ mean [2; 4; 6] = Double.of_Z 4.
Proof.
  assert (Hpos : Forall (fun x => 0 <= x) [2; 4; 6])
    by (repeat constructor; lia).
  assert (Hlt : total [2; 4; 6] < 2 ^ 53) by (simpl; lia).
  split; [exact Hpos|]. split; [exact Hlt|].
  destruct (mean_of_naturals_rounds_once [2; 4; 6] Hpos Hlt)
    as (_ & _ & Hquot & _).
  apply Hquot; [done|simpl; lia|reflexivity].
Defined.

Lemma mean_var_small_containers_witness :
  DoubleOps.is_number (var (fun x _ => Double.mul x x) [7]) = false.
Proof.
  apply (proj2 (proj2 (mean_var_small_containers
                         (fun x _ => Double.mul x x)))).
Defined.

Lemma min_element_indices_are_all_minima_witness :
  min_element_indices [5; 2; 7; 2] = Some [1; 3].
Proof.
  destruct (proj2 (min_element_indices_are_all_minima [5; 2; 7; 2])
                  ltac:(done)) as (min & Hin & Hle & _ & Hsmall).
  rewrite Hsmall by (simpl; lia).
  assert (min = 2) as ->; [|reflexivity].
  assert (Hle2 : min <= 2) by (apply Hle; do 1 right; by left).
  repeat (apply elem_of_cons in Hin as [->|Hin]); try lia; try done.
  by apply elem_of_nil in Hin.
Defined.
